(** * telegram-telethon daemon: trigger routing, debounce, assistant bridge

    A shallow embedding of the daemon core of [telegram_telethon]:

    - [core/config.py]          : [TriggerConfig], [ClaudeConfig]
    - [daemon/handlers.py]      : [EventRouter], [MessageHandler],
                                  [DebounceManager]
    - [daemon/claude_bridge.py] : [ClaudeSession], [ClaudeResponse],
                                  [ClaudeBridge]
    - [daemon/runner.py]        : [Daemon]

    Conventions of the embedding.

    - Python [str] is [string]; the case and whitespace functions are the
      ASCII restrictions of [str.lower], [str.upper] and [str.strip].
    - Values decoded from JSON are [pyval]; a Python exception is an
      [exn] carried by [exc].
    - [dict]s keyed by hashable values are [gmap]s; a decoded JSON object
      is an association list, since its iteration order is observable.
    - [time.time()] is an integer clock; [asyncio] tasks are entries of a
      task table that the event loop steps one at a time.
    - Everything the program does to the outside world (spawning the
      assistant, writing the sessions file, sending a chat message,
      closing the connection) is appended to an effect log.
    - What the outside world does to the program (how the assistant's
      subprocess ends, whether the sessions file can be written, what the
      clock reads) is an argument of the functions that meet it. *)

From Stdlib Require Import ZArith Lia Bool Ascii.
From Stdlib Require QArith.
From stdpp Require Import gmap strings list fin_maps pretty.

Set Warnings "-register-all".

Local Open Scope string_scope.
Local Open Scope Z_scope.
Local Open Scope list_scope.

(** ** Python strings (ASCII) *)

Module PyStr.

Definition lower_char (c : ascii) : ascii :=
  let n := nat_of_ascii c in
  if ((65 <=? n) && (n <=? 90))%nat then ascii_of_nat (n + 32) else c.

Definition upper_char (c : ascii) : ascii :=
  let n := nat_of_ascii c in
  if ((97 <=? n) && (n <=? 122))%nat then ascii_of_nat (n - 32) else c.

Fixpoint map (f : ascii → ascii) (s : string) : string :=
  match s with
  | EmptyString => EmptyString
  | String c s' => String (f c) (map f s')
  end.

(** [str.lower()] and [str.upper()]. *)
Definition lower : string → string := map lower_char.
Definition upper : string → string := map upper_char.

(** [str.isspace] on one ASCII character: TAB, LF, VT, FF, CR, the four
    separators FS, GS, RS, US, and the space. *)
Definition is_space (c : ascii) : bool :=
  let n := nat_of_ascii c in
  (((9 <=? n) && (n <=? 13)) || ((28 <=? n) && (n <=? 32)))%nat.

Fixpoint lstrip (s : string) : string :=
  match s with
  | EmptyString => EmptyString
  | String c s' => if is_space c then lstrip s' else s
  end.

(** [rstrip] keeps a character when it is not a space or when something
    non-blank follows it. *)
Fixpoint rstrip (s : string) : string :=
  match s with
  | EmptyString => EmptyString
  | String c s' =>
      match rstrip s' with
      | EmptyString => if is_space c then EmptyString else String c EmptyString
      | r => String c r
      end
  end.

(** [str.strip()] with no argument. *)
Definition strip (s : string) : string := rstrip (lstrip s).

(** Truth value of a [str]: non-empty. *)
Definition truthy (s : string) : bool :=
  match s with EmptyString => false | _ => true end.

(** Truth value of an [Optional[str]]. *)
Definition opt_truthy (o : option string) : bool :=
  match o with Some s => truthy s | None => false end.

End PyStr.

(** ** Python values and exceptions *)

(** What [json.loads] can produce. A JSON number is an [int] or a [float];
    a finite float is kept as the rational it stands for. *)
Inductive pyval : Type :=
| PNone
| PBool (b : bool)
| PInt (n : Z)
| PFloat (q : QArith_base.Q)
| PStr (s : string)
| PList (l : list pyval)
| PDict (d : list (string * pyval)).

(** The exception classes the daemon code raises or catches. *)
Inductive exn : Type :=
| AttributeError (msg : string)
| TypeError (msg : string)
| KeyError (key : string)
| ValueError (msg : string)
| JSONDecodeError (msg : string)
| OSError (msg : string)
| CancelledError.

(** A computation that returns or raises. *)
Inductive exc (A : Type) : Type :=
| Ret (a : A)
| Raise (e : exn).
Arguments Ret {A} a.
Arguments Raise {A} e.

Global Instance exc_ret : MRet exc := λ A, @Ret A.
Global Instance exc_bind : MBind exc := λ A B k m,
  match m with
  | Ret a => k a
  | Raise e => Raise e
  end.

Module Py.

(** [bool(v)]. *)
Definition truthy (v : pyval) : bool :=
  match v with
  | PNone => false
  | PBool b => b
  | PInt n => negb (n =? 0)
  | PFloat q => negb (QArith_base.Qnum q =? 0)
  | PStr s => PyStr.truthy s
  | PList l => match l with [] => false | _ => true end
  | PDict d => match d with [] => false | _ => true end
  end.

(** Lookup in a decoded object. *)
Fixpoint assoc (k : string) (d : list (string * pyval)) : option pyval :=
  match d with
  | [] => None
  | (k', v) :: d' => if String.eqb k k' then Some v else assoc k d'
  end.

(** [d.get(k)] and [d.get(k, default)] on a [dict]. *)
Definition dict_get (d : list (string * pyval)) (k : string) (default : pyval) : pyval :=
  match assoc k d with Some v => v | None => default end.

(** [v.get(k, default)]: only a [dict] has the method. *)
Definition get (v : pyval) (k : string) (default : pyval) : exc pyval :=
  match v with
  | PDict d => Ret (dict_get d k default)
  | _ => Raise (AttributeError "get")
  end.

(** [v == s] for a [str] literal [s]. *)
Definition eq_str (v : pyval) (s : string) : bool :=
  match v with PStr s' => String.eqb s' s | _ => false end.

(** [Optional[str]] as a value. *)
Definition of_opt_str (o : option string) : pyval :=
  match o with Some s => PStr s | None => PNone end.

(** [n / d] rounded to the nearest integer, a tie going to the even
    one ([0 <= n], [0 < d]). *)
Definition round_half_even (n d : Z) : Z :=
  let q := n / d in
  let r := n mod d in
  if 2 * r <? d then q
  else if d <? 2 * r then q + 1
  else if Z.even q then q else q + 1.

(** The binary64 value nearest to a rational below the overflow
    threshold, ties to even: what an operation on [float]s returns when
    its exact result is [q]. *)
Definition float_round (q : QArith_base.Q) : QArith_base.Q :=
  let n := QArith_base.Qnum q in
  let d := Z.pos (QArith_base.Qden q) in
  let a := Z.abs n in
  if a =? 0 then QArith_base.Qmake 0 1
  else
    let e0 := Z.log2 a - Z.log2 d in
    let e := if (if 0 <=? e0 then d * 2 ^ e0 <=? a else d <=? a * 2 ^ (- e0))
             then e0 else e0 - 1 in
    let u := Z.max (e - 52) (-1074) in
    let m := if 0 <=? u then round_half_even a (d * 2 ^ u)
             else round_half_even (a * 2 ^ (- u)) d in
    Qreduction.Qred
      (if 0 <=? u then QArith_base.Qmake (Z.sgn n * m * 2 ^ u) 1
       else QArith_base.Qmake (Z.sgn n * m) (Z.to_pos (2 ^ (- u)))).

(** A text between double quotes, as JSON writes a string. *)
Definition quoted (s : string) : string :=
  String "034"%char (s +:+ String "034"%char EmptyString).

End Py.

(** ** core/config.py *)

(** A [re.Match]: the text of group 0 and [match.groups()], where a group
    that took no part in the match is [None]. *)
Record ReMatch : Type := mkReMatch {
  group0 : string;
  groups : list (option string);
}.

Module Config.

Record t : Type := mk {
  api_id : option Z;
  api_hash : option string;
  phone : option string;
  allowed_send_groups : list string;
  config_dir : string;
}.

Definition is_configured (self : t) : bool :=
  match api_id self, api_hash self with
  | Some _, Some _ => true
  | _, _ => false
  end.

(** [f"{v}"] for an optional value. *)
Definition fmt_opt {A} (f : A → string) (o : option A) : string :=
  match o with Some v => f v | None => "None" end.

Definition __str__ (self : t) : string :=
  let hash_display :=
    if PyStr.opt_truthy (api_hash self) then Some "***REDACTED***" else None in
  "Config(api_id=" +:+ fmt_opt pretty (api_id self)
  +:+ ", api_hash=" +:+ fmt_opt id hash_display
  +:+ ", phone=" +:+ fmt_opt id (phone self) +:+ ")".

End Config.

Module ClaudeConfig.

Record t : Type := mk {
  allowed_tools : list string;
  max_turns : Z;
  timeout : Z;
}.

Fixpoint join (sep : string) (l : list string) : string :=
  match l with
  | [] => EmptyString
  | [x] => x
  | x :: l' => x +:+ sep +:+ join sep l'
  end.

Definition build_cli_args (c : t) : list string :=
  (match allowed_tools c with
   | [] => []
   | _ => ["--allowedTools"; join "," (allowed_tools c)]
   end) ++ ["--max-turns"; pretty (max_turns c)].

End ClaudeConfig.

Module TriggerConfig.

Record t : Type := mk {
  chat : string;
  pattern : string;
  action : string;
  reply_mode : string;
  reply_text : option string;
  debounce_seconds : Z;
  system_prompt : option string;
}.

Definition matches_chat (self : t) (chat_name : string) : bool :=
  if String.eqb (chat self) "*" then true
  else String.eqb (PyStr.lower (chat self)) (PyStr.lower chat_name).

Section Regex.
(** [re_match p text] stands for [re.compile(p).match(text)], the
    match of [p] anchored at the start of [text]. *)
Variable re_match : string → string → option ReMatch.

Definition match_message (self : t) (text : string) : option ReMatch :=
  re_match (pattern self) text.
End Regex.

End TriggerConfig.

(** ** daemon/handlers.py: routing *)

Record RouteMatch : Type := mkRouteMatch {
  rm_trigger : TriggerConfig.t;
  rm_captured_text : option string;
  rm_match_object : ReMatch;
}.

Module EventRouter.

Section Regex.
Variable re_match : string → string → option ReMatch.

(** [match.group(1)] when [match.groups()] is not empty. *)
Definition captured (m : ReMatch) : option string :=
  match groups m with
  | [] => None
  | g1 :: _ => g1
  end.

Fixpoint match_ (triggers : list TriggerConfig.t)
    (chat_name message_text : string) : option RouteMatch :=
  match triggers with
  | [] => None
  | trigger :: rest =>
      if negb (TriggerConfig.matches_chat trigger chat_name)
      then match_ rest chat_name message_text
      else
        match TriggerConfig.match_message re_match trigger message_text with
        | Some m => Some (mkRouteMatch trigger (captured m) m)
        | None => match_ rest chat_name message_text
        end
  end.

(** A rule accepts an event when its chat selector is "*" or equals the
    chat name up to case, and its pattern matches the text from its
    start. *)
Definition accepts (t : TriggerConfig.t) (chat_name message_text : string) : Prop :=
  (TriggerConfig.chat t = "*"
   ∨ PyStr.lower (TriggerConfig.chat t) = PyStr.lower chat_name)
  ∧ is_Some (re_match (TriggerConfig.pattern t) message_text).

End Regex.

End EventRouter.

(** ** daemon/handlers.py: action dispatch *)

(** The outcome of [json.loads] on a text. *)
Inductive loads_result : Type :=
| LoadsError (msg : string)
| Loaded (data : pyval).

Module ClaudeResponse.

Record t : Type := mk {
  result : pyval;
  session_id : pyval;
  success : bool;
  error : pyval;
  raw : option string;
}.

(** [cls(success=False, error=msg, raw=raw)]. *)
Definition failure (msg : pyval) (raw : option string) : t :=
  mk PNone PNone false msg raw.

(** [needle in s] for two strings. *)
Fixpoint contains (needle s : string) : bool :=
  String.prefix needle s
  || match s with
     | EmptyString => false
     | String _ s' => contains needle s'
     end.

(** The loop [for event in data] of [parse]. *)
Fixpoint parse_events (raw : string) (events : list pyval) : exc t :=
  match events with
  | [] => Ret (failure (PStr "No result in Claude response") (Some raw))
  | event :: rest =>
      (ty ← Py.get event "type" PNone ;
       if Py.eq_str ty "result" then
         res ← Py.get event "result" PNone ;
         sid ← Py.get event "session_id" PNone ;
         is_error ← Py.get event "is_error" (PBool false) ;
         Ret (mk res sid (negb (Py.truthy is_error))
                (if Py.truthy is_error then res else PNone) (Some raw))
       else parse_events raw rest)
  end.

(** ["error" in data] followed, when it holds, by [data["error"]], for
    [data] that is not a list. *)
Definition error_member (data : pyval) : exc (option pyval) :=
  match data with
  | PDict d => Ret (Py.assoc "error" d)
  | PStr s =>
      if contains "error" s
      then Raise (TypeError "string indices must be integers")
      else Ret None
  | _ => Raise (TypeError "argument is not iterable")
  end.

(** [ClaudeResponse.parse(raw)], where [loaded] is what [json.loads(raw)]
    does. *)
Definition parse (raw : string) (loaded : loads_result) : exc t :=
  match loaded with
  | LoadsError e =>
      Ret (failure (PStr ("Failed to parse JSON response: " +:+ e)) (Some raw))
  | Loaded (PList events) => parse_events raw events
  | Loaded data =>
      (err ← error_member data ;
       match err with
       | Some e => Ret (failure e (Some raw))
       | None =>
           res ← Py.get data "result" PNone ;
           sid ← Py.get data "session_id" PNone ;
           Ret (mk res sid true PNone (Some raw))
       end)
  end.

(** [s[:n]]: the first [n] characters, or all but the last [-n] when [n]
    is negative. *)
Definition slice_to (s : string) (n : Z) : string :=
  if 0 <=? n then String.substring 0 (Z.to_nat n) s
  else String.substring 0 (Z.to_nat (Z.of_nat (String.length s) + n)) s.

(** [truncated(max_length)]. A result that is not a [str] has no [len()]
    unless it is a container; a list cannot be extended by a [str] and a
    dict cannot be sliced (a [TypeError] before Python 3.12, a [KeyError]
    since). *)
Definition truncated (self : t) (max_length : Z) : exc pyval :=
  if negb (Py.truthy (result self)) then Ret (PStr EmptyString)
  else
    match result self with
    | PStr s =>
        if Z.of_nat (String.length s) <=? max_length then Ret (PStr s)
        else Ret (PStr (slice_to s max_length +:+ "..."))
    | PList l =>
        if Z.of_nat (length l) <=? max_length then Ret (PList l)
        else Raise (TypeError "can only concatenate list (not str) to list")
    | PDict d =>
        if Z.of_nat (length d) <=? max_length then Ret (PDict d)
        else Raise (TypeError "unhashable type: slice")
    | _ => Raise (TypeError "object has no len()")
    end.

End ClaudeResponse.

Module ActionResult.

Record t : Type := mk {
  success : bool;
  response : pyval;
  error : pyval;
  should_reply : bool;
  reply_to_message_id : option Z;
}.

End ActionResult.

Module MessageHandler.

(** The bridge the handler was built with: its [send] coroutine, seen as
    the response it eventually returns. *)
Definition bridge_send : Type := string → Z → option string → ClaudeResponse.t.

(** [message_id if trigger.reply_mode == "inline" else None]. *)
Definition reply_target (trigger : TriggerConfig.t) (message_id : option Z) : option Z :=
  if String.eqb (TriggerConfig.reply_mode trigger) "inline" then message_id else None.

Definition handle (send : bridge_send) (trigger : TriggerConfig.t) (chat_id : Z)
    (message_text : string) (captured_text : option string)
    (message_id : option Z) : ActionResult.t :=
  if String.eqb (TriggerConfig.action trigger) "ignore" then
    ActionResult.mk true PNone PNone false None
  else if String.eqb (TriggerConfig.action trigger) "reply" then
    ActionResult.mk true (Py.of_opt_str (TriggerConfig.reply_text trigger)) PNone
      true (reply_target trigger message_id)
  else if String.eqb (TriggerConfig.action trigger) "claude" then
    let prompt :=
      match captured_text with
      | Some c => if PyStr.truthy c then c else message_text
      | None => message_text
      end in
    let response := send prompt chat_id (TriggerConfig.system_prompt trigger) in
    if negb (ClaudeResponse.success response) then
      ActionResult.mk false PNone (ClaudeResponse.error response) false None
    else
      ActionResult.mk true (ClaudeResponse.result response) PNone true
        (reply_target trigger message_id)
  else
    ActionResult.mk false PNone
      (PStr ("Unknown action: " +:+ TriggerConfig.action trigger)) false None.

End MessageHandler.

(** ** daemon/claude_bridge.py *)

(** [str(e)] of an exception. *)
Definition exn_str (e : exn) : string :=
  match e with
  | AttributeError m | TypeError m | ValueError m | JSONDecodeError m | OSError m => m
  | KeyError k => "'" +:+ k +:+ "'"
  | CancelledError => EmptyString
  end.

Module PyInt.

Definition digit (c : ascii) : option Z :=
  let n := nat_of_ascii c in
  if ((48 <=? n) && (n <=? 57))%nat then Some (Z.of_nat n - 48) else None.

(** Decimal digits with single underscores between them; [prev] tells
    whether the previous character was a digit. *)
Fixpoint digits (acc : Z) (prev : bool) (s : string) : option Z :=
  match s with
  | EmptyString => if prev then Some acc else None
  | String c s' =>
      match digit c with
      | Some d => digits (acc * 10 + d) true s'
      | None =>
          if Ascii.eqb c "_" && prev then digits acc false s' else None
      end
  end.

(** [int(s)] for an ASCII [str]. *)
Definition of_str (s : string) : exc Z :=
  let body := PyStr.strip s in
  let parsed :=
    match body with
    | String "+" r => digits 0 false r
    | String "-" r => Z.opp <$> digits 0 false r
    | _ => digits 0 false body
    end in
  match parsed with
  | Some n => Ret n
  | None => Raise (ValueError ("invalid literal for int() with base 10: " +:+ s))
  end.

End PyInt.

Module ClaudeSession.

Record t : Type := mk {
  chat_id : pyval;
  session_id : pyval;
  message_count : pyval;
  created_at : pyval;
  last_used : pyval;
}.

(** [ClaudeSession(chat_id=c, session_id=sid)]: the default factories
    read the clock one after the other, [now] for [created_at] and then
    [later] for [last_used]. *)
Definition new (c : Z) (sid : pyval) (now later : string) : t :=
  mk (PInt c) sid (PInt 0) (PStr now) (PStr later).

(** [v += 1]: exact on [int] and [bool], rounded on [float]. *)
Definition add_one (v : pyval) : exc pyval :=
  match v with
  | PInt n => Ret (PInt (n + 1))
  | PBool b => Ret (PInt (Z.b2z b + 1))
  | PFloat q =>
      Ret (PFloat (Py.float_round (QArith_base.Qplus q (QArith_base.Qmake 1 1))))
  | _ => Raise (TypeError "unsupported operand type(s) for +=")
  end.

Definition increment (self : t) (now : string) : exc t :=
  n ← add_one (message_count self);
  Ret (mk (chat_id self) (session_id self) n (created_at self) (PStr now)).

(** [data[k]]. *)
Definition getitem (data : pyval) (k : string) : exc pyval :=
  match data with
  | PDict d =>
      match Py.assoc k d with
      | Some v => Ret v
      | None => Raise (KeyError k)
      end
  | _ => Raise (TypeError "indices must be integers or object is not subscriptable")
  end.

Definition from_dict (data : pyval) (now : string) : exc t :=
  c ← getitem data "chat_id";
  sid ← getitem data "session_id";
  n ← Py.get data "message_count" (PInt 0);
  created ← Py.get data "created_at" (PStr now);
  used ← Py.get data "last_used" (PStr now);
  Ret (mk c sid n created used).

Definition to_dict (self : t) : pyval :=
  PDict [("chat_id", chat_id self); ("session_id", session_id self);
         ("message_count", message_count self); ("created_at", created_at self);
         ("last_used", last_used self)].

End ClaudeSession.

(** What the daemon does to the outside world, in the order it does it.
    Of the logging calls only the warning of [load_sessions] is kept. *)
Inductive event : Type :=
| EvSpawn (cmd : list pyval)
| EvKill
| EvWriteSessions (path : string) (table : gmap Z ClaudeSession.t)
| EvLogWarning (msg : string)
| EvCancelTask (tid : nat)
| EvDisconnect
| EvSendMessage (chat_id : Z) (text : pyval) (reply_to : option Z).

(** Projections of the effect log. *)
Module Log.

Definition is_spawn (e : event) : bool :=
  match e with EvSpawn _ => true | _ => false end.

Definition is_write (e : event) : bool :=
  match e with EvWriteSessions _ _ => true | _ => false end.

Definition is_send (e : event) : bool :=
  match e with EvSendMessage _ _ _ => true | _ => false end.

(** The subprocesses started, the writes of the sessions file and the
    chat messages sent, each in order. *)
Definition spawns (l : list event) : list event := filter (λ e, is_spawn e = true) l.
Definition writes (l : list event) : list event := filter (λ e, is_write e = true) l.
Definition sends (l : list event) : list event := filter (λ e, is_send e = true) l.

End Log.

(** What running the assistant turned out to do. *)
Inductive proc_outcome : Type :=
| SpawnFailed (e : exn)
| TimedOut
| Exited (returncode : Z) (stdout : string) (stdout_json : loads_result)
    (stderr : string).

(** What writing the sessions file turns out to do: [mkdir] and
    [write_text] go through, or one of them raises [OSError]. *)
Inductive write_outcome : Type :=
| Written
| WriteFailed (msg : string).

Module ClaudeBridge.

Record t : Type := mk {
  config : ClaudeConfig.t;
  sessions_file : option string;
  sessions : gmap Z ClaudeSession.t;
  max_concurrent : Z;
  max_queue_size : Z;
  _semaphore : Z;
  _queue_size : Z;
}.

(** [ClaudeBridge(config, sessions_file, max_concurrent, max_queue_size)]. *)
Definition init (c : ClaudeConfig.t) (file : option string)
    (max_concurrent max_queue_size : Z) : t :=
  mk c file ∅ max_concurrent max_queue_size max_concurrent 0.

Definition set_sessions (self : t) (m : gmap Z ClaudeSession.t) : t :=
  mk (config self) (sessions_file self) m (max_concurrent self)
     (max_queue_size self) (_semaphore self) (_queue_size self).

Definition set_counters (self : t) (sem queue : Z) : t :=
  mk (config self) (sessions_file self) (sessions self) (max_concurrent self)
     (max_queue_size self) sem queue.

(** The loop of [load_sessions] over [data.items()]; the table built so
    far stays when an entry raises. *)
Fixpoint load_items (items : list (string * pyval)) (now : string)
    (table : gmap Z ClaudeSession.t) : gmap Z ClaudeSession.t * exc unit :=
  match items with
  | [] => (table, Ret ())
  | (key, session_data) :: rest =>
      match PyInt.of_str key with
      | Raise e => (table, Raise e)
      | Ret chat_id =>
          match ClaudeSession.from_dict session_data now with
          | Raise e => (table, Raise e)
          | Ret s => load_items rest now (<[chat_id := s]> table)
          end
      end
  end.

(** [load_sessions()]. [file] is the sessions file: [None] when it does
    not exist, otherwise what [json.loads] makes of its text. *)
Definition load_sessions (self : t) (file : option loads_result) (now : string)
    : t * list event * exc unit :=
  match sessions_file self, file with
  | None, _ | _, None => (self, [], Ret ())
  | Some path, Some loaded =>
      let warn e :=
        EvLogWarning ("Failed to load sessions from " +:+ path +:+ ": " +:+ exn_str e) in
      match loaded with
      | LoadsError m => (self, [warn (JSONDecodeError m)], Ret ())
      | Loaded (PDict items) =>
          match load_items items now (sessions self) with
          | (table, Ret _) => (set_sessions self table, [], Ret ())
          | (table, Raise (KeyError k)) =>
              (set_sessions self table, [warn (KeyError k)], Ret ())
          | (table, Raise e) => (set_sessions self table, [], Raise e)
          end
      | Loaded _ => (self, [], Raise (AttributeError "items"))
      end
  end.

(** [save_sessions()]: nothing without a sessions file; otherwise the
    file is rewritten with the whole table, unless the disk refuses. *)
Definition save_sessions (self : t) (disk : write_outcome) : exc (list event) :=
  match sessions_file self with
  | None => Ret []
  | Some path =>
      match disk with
      | Written => Ret [EvWriteSessions path (sessions self)]
      | WriteFailed msg => Raise (OSError msg)
      end
  end.

(** The [data] that [save_sessions] hands to [json.dumps]. *)
Definition save_data (self : t) : pyval :=
  PDict ((λ e : Z * ClaudeSession.t, (pretty e.1, ClaudeSession.to_dict e.2))
         <$> map_to_list (sessions self)).

Definition clear_session (self : t) (chat_id : Z) : t :=
  set_sessions self (delete chat_id (sessions self)).

(** The command line [_execute] builds. *)
Definition _execute_cmd (self : t) (prompt : string) (chat_id : Z)
    (system_prompt : option string) : list pyval :=
  [PStr "claude"; PStr "-p"; PStr prompt; PStr "--output-format"; PStr "json"]
  ++ (match system_prompt with
      | Some sp => if PyStr.truthy sp then [PStr "--system-prompt"; PStr sp] else []
      | None => []
      end)
  ++ (match sessions self !! chat_id with
      | Some session =>
          if negb (PyStr.opt_truthy system_prompt)
          then [PStr "--resume"; ClaudeSession.session_id session]
          else []
      | None => []
      end)
  ++ (PStr <$> ClaudeConfig.build_cli_args (config self)).

Definition unexpected (e : exn) : ClaudeResponse.t :=
  ClaudeResponse.failure (PStr ("Unexpected error: " +:+ exn_str e)) None.

Definition cli_failed (m : string) : ClaudeResponse.t :=
  ClaudeResponse.failure (PStr ("Failed to execute Claude CLI: " +:+ m)) None.

(** The end of the session tracking of [_execute]: the table has been
    updated, [save_sessions] runs inside the [try], and [response] is
    returned if it did not raise. *)
Definition save_then_return (self : t) (response : ClaudeResponse.t)
    (disk : write_outcome) : t * ClaudeResponse.t * list event :=
  match save_sessions self disk with
  | Ret evs => (self, response, evs)
  | Raise (OSError m) => (self, cli_failed m, [])
  | Raise e => (self, unexpected e, [])
  end.

(** [_execute] from the moment the subprocess has been asked for: what it
    does with the outcome. [now] and [later] are the first two readings of
    the clock. *)
Definition _execute_finish (self : t) (chat_id : Z) (outcome : proc_outcome)
    (disk : write_outcome) (now later : string)
    : t * ClaudeResponse.t * list event :=
  match outcome with
  | SpawnFailed (OSError m) => (self, cli_failed m, [])
  | SpawnFailed e => (self, unexpected e, [])
  | TimedOut =>
      (self, ClaudeResponse.failure
               (PStr ("Timeout after " +:+ pretty (ClaudeConfig.timeout (config self)) +:+ "s"))
               None, [EvKill])
  | Exited returncode stdout stdout_json stderr =>
      if negb (returncode =? 0) then
        (self, ClaudeResponse.failure
                 (PStr ("Claude exited with code " +:+ pretty returncode +:+ ": " +:+ stderr))
                 None, [])
      else
        match ClaudeResponse.parse stdout stdout_json with
        | Raise e => (self, unexpected e, [])
        | Ret response =>
            if ClaudeResponse.success response
               && Py.truthy (ClaudeResponse.session_id response)
            then
              match sessions self !! chat_id with
              | Some s =>
                  let s1 := ClaudeSession.mk (ClaudeSession.chat_id s)
                              (ClaudeResponse.session_id response)
                              (ClaudeSession.message_count s)
                              (ClaudeSession.created_at s)
                              (ClaudeSession.last_used s) in
                  match ClaudeSession.increment s1 now with
                  | Raise e =>
                      (set_sessions self (<[chat_id := s1]> (sessions self)),
                       unexpected e, [])
                  | Ret s2 =>
                      save_then_return
                        (set_sessions self (<[chat_id := s2]> (sessions self)))
                        response disk
                  end
              | None =>
                  let s := ClaudeSession.new chat_id
                             (ClaudeResponse.session_id response) now later in
                  save_then_return
                    (set_sessions self (<[chat_id := s]> (sessions self)))
                    response disk
              end
            else (self, response, [])
        end
  end.

(** [_execute(prompt, chat_id, system_prompt)], run to its end without
    another call touching the bridge in between. *)
Definition _execute (self : t) (prompt : string) (chat_id : Z)
    (system_prompt : option string) (outcome : proc_outcome)
    (disk : write_outcome) (now later : string)
    : t * ClaudeResponse.t * list event :=
  let '(self', response, evs) :=
    _execute_finish self chat_id outcome disk now later in
  (self', response, EvSpawn (_execute_cmd self prompt chat_id system_prompt) :: evs).

Definition queue_full : ClaudeResponse.t :=
  ClaudeResponse.failure
    (PStr "Queue is full - too many pending requests. Please try again later.")
    None.

(** Where a [send] coroutine stands. *)
Inductive call : Type :=
| AwaitSemaphore (prompt : string) (chat_id : Z) (system_prompt : option string)
| AwaitProcess (prompt : string) (chat_id : Z) (system_prompt : option string)
| Returned (response : ClaudeResponse.t).

(** [async with self._semaphore] once a permit is free, up to the point
    where [_execute] waits for the subprocess. *)
Definition send_acquire (self : t) (prompt : string) (chat_id : Z)
    (system_prompt : option string) : t * call * list event :=
  (set_counters self (_semaphore self - 1) (_queue_size self),
   AwaitProcess prompt chat_id system_prompt,
   [EvSpawn (_execute_cmd self prompt chat_id system_prompt)]).

(** [send] from its call to its first suspension, or to its return when
    the queue is full. *)
Definition send_enter (self : t) (prompt : string) (chat_id : Z)
    (system_prompt : option string) : t * call * list event :=
  if _queue_size self >=? max_queue_size self then
    (self, Returned queue_full, [])
  else
    let self1 := set_counters self (_semaphore self) (_queue_size self + 1) in
    if 0 <? _semaphore self1
    then send_acquire self1 prompt chat_id system_prompt
    else (self1, AwaitSemaphore prompt chat_id system_prompt, []).

(** A waiting [send] is woken when a permit is free. *)
Definition send_resume (self : t) (c : call) : t * call * list event :=
  match c with
  | AwaitSemaphore prompt chat_id system_prompt =>
      if 0 <? _semaphore self
      then send_acquire self prompt chat_id system_prompt
      else (self, c, [])
  | _ => (self, c, [])
  end.

(** The subprocess is over: the rest of [_execute], the release of the
    permit and the [finally] clause of [send]. *)
Definition send_complete (self : t) (c : call) (outcome : proc_outcome)
    (disk : write_outcome) (now later : string) : t * call * list event :=
  match c with
  | AwaitProcess prompt chat_id system_prompt =>
      let '(self1, response, evs) :=
        _execute_finish self chat_id outcome disk now later in
      (set_counters self1 (_semaphore self1 + 1) (_queue_size self1 - 1),
       Returned response, evs)
  | _ => (self, c, [])
  end.

(** A whole [send] that no other call is interleaved with: it returns at
    once when the queue is full, runs to its return when a permit is free,
    and otherwise stays suspended at the semaphore, since nobody is there
    to release a permit. *)
Definition send (self : t) (prompt : string) (chat_id : Z)
    (system_prompt : option string) (outcome : proc_outcome)
    (disk : write_outcome) (now later : string) : t * call * list event :=
  let '(self1, c1, evs1) := send_enter self prompt chat_id system_prompt in
  let '(self2, c2, evs2) := send_complete self1 c1 outcome disk now later in
  (self2, c2, (evs1 ++ evs2)%list).

End ClaudeBridge.

(** ** daemon/handlers.py: debounce *)

Module DebouncedMessage.

Record t : Type := mk {
  chat_id : Z;
  trigger : TriggerConfig.t;
  message_text : string;
  captured_text : option string;
  message_id : option Z;
  last_update : Z;
  task : option nat;
}.

End DebouncedMessage.

Module DebounceManager.

Abbreviation key := (Z * string)%type.

(** Where a [_wait_and_execute(key, callback)] task stands. [Sleeping]
    holds the locals of the coroutine: the [pending] object it fetched,
    [debounce_secs], and the time at which its [asyncio.sleep] ends. *)
Inductive task_state : Type :=
| Created (k : key)
| Sleeping (k : key) (pending : nat) (debounce_secs : Z) (wake : Z)
| CancelRequested
| Finished.

(** The manager and the runtime around it: [_pending] maps a key to the
    address of its [DebouncedMessage] object, [heap] is the object store,
    [tasks] the table of the event loop, [now] the clock read by
    [time.time()], and [fired] the objects handed to the callback, as they
    were when it was called. *)
Record t : Type := mk {
  _pending : gmap key nat;
  heap : gmap nat DebouncedMessage.t;
  next_loc : nat;
  tasks : gmap nat task_state;
  next_task : nat;
  now : Z;
  fired : list DebouncedMessage.t;
}.

(** [DebounceManager()] at time [t0]. *)
Definition init (t0 : Z) : t := mk ∅ ∅ 0 ∅ 0 t0 [].

Definition _key (chat_id : Z) (trigger : TriggerConfig.t) : key :=
  (chat_id, TriggerConfig.pattern trigger).

(** [task.done()]. *)
Definition done (tasks : gmap nat task_state) (tid : nat) : bool :=
  match tasks !! tid with
  | Some Finished => true
  | _ => false
  end.

(** [if pending.task and not pending.task.done(): pending.task.cancel()];
    the boolean tells whether [cancel()] was called. *)
Definition cancel_task (tasks : gmap nat task_state) (task : option nat)
    : gmap nat task_state * bool :=
  match task with
  | Some tid =>
      if done tasks tid then (tasks, false)
      else (<[tid := CancelRequested]> tasks, true)
  | None => (tasks, false)
  end.

Definition schedule (self : t) (chat_id : Z) (trigger : TriggerConfig.t)
    (message_text : string) (captured_text : option string)
    (message_id : option Z) : bool * t :=
  let k := _key chat_id trigger in
  match _pending self !! k with
  | Some p =>
      match heap self !! p with
      | Some pending =>
          let tasks1 := (cancel_task (tasks self) (DebouncedMessage.task pending)).1 in
          let tid := next_task self in
          let pending' :=
            DebouncedMessage.mk (DebouncedMessage.chat_id pending)
              (DebouncedMessage.trigger pending)
              message_text captured_text message_id (now self) (Some tid) in
          (false,
           mk (_pending self) (<[p := pending']> (heap self)) (next_loc self)
              (<[tid := Created k]> tasks1) (S tid) (now self) (fired self))
      | None => (false, self)
      end
  | None =>
      let p := next_loc self in
      let tid := next_task self in
      let pending :=
        DebouncedMessage.mk chat_id trigger message_text captured_text
          message_id (now self) (Some tid) in
      (true,
       mk (<[k := p]> (_pending self)) (<[p := pending]> (heap self)) (S p)
          (<[tid := Created k]> (tasks self)) (S tid) (now self) (fired self))
  end.

Definition set_task (self : t) (tid : nat) (st : task_state) : t :=
  mk (_pending self) (heap self) (next_loc self) (<[tid := st]> (tasks self))
     (next_task self) (now self) (fired self).

(** The end of [_wait_and_execute]: the entry is removed and the callback
    is called with the object the task holds. *)
Definition fire (self : t) (tid : nat) (k : key) (p : nat) : t :=
  match _pending self !! k, heap self !! p with
  | Some _, Some pending =>
      mk (delete k (_pending self)) (heap self) (next_loc self)
         (<[tid := Finished]> (tasks self)) (next_task self) (now self)
         (fired self ++ [pending])
  | _, _ => set_task self tid Finished
  end.

(** One turn of the [while True] loop of [_wait_and_execute]. *)
Definition wait_loop (self : t) (tid : nat) (k : key) (p : nat)
    (debounce_secs : Z) : t :=
  match heap self !! p with
  | Some pending =>
      let elapsed := now self - DebouncedMessage.last_update pending in
      let remaining := debounce_secs - elapsed in
      if remaining <=? 0 then fire self tid k p
      else set_task self tid (Sleeping k p debounce_secs (now self + remaining))
  | None => set_task self tid Finished
  end.

(** The event loop resumes task [tid]: a new task enters
    [_wait_and_execute], a sleeping one whose sleep is over goes round the
    loop again, one whose cancellation was asked for ends without going
    further. *)
Definition run_task (self : t) (tid : nat) : t :=
  match tasks self !! tid with
  | Some (Created k) =>
      match _pending self !! k with
      | Some p =>
          match heap self !! p with
          | Some pending =>
              wait_loop self tid k p
                (TriggerConfig.debounce_seconds (DebouncedMessage.trigger pending))
          | None => set_task self tid Finished
          end
      | None => set_task self tid Finished
      end
  | Some (Sleeping k p debounce_secs wake) =>
      if now self <? wake then self else wait_loop self tid k p debounce_secs
  | Some CancelRequested => set_task self tid Finished
  | Some Finished | None => self
  end.

Definition cancel (self : t) (chat_id : Z) (trigger : TriggerConfig.t) : bool * t :=
  let k := _key chat_id trigger in
  match _pending self !! k with
  | Some p =>
      let tasks1 :=
        match heap self !! p with
        | Some pending => (cancel_task (tasks self) (DebouncedMessage.task pending)).1
        | None => tasks self
        end in
      (true,
       mk (delete k (_pending self)) (heap self) (next_loc self) tasks1
          (next_task self) (now self) (fired self))
  | None => (false, self)
  end.

(** The loop of [cancel_all] over [self._pending.values()]: the task
    table, and the tasks [cancel()] was called on, in order. *)
Fixpoint cancel_values (h : gmap nat DebouncedMessage.t) (values : list nat)
    (tasks : gmap nat task_state) : gmap nat task_state * list nat :=
  match values with
  | [] => (tasks, [])
  | p :: rest =>
      match h !! p with
      | Some pending =>
          let '(tasks1, called) := cancel_task tasks (DebouncedMessage.task pending) in
          let '(tasks2, cancelled) := cancel_values h rest tasks1 in
          (tasks2,
           match DebouncedMessage.task pending, called with
           | Some tid, true => tid :: cancelled
           | _, _ => cancelled
           end)
      | None => cancel_values h rest tasks
      end
  end.

(** [cancel_all()]: the count it returns, the manager afterwards, and the
    tasks it cancelled. *)
Definition cancel_all (self : t) : Z * t * list nat :=
  let '(tasks1, cancelled) :=
    cancel_values (heap self) (snd <$> map_to_list (_pending self)) (tasks self) in
  (Z.of_nat (length cancelled),
   mk ∅ (heap self) (next_loc self) tasks1 (next_task self) (now self) (fired self),
   cancelled).

(** What happens to the manager while the daemon runs. *)
Inductive label : Type :=
| Tick (dt : N)
| Run (tid : nat)
| Schedule (chat_id : Z) (trigger : TriggerConfig.t) (message_text : string)
    (captured_text : option string) (message_id : option Z).

Definition tick (self : t) (dt : N) : t :=
  mk (_pending self) (heap self) (next_loc self) (tasks self) (next_task self)
     (now self + Z.of_N dt) (fired self).

Definition step (self : t) (l : label) : t :=
  match l with
  | Tick dt => tick self dt
  | Run tid => run_task self tid
  | Schedule c tr m cap mid => (schedule self c tr m cap mid).2
  end.

Definition exec (self : t) (ls : list label) : t := foldl step self ls.

End DebounceManager.

(** ** daemon/runner.py *)

Module Daemon.

Record t : Type := mk {
  _client : bool;     (* whether [self._client] is set *)
  _running : bool;
  _bridge : option ClaudeBridge.t;
  _debounce : DebounceManager.t;
}.

(** [stop()]: the daemon afterwards, what it did, in order, and whether
    it returned or let the exception of [save_sessions] through. *)
Definition stop (self : t) (disk : write_outcome) : t * list event * exc unit :=
  let '(cancelled, debounce', tids) := DebounceManager.cancel_all (_debounce self) in
  let before := ((EvCancelTask <$> tids)
                 ++ (if _client self then [EvDisconnect] else []))%list in
  let self' := mk (_client self) false (_bridge self) debounce' in
  match _bridge self with
  | Some bridge =>
      match ClaudeBridge.save_sessions bridge disk with
      | Ret evs => (self', (before ++ evs)%list, Ret ())
      | Raise e => (self', before, Raise e)
      end
  | None => (self', before, Ret ())
  end.

(** [result.response.strip().upper() == "SKIP"]. *)
Definition is_skip (text : string) : bool :=
  String.eqb (PyStr.upper (PyStr.strip text)) "SKIP".

(** The part of [_execute_action] after the handler has returned. *)
Definition send_response (self : t) (chat_id : Z) (result : ActionResult.t)
    : exc (list event) :=
  if ActionResult.should_reply result && Py.truthy (ActionResult.response result) then
    match ActionResult.response result with
    | PStr text =>
        if is_skip text then Ret []
        else if _client self then
          Ret [EvSendMessage chat_id (ActionResult.response result)
                 (ActionResult.reply_to_message_id result)]
        else Raise (AttributeError "send_message")
    | _ => Raise (AttributeError "strip")
    end
  else Ret [].

Definition _execute_action (self : t) (send : MessageHandler.bridge_send)
    (trigger : TriggerConfig.t) (chat_id : Z) (message_text : string)
    (captured_text : option string) (message_id : option Z) : exc (list event) :=
  send_response self chat_id
    (MessageHandler.handle send trigger chat_id message_text captured_text message_id).

Definition _execute_debounced (self : t) (send : MessageHandler.bridge_send)
    (pending : DebouncedMessage.t) : exc (list event) :=
  _execute_action self send (DebouncedMessage.trigger pending)
    (DebouncedMessage.chat_id pending) (DebouncedMessage.message_text pending)
    (DebouncedMessage.captured_text pending) (DebouncedMessage.message_id pending).

(** What [_handle_message] reads of a [NewMessage] event: the attributes
    of the chat ([None] when the attribute is missing or [None]), the chat
    id of the event, the text and the id of the message. *)
Record NewMessage : Type := mkNewMessage {
  chat_title : option string;
  chat_username : option string;
  chat_ident : Z;
  event_chat_id : Z;
  message_text : option string;
  message_ident : Z;
}.

(** The name under which the chat is routed. *)
Definition event_chat_name (ev : NewMessage) : string :=
  if PyStr.opt_truthy (chat_username ev) then
    "@" +:+ default EmptyString (chat_username ev)
  else if PyStr.opt_truthy (chat_title ev) then default EmptyString (chat_title ev)
  else pretty (chat_ident ev).

(** [event.message.text or ""]. *)
Definition event_text (ev : NewMessage) : string :=
  match message_text ev with
  | Some s => s
  | None => EmptyString
  end.

Section Regex.
Variable re_match : string → string → option ReMatch.

(** [_handle_message(event)], for a daemon whose router holds [triggers]
    and whose handler sends through [send]: the daemon's own attributes
    afterwards and the chat messages it sent. An exception of the action
    is logged and goes no further. [_handle_message] assigns none of the
    attributes but works on the debounce manager; what a call of [send]
    does inside the bridge it belongs to (the daemon's own one after
    [start]) is [ClaudeBridge.send]'s and is not followed here. *)
Definition _handle_message (self : t) (triggers : list TriggerConfig.t)
    (send : MessageHandler.bridge_send) (ev : NewMessage) : t * list event :=
  match EventRouter.match_ re_match triggers (event_chat_name ev) (event_text ev) with
  | None => (self, [])
  | Some m =>
      if 0 <? TriggerConfig.debounce_seconds (rm_trigger m) then
        (mk (_client self) (_running self) (_bridge self)
            (DebounceManager.schedule (_debounce self) (event_chat_id ev) (rm_trigger m)
               (event_text ev) (rm_captured_text m) (Some (message_ident ev))).2,
         [])
      else
        match _execute_action self send (rm_trigger m) (event_chat_id ev)
                (event_text ev) (rm_captured_text m) (Some (message_ident ev)) with
        | Ret evs => (self, evs)
        | Raise _ => (self, [])
        end
  end.

End Regex.

End Daemon.

(** ** Vocabulary for the debounce manager *)

Module Debounce.

Import DebounceManager.

(** The content of an incoming message, as [schedule] receives it. *)
Record message : Type := mkMessage {
  text : string;
  captured : option string;
  mid : option Z;
}.

Definition content (o : DebouncedMessage.t) : message :=
  mkMessage (DebouncedMessage.message_text o) (DebouncedMessage.captured_text o)
    (DebouncedMessage.message_id o).

(** The key under which an object was filed. *)
Definition key_of (o : DebouncedMessage.t) : key :=
  _key (DebouncedMessage.chat_id o) (DebouncedMessage.trigger o).

(** The callback invocations for one key, oldest first. *)
Definition fired_for (k : key) (s : t) : list DebouncedMessage.t :=
  filter (λ o, key_of o = k) (fired s).

(** The key a task works for, while the task can still reach the
    callback. *)
Definition task_key (st : task_state) : option key :=
  match st with
  | Created k | Sleeping k _ _ _ => Some k
  | CancelRequested | Finished => None
  end.

(** A step that is not a [schedule] call for key [k]. *)
Definition quiet (k : key) (l : label) : Prop :=
  match l with
  | Schedule c tr _ _ _ => _key c tr ≠ k
  | Tick _ | Run _ => True
  end.

(** A step of the event loop alone: time passing or a task resumed. *)
Definition timer_only (l : label) : Prop :=
  match l with
  | Schedule _ _ _ _ _ => False
  | Tick _ | Run _ => True
  end.

(** The time that passes during a list of steps. *)
Definition ticks (ls : list label) : Z :=
  foldr (λ l acc, match l with Tick dt => Z.of_N dt + acc | _ => acc end) 0 ls.

(** A burst for one (chat, rule): each message is scheduled and followed
    by what else happens before the next one. The booleans are what the
    [schedule] calls returned. *)
Fixpoint run_burst (s : t) (chat_id : Z) (trigger : TriggerConfig.t)
    (ms : list (message * list label)) : t * list bool :=
  match ms with
  | [] => (s, [])
  | (m, env) :: ms' =>
      let '(r, s1) := schedule s chat_id trigger (text m) (captured m) (mid m) in
      let '(s2, rs) := run_burst (exec s1 env) chat_id trigger ms' in
      (s2, r :: rs)
  end.

(** How many of the [schedule] calls among the steps [ls], run from [s],
    returned [True]. *)
Fixpoint new_bursts (s : t) (ls : list label) : nat :=
  match ls with
  | [] => 0%nat
  | l :: ls' =>
      (match l with
       | Schedule c tr m cap mid =>
           if (schedule s c tr m cap mid).1 then 1%nat else 0%nat
       | Tick _ | Run _ => 0%nat
       end + new_bursts (step s l) ls')%nat
  end.

(** The states the manager can be in: every entry of [_pending] points to
    an object filed under that key whose task is known to the loop; every
    task that can still reach the callback is the task of the entry of its
    key, and a sleeping one holds that entry's object and wakes when its
    window ends. *)
Record wf (s : t) : Prop := mkWf {
  wf_pending : ∀ k p, _pending s !! k = Some p →
    ∃ o tid, heap s !! p = Some o ∧ key_of o = k
             ∧ DebouncedMessage.task o = Some tid ∧ (tid < next_task s)%nat;
  wf_heap : ∀ p, is_Some (heap s !! p) → (p < next_loc s)%nat;
  wf_tasks : ∀ tid, is_Some (tasks s !! tid) → (tid < next_task s)%nat;
  wf_live : ∀ tid st k, tasks s !! tid = Some st → task_key st = Some k →
    ∃ p o, _pending s !! k = Some p ∧ heap s !! p = Some o
           ∧ DebouncedMessage.task o = Some tid
           ∧ match st with
             | Sleeping _ p' d w =>
                 p' = p
                 ∧ d = TriggerConfig.debounce_seconds (DebouncedMessage.trigger o)
                 ∧ w = DebouncedMessage.last_update o + d
             | _ => True
             end;
  wf_owner : ∀ k p o tid st k', _pending s !! k = Some p → heap s !! p = Some o →
    DebouncedMessage.task o = Some tid → tasks s !! tid = Some st →
    task_key st = Some k' → k' = k;
}.

(** A task that will not reach the callback: its cancellation was asked
    for, or it is over. *)
Definition halted (tasks : gmap nat task_state) (tid : nat) : Prop :=
  tasks !! tid = Some CancelRequested ∨ tasks !! tid = Some Finished.

(** Entry [k] holds object [o], whose timer task [tid] has not fired. *)
Definition waiting (s : t) (k : key) (o : DebouncedMessage.t) (tid : nat) : Prop :=
  ∃ p st, _pending s !! k = Some p ∧ heap s !! p = Some o
          ∧ DebouncedMessage.task o = Some tid
          ∧ tasks s !! tid = Some st ∧ task_key st = Some k.

(** What a burst whose last message is [m] has come to in state [s], given
    the callback invocations [base] for the key before the burst: either
    the entry is still pending, holds [m], has not fired, and fires as soon
    as its task is resumed with the window over; or it is gone and the
    callback was called exactly once more, with [m]. *)
Definition coalesced (k : key) (chat_id : Z) (trigger : TriggerConfig.t)
    (m : message) (base : list DebouncedMessage.t) (s : t) : Prop :=
  match _pending s !! k with
  | Some p =>
      ∃ o tid,
        heap s !! p = Some o ∧ DebouncedMessage.task o = Some tid
        ∧ content o = m ∧ DebouncedMessage.trigger o = trigger
        ∧ DebouncedMessage.chat_id o = chat_id
        ∧ fired_for k s = base
        ∧ (DebouncedMessage.last_update o + TriggerConfig.debounce_seconds trigger
           ≤ now s →
           _pending (run_task s tid) !! k = None
           ∧ fired_for k (run_task s tid) = base ++ [o])
  | None =>
      ∃ o, fired_for k s = base ++ [o] ∧ content o = m
           ∧ DebouncedMessage.trigger o = trigger
           ∧ DebouncedMessage.chat_id o = chat_id
  end.

End Debounce.

(** ** The bridge under concurrent callers *)

(** Several [send] coroutines share one bridge. The event loop runs one of
    them at a time, from one suspension point to the next. *)
Module BridgeLoop.

Record t : Type := mk {
  bridge : ClaudeBridge.t;
  calls : list ClaudeBridge.call;
  log : list event;
}.

Inductive action : Type :=
| Enter (prompt : string) (chat_id : Z) (system_prompt : option string)
| Resume (i : nat)
| Complete (i : nat) (outcome : proc_outcome) (disk : write_outcome)
    (now later : string).

Definition start (b : ClaudeBridge.t) : t := mk b [] [].

Definition step (s : t) (a : action) : t :=
  match a with
  | Enter prompt chat_id system_prompt =>
      let '(b, c, evs) := ClaudeBridge.send_enter (bridge s) prompt chat_id system_prompt in
      mk b (calls s ++ [c]) (log s ++ evs)
  | Resume i =>
      match calls s !! i with
      | Some c =>
          let '(b, c', evs) := ClaudeBridge.send_resume (bridge s) c in
          mk b (<[i := c']> (calls s)) (log s ++ evs)
      | None => s
      end
  | Complete i outcome disk now later =>
      match calls s !! i with
      | Some c =>
          let '(b, c', evs) :=
            ClaudeBridge.send_complete (bridge s) c outcome disk now later in
          mk b (<[i := c']> (calls s)) (log s ++ evs)
      | None => s
      end
  end.

Definition run (s : t) (acts : list action) : t := foldl step s acts.

(** A call that has been admitted and has not returned yet. *)
Definition in_flight (c : ClaudeBridge.call) : bool :=
  match c with
  | ClaudeBridge.Returned _ => false
  | _ => true
  end.

(** The number of admitted calls: those waiting for a permit and those
    waiting for their subprocess. *)
Definition admitted (s : t) : Z :=
  Z.of_nat (length (filter (λ c, in_flight c = true) (calls s))).

(** A call whose subprocess is running: it holds a permit. *)
Definition is_running (c : ClaudeBridge.call) : bool :=
  match c with
  | ClaudeBridge.AwaitProcess _ _ _ => true
  | _ => false
  end.

Definition running (s : t) : Z :=
  Z.of_nat (length (filter (λ c, is_running c = true) (calls s))).

End BridgeLoop.

(** * Properties *)

(** ** Event router *)

Section Router.
Variable re_match : string → string → option ReMatch.

Lemma matches_chat_spec (t : TriggerConfig.t) (chat_name : string) :
  TriggerConfig.matches_chat t chat_name = true
  ↔ TriggerConfig.chat t = "*"
    ∨ PyStr.lower (TriggerConfig.chat t) = PyStr.lower chat_name.
Proof.
  unfold TriggerConfig.matches_chat.
  destruct (String.eqb_spec (TriggerConfig.chat t) "*") as [-> | Hne].
  - split; auto.
  - rewrite String.eqb_eq. split; [auto | intros [? | ?]; [contradiction | done]].
Qed.

Lemma match_skip (t : TriggerConfig.t) (ts : list TriggerConfig.t)
    (chat_name message_text : string) :
  ¬ EventRouter.accepts re_match t chat_name message_text →
  EventRouter.match_ re_match (t :: ts) chat_name message_text
  = EventRouter.match_ re_match ts chat_name message_text.
Proof.
  intros Hno. simpl.
  destruct (TriggerConfig.matches_chat t chat_name) eqn:Hc; simpl; [| done].
  destruct (TriggerConfig.match_message re_match t message_text) eqn:Hm; [| done].
  exfalso. apply Hno. split; [by apply matches_chat_spec |].
  unfold TriggerConfig.match_message in Hm. by rewrite Hm.
Qed.

(** C1. [EventRouter.match] returns the first rule, in declaration order,
    whose chat selector matches (the selector "*" matches every chat name,
    any other selector matches when it equals the chat name up to case)
    and whose pattern matches the text from its start; the captured text
    is group 1 when the pattern has a group and [None] otherwise; when no
    rule accepts the event the result is [None]. *)
Theorem router_match_first_rule (triggers : list TriggerConfig.t)
    (chat_name message_text : string) :
  (∀ t, TriggerConfig.matches_chat t chat_name = true
        ↔ TriggerConfig.chat t = "*"
          ∨ PyStr.lower (TriggerConfig.chat t) = PyStr.lower chat_name)
  ∧ match EventRouter.match_ re_match triggers chat_name message_text with
    | Some r =>
        ∃ before after m,
          triggers = before ++ rm_trigger r :: after
          ∧ (∀ t, t ∈ before → ¬ EventRouter.accepts re_match t chat_name message_text)
          ∧ TriggerConfig.matches_chat (rm_trigger r) chat_name = true
          ∧ re_match (TriggerConfig.pattern (rm_trigger r)) message_text = Some m
          ∧ rm_match_object r = m
          ∧ rm_captured_text r
            = match groups m with
              | [] => None
              | group1 :: _ => group1
              end
    | None => ∀ t, t ∈ triggers → ¬ EventRouter.accepts re_match t chat_name message_text
    end.
Proof.
  split; [intros t; apply matches_chat_spec |].
  induction triggers as [| t ts IH].
  - simpl. intros t Ht. by apply elem_of_nil in Ht.
  - destruct (TriggerConfig.matches_chat t chat_name) eqn:Hc.
    + destruct (re_match (TriggerConfig.pattern t) message_text) as [m |] eqn:Hm.
      * simpl. rewrite Hc. simpl. unfold TriggerConfig.match_message. rewrite Hm.
        exists [], ts, m. simpl. repeat split; try done.
        intros t' Ht'. by apply elem_of_nil in Ht'.
      * assert (Hno : ¬ EventRouter.accepts re_match t chat_name message_text).
        { intros [_ [m' Hm']]. congruence. }
        rewrite (match_skip _ _ _ _ Hno).
        destruct (EventRouter.match_ re_match ts chat_name message_text) as [r |].
        -- destruct IH as (before & after & m & -> & Hbefore & Hrest).
           exists (t :: before), after, m. split; [done |]. split; [| done].
           intros t' [-> | Ht']%elem_of_cons; auto.
        -- intros t' [-> | Ht']%elem_of_cons; auto.
    + assert (Hno : ¬ EventRouter.accepts re_match t chat_name message_text).
      { intros [Hc' _]. apply matches_chat_spec in Hc'. congruence. }
      rewrite (match_skip _ _ _ _ Hno).
      destruct (EventRouter.match_ re_match ts chat_name message_text) as [r |].
      * destruct IH as (before & after & m & -> & Hbefore & Hrest).
        exists (t :: before), after, m. split; [done |]. split; [| done].
        intros t' [-> | Ht']%elem_of_cons; auto.
      * intros t' [-> | Ht']%elem_of_cons; auto.
Qed.

End Router.

(** ** Bridge: admission *)

Lemma in_flight_count_insert (cs : list ClaudeBridge.call) (i : nat)
    (c c' : ClaudeBridge.call) :
  cs !! i = Some c →
  Z.of_nat (length (filter (λ c, BridgeLoop.in_flight c = true) (<[i := c']> cs)))
  = Z.of_nat (length (filter (λ c, BridgeLoop.in_flight c = true) cs))
    - Z.b2z (BridgeLoop.in_flight c) + Z.b2z (BridgeLoop.in_flight c').
Proof.
  revert i. induction cs as [| x cs IH]; intros i Hi; [done |].
  destruct i as [| i]; simpl in *.
  - injection Hi as ->. rewrite !filter_cons.
    destruct (BridgeLoop.in_flight c) eqn:Hc, (BridgeLoop.in_flight c') eqn:Hc';
      repeat case_decide; simpl; try congruence; lia.
  - rewrite !filter_cons. specialize (IH i Hi).
    case_decide; simpl in *; lia.
Qed.

Lemma in_flight_count_snoc (cs : list ClaudeBridge.call) (c : ClaudeBridge.call) :
  Z.of_nat (length (filter (λ c, BridgeLoop.in_flight c = true) (cs ++ [c])))
  = Z.of_nat (length (filter (λ c, BridgeLoop.in_flight c = true) cs))
    + Z.b2z (BridgeLoop.in_flight c).
Proof.
  rewrite filter_app, length_app, filter_cons, filter_nil.
  destruct (BridgeLoop.in_flight c); case_decide; simpl; try congruence; lia.
Qed.

Lemma execute_finish_counters (b : ClaudeBridge.t) (chat_id : Z)
    (outcome : proc_outcome) (disk : write_outcome) (now later : string) :
  let b' := (ClaudeBridge._execute_finish b chat_id outcome disk now later).1.1 in
  ClaudeBridge._queue_size b' = ClaudeBridge._queue_size b
  ∧ ClaudeBridge._semaphore b' = ClaudeBridge._semaphore b
  ∧ ClaudeBridge.max_queue_size b' = ClaudeBridge.max_queue_size b
  ∧ ClaudeBridge.sessions_file b' = ClaudeBridge.sessions_file b
  ∧ ClaudeBridge.config b' = ClaudeBridge.config b.
Proof.
  unfold ClaudeBridge._execute_finish, ClaudeBridge.save_then_return,
    ClaudeBridge.save_sessions.
  repeat (match goal with
          | |- context [match ?x with _ => _ end] => destruct x
          end; simpl; try done).
Qed.

(** The admission counter is the number of admitted calls, whatever the
    interleaving of the callers. *)
Lemma queue_size_counts_admitted (b : ClaudeBridge.t) (acts : list BridgeLoop.action) :
  ClaudeBridge._queue_size b = 0 →
  let s := BridgeLoop.run (BridgeLoop.start b) acts in
  ClaudeBridge._queue_size (BridgeLoop.bridge s) = BridgeLoop.admitted s
  ∧ ClaudeBridge.max_queue_size (BridgeLoop.bridge s) = ClaudeBridge.max_queue_size b.
Proof.
  intros H0. simpl.
  induction acts as [| a acts IH] using rev_ind.
  - simpl. by rewrite H0.
  - unfold BridgeLoop.run in *. rewrite foldl_app. simpl.
    set (s := foldl BridgeLoop.step (BridgeLoop.start b) acts) in *.
    destruct IH as [IHq IHm]. unfold BridgeLoop.admitted in *.
    destruct a as [prompt chat_id sp | i | i outcome disk now later]; simpl.
    + unfold ClaudeBridge.send_enter.
      destruct (ClaudeBridge._queue_size (BridgeLoop.bridge s)
                >=? ClaudeBridge.max_queue_size (BridgeLoop.bridge s)); simpl.
      * rewrite in_flight_count_snoc. simpl. split; [lia | done].
      * destruct (0 <? ClaudeBridge._semaphore (BridgeLoop.bridge s)); simpl;
          rewrite in_flight_count_snoc; simpl; split; (lia || done).
    + destruct (BridgeLoop.calls s !! i) as [c |] eqn:Hc; [| done].
      destruct c as [prompt chat_id sp | prompt chat_id sp | r]; simpl.
      * destruct (0 <? ClaudeBridge._semaphore (BridgeLoop.bridge s)); simpl;
          rewrite (in_flight_count_insert _ _ _ _ Hc); simpl; split; (lia || done).
      * rewrite (in_flight_count_insert _ _ _ _ Hc); simpl; split; (lia || done).
      * rewrite (in_flight_count_insert _ _ _ _ Hc); simpl; split; (lia || done).
    + destruct (BridgeLoop.calls s !! i) as [c |] eqn:Hc; [| done].
      destruct c as [prompt chat_id sp | prompt chat_id sp | r]; simpl.
      * rewrite (in_flight_count_insert _ _ _ _ Hc); simpl; split; (lia || done).
      * pose proof (execute_finish_counters (BridgeLoop.bridge s) chat_id outcome disk
                      now later) as (Hq & _ & Hm & _).
        destruct (ClaudeBridge._execute_finish (BridgeLoop.bridge s) chat_id outcome disk
                    now later) as [[b' r] evs]. simpl in *.
        rewrite (in_flight_count_insert _ _ _ _ Hc); simpl. split; [lia | congruence].
      * rewrite (in_flight_count_insert _ _ _ _ Hc); simpl; split; (lia || done).
Qed.

(** C2. In every state a bridge can reach, [_queue_size] is the number of
    admitted calls (waiting for a permit or for their subprocess). When
    that number is at or above [max_queue_size], a further [send] returns
    at once, without suspending, the failure whose error says that the
    queue is full, starts no subprocess and leaves the bridge as it was;
    below that number the call is admitted. *)
Theorem send_rejects_when_queue_full (cfg : ClaudeConfig.t) (file : option string)
    (max_concurrent max_queue_size : Z) (acts : list BridgeLoop.action)
    (prompt : string) (chat_id : Z) (system_prompt : option string) :
  let s := BridgeLoop.run
             (BridgeLoop.start (ClaudeBridge.init cfg file max_concurrent max_queue_size))
             acts in
  let b := BridgeLoop.bridge s in
  ClaudeBridge._queue_size b = BridgeLoop.admitted s
  ∧ if max_queue_size <=? BridgeLoop.admitted s then
      ClaudeBridge.send_enter b prompt chat_id system_prompt
      = (b, ClaudeBridge.Returned ClaudeBridge.queue_full, [])
      ∧ BridgeLoop.step s (BridgeLoop.Enter prompt chat_id system_prompt)
        = BridgeLoop.mk b
            (BridgeLoop.calls s ++ [ClaudeBridge.Returned ClaudeBridge.queue_full])
            (BridgeLoop.log s ++ [])
      ∧ ClaudeResponse.success ClaudeBridge.queue_full = false
      ∧ ClaudeResponse.error ClaudeBridge.queue_full
        = PStr "Queue is full - too many pending requests. Please try again later."
    else
      ∃ b' c evs,
        ClaudeBridge.send_enter b prompt chat_id system_prompt = (b', c, evs)
        ∧ BridgeLoop.in_flight c = true
        ∧ BridgeLoop.admitted
            (BridgeLoop.step s (BridgeLoop.Enter prompt chat_id system_prompt))
          = BridgeLoop.admitted s + 1.
Proof.
  intros s b.
  destruct (queue_size_counts_admitted
              (ClaudeBridge.init cfg file max_concurrent max_queue_size) acts eq_refl)
    as [Hq Hm].
  fold s in Hq, Hm. fold b in Hq, Hm. simpl in Hm.
  split; [done |].
  destruct (max_queue_size <=? BridgeLoop.admitted s) eqn:Hfull.
  - apply Z.leb_le in Hfull.
    assert (Hge : (ClaudeBridge._queue_size b >=? ClaudeBridge.max_queue_size b) = true).
    { rewrite Z.geb_leb. apply Z.leb_le. lia. }
    assert (Henter : ClaudeBridge.send_enter b prompt chat_id system_prompt
                     = (b, ClaudeBridge.Returned ClaudeBridge.queue_full, [])).
    { unfold ClaudeBridge.send_enter. by rewrite Hge. }
    split; [done |]. split; [| done].
    simpl. fold b. by rewrite Henter.
  - apply Z.leb_gt in Hfull.
    assert (Hge : (ClaudeBridge._queue_size b >=? ClaudeBridge.max_queue_size b) = false).
    { rewrite Z.geb_leb. apply Z.leb_gt. lia. }
    unfold BridgeLoop.admitted, BridgeLoop.step. fold b.
    unfold ClaudeBridge.send_enter. rewrite Hge. simpl.
    destruct (0 <? ClaudeBridge._semaphore b); simpl;
      eexists _, _, _; (split; [reflexivity |]); (split; [done |]);
      rewrite in_flight_count_snoc; simpl; lia.
Qed.

(** ** Bridge: the command line *)

Lemma save_then_return_spawns (b : ClaudeBridge.t) (r : ClaudeResponse.t)
    (disk : write_outcome) :
  Log.spawns (ClaudeBridge.save_then_return b r disk).2 = [].
Proof.
  unfold ClaudeBridge.save_then_return, ClaudeBridge.save_sessions.
  destruct (ClaudeBridge.sessions_file b); [destruct disk |]; done.
Qed.

Lemma save_then_return_inv (b b' : ClaudeBridge.t) (r r' : ClaudeResponse.t)
    (disk : write_outcome) (evs : list event) :
  ClaudeBridge.save_then_return b r disk = (b', r', evs) →
  b' = b ∧ (EvKill ∉ evs) ∧ (ClaudeResponse.success r' = true → r' = r).
Proof.
  unfold ClaudeBridge.save_then_return, ClaudeBridge.save_sessions.
  destruct (ClaudeBridge.sessions_file b); [destruct disk |];
    intros [= <- <- <-]; (split; [done |]); (split; [| done]).
  - intros [? | Hin%elem_of_nil]%elem_of_cons; done.
  - apply not_elem_of_nil.
  - apply not_elem_of_nil.
Qed.

Lemma execute_finish_spawns (b : ClaudeBridge.t) (chat_id : Z) (outcome : proc_outcome)
    (disk : write_outcome) (now later : string) :
  Log.spawns (ClaudeBridge._execute_finish b chat_id outcome disk now later).2 = [].
Proof.
  unfold ClaudeBridge._execute_finish.
  destruct outcome as [e | | rc out loaded err]; [by destruct e | done |].
  destruct (negb (rc =? 0)); [done |].
  destruct (ClaudeResponse.parse out loaded) as [r | e]; [| done].
  destruct (ClaudeResponse.success r && Py.truthy (ClaudeResponse.session_id r)); [| done].
  destruct (ClaudeBridge.sessions b !! chat_id) as [s |].
  - destruct (ClaudeSession.increment _ now); [| done]. apply save_then_return_spawns.
  - apply save_then_return_spawns.
Qed.

(** C4. The command [_execute] starts carries ["--resume"] and the stored
    session token exactly when no system prompt is supplied and the chat
    has a session; with a system prompt it carries ["--system-prompt"] and
    no resume flag, session or not. An empty system prompt counts as none. *)
Theorem execute_resumes_only_without_system_prompt (b : ClaudeBridge.t)
    (prompt : string) (chat_id : Z) (system_prompt : option string)
    (outcome : proc_outcome)
    (disk : write_outcome) (now later : string) :
  let supplied := PyStr.opt_truthy system_prompt in
  let resume :=
    match ClaudeBridge.sessions b !! chat_id with
    | Some session =>
        if supplied then [] else [PStr "--resume"; ClaudeSession.session_id session]
    | None => []
    end in
  let system :=
    match system_prompt with
    | Some sp => if supplied then [PStr "--system-prompt"; PStr sp] else []
    | None => []
    end in
  Log.spawns
    (ClaudeBridge._execute b prompt chat_id system_prompt outcome disk now later).2
  = [EvSpawn ([PStr "claude"; PStr "-p"; PStr prompt; PStr "--output-format"; PStr "json"]
              ++ system ++ resume
              ++ (PStr <$> ClaudeConfig.build_cli_args (ClaudeBridge.config b)))]
  ∧ (resume ≠ [] ↔ supplied = false ∧ is_Some (ClaudeBridge.sessions b !! chat_id))
  ∧ (system ≠ [] ↔ supplied = true).
Proof.
  intros supplied resume system. split; [| split].
  - unfold ClaudeBridge._execute.
    pose proof (execute_finish_spawns b chat_id outcome disk now later) as Hno.
    destruct (ClaudeBridge._execute_finish b chat_id outcome disk now later)
      as [[b' r] evs].
    simpl in *. unfold Log.spawns in *. rewrite filter_cons. simpl. rewrite Hno.
    unfold ClaudeBridge._execute_cmd, resume, system, supplied.
    destruct system_prompt as [sp |]; simpl; [| done].
    by destruct (PyStr.truthy sp).
  - unfold resume. destruct (ClaudeBridge.sessions b !! chat_id) as [session |];
      destruct supplied; split; try done; try (intros [? ?]; done);
      intros [_ [? ?]]; done.
  - unfold system, supplied. destruct system_prompt as [sp |]; simpl.
    + destruct (PyStr.truthy sp); split; done.
    + split; done.
Qed.

(** ** Bridge: session tracking *)

(** What [_execute] does to the table and the sessions file once the
    subprocess is over, for a chat whose stored count is an [int]. *)
Lemma execute_finish_sessions (b : ClaudeBridge.t) (chat_id : Z)
    (outcome : proc_outcome) (disk : write_outcome) (now later : string) :
  (∀ s, ClaudeBridge.sessions b !! chat_id = Some s
        → ∃ n, ClaudeSession.message_count s = PInt n) →
  let '(b', r, evs) := ClaudeBridge._execute_finish b chat_id outcome disk now later in
  if ClaudeResponse.success r && Py.truthy (ClaudeResponse.session_id r) then
    match ClaudeBridge.sessions b !! chat_id with
    | Some s =>
        ∃ n, ClaudeSession.message_count s = PInt n
             ∧ ClaudeBridge.sessions b'
               = <[chat_id := ClaudeSession.mk (ClaudeSession.chat_id s)
                                (ClaudeResponse.session_id r) (PInt (n + 1))
                                (ClaudeSession.created_at s) (PStr now)]>
                   (ClaudeBridge.sessions b)
    | None =>
        ClaudeBridge.sessions b'
        = <[chat_id := ClaudeSession.mk (PInt chat_id) (ClaudeResponse.session_id r)
                         (PInt 0) (PStr now) (PStr later)]>
            (ClaudeBridge.sessions b)
    end
    ∧ Log.writes evs
      = match ClaudeBridge.sessions_file b with
        | Some path => [EvWriteSessions path (ClaudeBridge.sessions b')]
        | None => []
        end
  else
    Log.writes evs = []
    ∧ (disk = Written ∨ ClaudeBridge.sessions_file b = None
       → ClaudeBridge.sessions b' = ClaudeBridge.sessions b).
Proof.
  intros Hint. unfold ClaudeBridge._execute_finish.
  destruct outcome as [e | | rc out loaded err].
  - destruct e; simpl; done.
  - simpl; done.
  - destruct (negb (rc =? 0)); [simpl; done |].
    destruct (ClaudeResponse.parse out loaded) as [r | e]; [| simpl; done].
    destruct (ClaudeResponse.success r && Py.truthy (ClaudeResponse.session_id r))
      eqn:Hok; [| by rewrite Hok].
    unfold ClaudeBridge.save_then_return, ClaudeBridge.save_sessions.
    destruct (ClaudeBridge.sessions b !! chat_id) as [s |] eqn:Hs.
    + destruct (Hint s eq_refl) as [n Hn]. unfold ClaudeSession.increment.
      simpl. rewrite Hn. simpl.
      destruct (ClaudeBridge.sessions_file b) as [path |] eqn:Hfile;
        [destruct disk as [| msg] |]; simpl; rewrite ?Hok, ?Hfile; simpl.
      * split; [by exists n | done].
      * split; [done |]. intros [? | ?]; done.
      * split; [by exists n | done].
    + simpl.
      destruct (ClaudeBridge.sessions_file b) as [path |] eqn:Hfile;
        [destruct disk as [| msg] |]; simpl; rewrite ?Hok, ?Hfile; simpl.
      * done.
      * split; [done |]. intros [? | ?]; done.
      * done.
Qed.

(** With a stored count that is an [int], a subprocess that exits with
    code 0 and whose output [parse] accepts gives that parsed response,
    unless the write of the sessions file fails. *)
Lemma execute_finish_returns_parsed (b : ClaudeBridge.t) (chat_id : Z)
    (out : string) (json : loads_result) (err : string) (resp : ClaudeResponse.t)
    (disk : write_outcome) (now later : string) :
  (∀ s, ClaudeBridge.sessions b !! chat_id = Some s
        → ∃ n, ClaudeSession.message_count s = PInt n) →
  ClaudeResponse.parse out json = Ret resp →
  disk = Written ∨ ClaudeBridge.sessions_file b = None →
  (ClaudeBridge._execute_finish b chat_id (Exited 0 out json err) disk now later).1.2
  = resp.
Proof.
  intros Hint Hparse Hdisk. unfold ClaudeBridge._execute_finish. simpl.
  rewrite Hparse.
  destruct (ClaudeResponse.success resp && Py.truthy (ClaudeResponse.session_id resp));
    [| done].
  unfold ClaudeBridge.save_then_return, ClaudeBridge.save_sessions.
  destruct (ClaudeBridge.sessions b !! chat_id) as [s |] eqn:Hs.
  - destruct (Hint s eq_refl) as [n Hn]. unfold ClaudeSession.increment.
    simpl. rewrite Hn. simpl.
    destruct (ClaudeBridge.sessions_file b); [| done].
    by destruct Hdisk as [-> | ?].
  - simpl. destruct (ClaudeBridge.sessions_file b); [| done].
    by destruct Hdisk as [-> | ?].
Qed.

(** C5, as the code has it. For a chat whose stored count is an [int]:
    when [send] returns a successful response carrying a session token,
    the chat's entry is created (count 0) or updated (token replaced, count
    plus one, [last_used] refreshed) and, if the bridge has a sessions
    file, the whole table is written to it within that call; in every
    other outcome nothing is written, and the table is unchanged unless
    the write of the sessions file itself failed. The call returns
    whenever a permit is free, and then, if it was admitted, the
    subprocess exited with code 0, its output was accepted by [parse] and
    the write did not fail, with the parsed response; a call that finds no
    permit stays suspended and changes neither the table nor the file. *)
Theorem send_tracks_session_on_success (b : ClaudeBridge.t) (prompt : string)
    (chat_id : Z) (system_prompt : option string) (outcome : proc_outcome)
    (disk : write_outcome) (now later : string) :
  (∀ s, ClaudeBridge.sessions b !! chat_id = Some s
        → ∃ n, ClaudeSession.message_count s = PInt n) →
  let '(b', c, evs) :=
    ClaudeBridge.send b prompt chat_id system_prompt outcome disk now later in
  (0 < ClaudeBridge._semaphore b → ∃ r, c = ClaudeBridge.Returned r)
  ∧ (∀ out json err resp,
       ClaudeBridge._queue_size b < ClaudeBridge.max_queue_size b →
       0 < ClaudeBridge._semaphore b →
       outcome = Exited 0 out json err →
       ClaudeResponse.parse out json = Ret resp →
       disk = Written ∨ ClaudeBridge.sessions_file b = None →
       c = ClaudeBridge.Returned resp)
  ∧ match c with
    | ClaudeBridge.Returned r =>
        if ClaudeResponse.success r && Py.truthy (ClaudeResponse.session_id r) then
          match ClaudeBridge.sessions b !! chat_id with
          | Some s =>
              ∃ n, ClaudeSession.message_count s = PInt n
                   ∧ ClaudeBridge.sessions b'
                     = <[chat_id := ClaudeSession.mk (ClaudeSession.chat_id s)
                                      (ClaudeResponse.session_id r) (PInt (n + 1))
                                      (ClaudeSession.created_at s) (PStr now)]>
                         (ClaudeBridge.sessions b)
          | None =>
              ClaudeBridge.sessions b'
              = <[chat_id := ClaudeSession.mk (PInt chat_id)
                               (ClaudeResponse.session_id r)
                               (PInt 0) (PStr now) (PStr later)]>
                  (ClaudeBridge.sessions b)
          end
          ∧ Log.writes evs
            = match ClaudeBridge.sessions_file b with
              | Some path => [EvWriteSessions path (ClaudeBridge.sessions b')]
              | None => []
              end
        else
          Log.writes evs = []
          ∧ (disk = Written ∨ ClaudeBridge.sessions_file b = None
             → ClaudeBridge.sessions b' = ClaudeBridge.sessions b)
    | _ => ClaudeBridge.sessions b' = ClaudeBridge.sessions b ∧ Log.writes evs = []
    end.
Proof.
  intros Hint. unfold ClaudeBridge.send, ClaudeBridge.send_enter.
  destruct (Z.geb_spec (ClaudeBridge._queue_size b) (ClaudeBridge.max_queue_size b))
    as [Hfull | Hroom].
  { simpl. split; [eauto |]. split; [intros; lia | done]. }
  set (b1 := ClaudeBridge.set_counters b _ _).
  destruct (Z.ltb_spec 0 (ClaudeBridge._semaphore b1)) as [Hfree | Hnone].
  - unfold ClaudeBridge.send_acquire, ClaudeBridge.send_complete.
    set (b2 := ClaudeBridge.set_counters b1 _ _).
    pose proof (execute_finish_sessions b2 chat_id outcome disk now later Hint) as Hfin.
    destruct (ClaudeBridge._execute_finish b2 chat_id outcome disk now later)
      as [[b3 r] evs] eqn:Hrun.
    simpl in *. unfold Log.writes in *. rewrite filter_cons. simpl.
    split; [eauto |]. split.
    + intros out json err resp _ _ -> Hparse Hdisk.
      pose proof (execute_finish_returns_parsed b2 chat_id out json err resp disk
                    now later Hint Hparse Hdisk) as Hparsed.
      rewrite Hrun in Hparsed. simpl in Hparsed. by rewrite Hparsed.
    + destruct (ClaudeResponse.success r && Py.truthy (ClaudeResponse.session_id r));
        done.
  - simpl in *. split; [lia |]. split; [intros; lia | done].
Qed.

Lemma send_tracks_session_on_success_witness :
  let old := ClaudeSession.mk (PInt 7) (PStr "s0") (PInt 2) (PStr "t0") (PStr "t1") in
  let b := ClaudeBridge.set_sessions
             (ClaudeBridge.init (ClaudeConfig.mk [] 10 300) (Some "sessions.json") 1 10)
             {[ 7 := old ]} in
  let out := Exited 0 "{...}"
               (Loaded (PDict [("result", PStr "hi"); ("session_id", PStr "s1")]))
               EmptyString in
  (∀ s, ClaudeBridge.sessions b !! 7 = Some s
        → ∃ n, ClaudeSession.message_count s = PInt n)
  ∧ let '(b', c, evs) := ClaudeBridge.send b "hello" 7 None out Written "t2" "t3" in
    (0 < ClaudeBridge._semaphore b → ∃ r, c = ClaudeBridge.Returned r)
    ∧ (∀ out' json err resp,
         ClaudeBridge._queue_size b < ClaudeBridge.max_queue_size b →
         0 < ClaudeBridge._semaphore b →
         out = Exited 0 out' json err →
         ClaudeResponse.parse out' json = Ret resp →
         Written = Written ∨ ClaudeBridge.sessions_file b = None →
         c = ClaudeBridge.Returned resp)
    ∧ match c with
    | ClaudeBridge.Returned r =>
        if ClaudeResponse.success r && Py.truthy (ClaudeResponse.session_id r) then
          match ClaudeBridge.sessions b !! 7 with
          | Some s =>
              ∃ n, ClaudeSession.message_count s = PInt n
                   ∧ ClaudeBridge.sessions b'
                     = <[7 := ClaudeSession.mk (ClaudeSession.chat_id s)
                                (ClaudeResponse.session_id r) (PInt (n + 1))
                                (ClaudeSession.created_at s) (PStr "t2")]>
                         (ClaudeBridge.sessions b)
          | None =>
              ClaudeBridge.sessions b'
              = <[7 := ClaudeSession.mk (PInt 7) (ClaudeResponse.session_id r)
                         (PInt 0) (PStr "t2") (PStr "t3")]>
                  (ClaudeBridge.sessions b)
          end
          ∧ Log.writes evs
            = match ClaudeBridge.sessions_file b with
              | Some path => [EvWriteSessions path (ClaudeBridge.sessions b')]
              | None => []
              end
        else
          Log.writes evs = []
          ∧ (Written = Written ∨ ClaudeBridge.sessions_file b = None
             → ClaudeBridge.sessions b' = ClaudeBridge.sessions b)
    | _ => ClaudeBridge.sessions b' = ClaudeBridge.sessions b ∧ Log.writes evs = []
    end.
Proof.
  intros old b out.
  assert (Hint : ∀ s, ClaudeBridge.sessions b !! 7 = Some s
                      → ∃ n, ClaudeSession.message_count s = PInt n).
  { intros s Hs. unfold b in Hs. simpl in Hs. rewrite lookup_singleton_eq in Hs.
    injection Hs as <-. by exists 2. }
  split; [exact Hint |].
  exact (send_tracks_session_on_success b "hello" 7 None out Written "t2" "t3" Hint).
Defined.

(** The same call, evaluated: the token is replaced, the count goes from 2
    to 3, and the table is written. *)
Example send_updates_existing_session :
  let old := ClaudeSession.mk (PInt 7) (PStr "s0") (PInt 2) (PStr "t0") (PStr "t1") in
  let b := ClaudeBridge.set_sessions
             (ClaudeBridge.init (ClaudeConfig.mk [] 10 300) (Some "sessions.json") 1 10)
             {[ 7 := old ]} in
  let out := Exited 0 "{...}"
               (Loaded (PDict [("result", PStr "hi"); ("session_id", PStr "s1")]))
               EmptyString in
  let '(b', c, evs) := ClaudeBridge.send b "hello" 7 None out Written "t2" "t3" in
  c = ClaudeBridge.Returned
        (ClaudeResponse.mk (PStr "hi") (PStr "s1") true PNone (Some "{...}"))
  ∧ ClaudeBridge.sessions b' !! 7
    = Some (ClaudeSession.mk (PInt 7) (PStr "s1") (PInt 3) (PStr "t0") (PStr "t2"))
  ∧ Log.writes evs = [EvWriteSessions "sessions.json" (ClaudeBridge.sessions b')].
Proof. vm_compute. repeat split; reflexivity. Qed.

(** When the sessions file cannot be written, the call reports a failure
    although the table already holds the new token and count. *)
Example send_keeps_the_update_when_the_write_fails :
  let old := ClaudeSession.mk (PInt 7) (PStr "s0") (PInt 2) (PStr "t0") (PStr "t1") in
  let b := ClaudeBridge.set_sessions
             (ClaudeBridge.init (ClaudeConfig.mk [] 10 300) (Some "sessions.json") 1 10)
             {[ 7 := old ]} in
  let out := Exited 0 "{...}"
               (Loaded (PDict [("result", PStr "hi"); ("session_id", PStr "s1")]))
               EmptyString in
  let '(b', c, evs) :=
    ClaudeBridge.send b "hello" 7 None out (WriteFailed "disk full") "t2" "t3" in
  c = ClaudeBridge.Returned (ClaudeBridge.cli_failed "disk full")
  ∧ ClaudeBridge.sessions b' !! 7
    = Some (ClaudeSession.mk (PInt 7) (PStr "s1") (PInt 3) (PStr "t0") (PStr "t2"))
  ∧ Log.writes evs = [].
Proof. vm_compute. repeat split; reflexivity. Qed.

(** A call that finds every permit taken is admitted and waits: nothing is
    started, and [_queue_size] counts it. *)
Example send_waits_without_a_free_permit :
  let b := ClaudeBridge.set_counters
             (ClaudeBridge.init (ClaudeConfig.mk [] 10 300) None 1 10) 0 1 in
  ClaudeBridge.send b "hello" 7 None TimedOut Written "t0" "t1"
  = (ClaudeBridge.set_counters b 0 2, ClaudeBridge.AwaitSemaphore "hello" 7 None, []).
Proof. reflexivity. Qed.

(** C5 as the spec states it fails for a bridge built without a sessions
    file: the call succeeds with a token, the table gets its entry, and
    nothing is written. *)
Lemma send_without_sessions_file_writes_nothing :
  let b := ClaudeBridge.init (ClaudeConfig.mk [] 10 300) None 1 10 in
  let raw := "{" +:+ Py.quoted "result" +:+ ": " +:+ Py.quoted "hi" +:+ ", "
             +:+ Py.quoted "session_id" +:+ ": " +:+ Py.quoted "s1" +:+ "}" in
  let out := Exited 0 raw (Loaded (PDict [("result", PStr "hi"); ("session_id", PStr "s1")]))
               EmptyString in
  let '(b', c, evs) := ClaudeBridge.send b "hello" 7 None out Written "t0" "t1" in
  (∃ r, c = ClaudeBridge.Returned r
        ∧ ClaudeResponse.success r = true
        ∧ ClaudeResponse.session_id r = PStr "s1")
  ∧ ClaudeBridge.sessions b' !! 7
    = Some (ClaudeSession.mk (PInt 7) (PStr "s1") (PInt 0) (PStr "t0") (PStr "t1"))
  ∧ Log.writes evs = [].
Proof. vm_compute. split; [eexists; repeat split; reflexivity | split; reflexivity]. Qed.

(** ** Runner: sending the reply *)

(** C6. A result whose response text is "SKIP" once stripped and put in
    upper case makes [_execute_action] send nothing. A successful result
    with [should_reply] and a response text that is neither empty nor the
    sentinel makes it send exactly that text, once, to the chat the
    message came from, as a reply to the message when the rule's
    [reply_mode] is "inline" and as a new message otherwise. *)
Theorem skip_suppresses_reply (d : Daemon.t) (chat_id : Z) :
  (∀ result text,
     ActionResult.response result = PStr text →
     Daemon.is_skip text = true →
     Daemon.send_response d chat_id result = Ret [])
  ∧ (∀ result text,
       Daemon._client d = true →
       ActionResult.success result = true →
       ActionResult.should_reply result = true →
       ActionResult.response result = PStr text →
       text ≠ EmptyString →
       Daemon.is_skip text = false →
       Daemon.send_response d chat_id result
       = Ret [EvSendMessage chat_id (PStr text) (ActionResult.reply_to_message_id result)])
  ∧ (∀ send trigger message_text captured_text message_id,
       let result := MessageHandler.handle send trigger chat_id message_text
                       captured_text message_id in
       Daemon._execute_action d send trigger chat_id message_text captured_text message_id
       = Daemon.send_response d chat_id result
       ∧ (ActionResult.should_reply result = true →
          ActionResult.reply_to_message_id result
          = if String.eqb (TriggerConfig.reply_mode trigger) "inline"
            then message_id else None)).
Proof.
  split; [| split].
  - intros result text Hr Hskip. unfold Daemon.send_response. rewrite Hr, Hskip.
    by destruct (ActionResult.should_reply result && Py.truthy (PStr text)).
  - intros result text Hc _ Hreply Hr Hne Hskip.
    unfold Daemon.send_response. rewrite Hr, Hreply, Hskip, Hc.
    destruct text; [done | reflexivity].
  - intros send trigger message_text captured_text message_id result.
    split; [reflexivity |]. unfold result, MessageHandler.handle.
    repeat (match goal with
            | |- context [if ?x then _ else _] => destruct x
            end; simpl; try done).
Qed.

Lemma skip_suppresses_reply_witness :
  let d := Daemon.mk true true None (DebounceManager.init 0) in
  Daemon.send_response d 7 (ActionResult.mk true (PStr " skip ") PNone true (Some 3)) = Ret []
  ∧ Daemon.send_response d 7 (ActionResult.mk true (PStr "pong") PNone true (Some 3))
    = Ret [EvSendMessage 7 (PStr "pong") (Some 3)].
Proof.
  intros d. split.
  - apply (proj1 (skip_suppresses_reply d 7)
             (ActionResult.mk true (PStr " skip ") PNone true (Some 3)) " skip ");
      reflexivity.
  - apply (proj1 (proj2 (skip_suppresses_reply d 7))
             (ActionResult.mk true (PStr "pong") PNone true (Some 3)) "pong");
      try reflexivity.
    discriminate.
Defined.

(** ** Bridge: parsing the assistant's output *)

Lemma parse_events_skip (raw : string) (ds : list (list (string * pyval)))
    (rest : list pyval) :
  Forall (λ d, Py.eq_str (Py.dict_get d "type" PNone) "result" = false) ds →
  ClaudeResponse.parse_events raw ((PDict <$> ds) ++ rest)
  = ClaudeResponse.parse_events raw rest.
Proof.
  induction 1 as [| d ds Hd _ IH]; [done |].
  simpl. by rewrite Hd.
Qed.

(** C7, as the code has it. A text that is not JSON gives a failure. A
    JSON object with an "error" member gives a failure carrying it; any
    other JSON object is marked successful, with its "result" member or
    [None] when it has none. In a JSON array of objects the first event of
    type "result" decides: it is marked successful exactly when its
    "is_error" is missing or false, with or without a "result" member; an
    array of objects with no such event gives a failure. None of these
    raises. *)
Theorem parse_wire_shapes (raw : string) :
  (∀ e, ClaudeResponse.parse raw (LoadsError e)
        = Ret (ClaudeResponse.failure
                 (PStr ("Failed to parse JSON response: " +:+ e)) (Some raw)))
  ∧ (∀ d v, Py.assoc "error" d = Some v →
            ClaudeResponse.parse raw (Loaded (PDict d))
            = Ret (ClaudeResponse.failure v (Some raw)))
  ∧ (∀ d, Py.assoc "error" d = None →
          ClaudeResponse.parse raw (Loaded (PDict d))
          = Ret (ClaudeResponse.mk (Py.dict_get d "result" PNone)
                   (Py.dict_get d "session_id" PNone) true PNone (Some raw)))
  ∧ (∀ ds, Forall (λ d, Py.eq_str (Py.dict_get d "type" PNone) "result" = false) ds →
           ClaudeResponse.parse raw (Loaded (PList (PDict <$> ds)))
           = Ret (ClaudeResponse.failure (PStr "No result in Claude response") (Some raw)))
  ∧ (∀ ds ev rest,
       Forall (λ d, Py.eq_str (Py.dict_get d "type" PNone) "result" = false) ds →
       Py.eq_str (Py.dict_get ev "type" PNone) "result" = true →
       let is_error := Py.truthy (Py.dict_get ev "is_error" (PBool false)) in
       ClaudeResponse.parse raw (Loaded (PList ((PDict <$> ds) ++ PDict ev :: rest)))
       = Ret (ClaudeResponse.mk (Py.dict_get ev "result" PNone)
                (Py.dict_get ev "session_id" PNone) (negb is_error)
                (if is_error then Py.dict_get ev "result" PNone else PNone)
                (Some raw))).
Proof.
  repeat split.
  - intros d v Hv. simpl. by rewrite Hv.
  - intros d Hv. simpl. by rewrite Hv.
  - intros ds Hds. simpl.
    rewrite <- (app_nil_r (PDict <$> ds)). by rewrite parse_events_skip.
  - intros ds ev rest Hds Hev is_error. simpl.
    rewrite parse_events_skip by done. simpl. by rewrite Hev.
Qed.

Lemma parse_wire_shapes_witness :
  ClaudeResponse.parse "[...]"
    (Loaded (PList [PDict [("type", PStr "system")];
                    PDict [("type", PStr "result"); ("result", PStr "hi");
                           ("session_id", PStr "s1")];
                    PInt 0]))
  = Ret (ClaudeResponse.mk (PStr "hi") (PStr "s1") true PNone (Some "[...]")).
Proof.
  apply (proj2 (proj2 (proj2 (proj2 (parse_wire_shapes "[...]"))))
           [[("type", PStr "system")]]
           [("type", PStr "result"); ("result", PStr "hi"); ("session_id", PStr "s1")]
           [PInt 0]).
  - repeat constructor.
  - reflexivity.
Defined.

(** C7 as the spec states it fails: the empty JSON object carries no
    result and is marked successful, and so is a result event without a
    "result" member. *)
Lemma parse_success_without_result :
  ClaudeResponse.parse "{}" (Loaded (PDict []))
  = Ret (ClaudeResponse.mk PNone PNone true PNone (Some "{}"))
  ∧ ClaudeResponse.parse "[{...}]" (Loaded (PList [PDict [("type", PStr "result")]]))
    = Ret (ClaudeResponse.mk PNone PNone true PNone (Some "[{...}]")).
Proof. split; reflexivity. Qed.

(** Outside those shapes [parse] raises: a JSON number is neither a list
    nor a container to look "error" up in, and an array element that is not
    an object has no [get]. *)
Example parse_raises_on_other_shapes :
  ClaudeResponse.parse "42" (Loaded (PInt 42))
  = Raise (TypeError "argument is not iterable")
  ∧ ClaudeResponse.parse "[1]" (Loaded (PList [PInt 1]))
    = Raise (AttributeError "get").
Proof. split; reflexivity. Qed.

(** ** Bridge: loading the sessions file *)

(** C8 fails on the code: a sessions file holding a JSON array is valid
    JSON, [data.items()] raises [AttributeError], and [load_sessions] does
    not catch it. *)
Lemma load_sessions_raises_on_json_array :
  let b := ClaudeBridge.init (ClaudeConfig.mk [] 10 300) (Some "sessions.json") 1 10 in
  ClaudeBridge.load_sessions b (Some (Loaded (PList []))) "t0"
  = (b, [], Raise (AttributeError "items")).
Proof. reflexivity. Qed.

(** So do a key that is not an integer and an entry that is not an
    object; an entry without "chat_id" is caught, after the entries before
    it have been loaded. *)
Example load_sessions_other_corrupt_files :
  let b := ClaudeBridge.init (ClaudeConfig.mk [] 10 300) (Some "sessions.json") 1 10 in
  let good := PDict [("chat_id", PInt 1); ("session_id", PStr "s1")] in
  (ClaudeBridge.load_sessions b (Some (Loaded (PDict [("abc", good)]))) "t0").2
  = Raise (ValueError "invalid literal for int() with base 10: abc")
  ∧ (ClaudeBridge.load_sessions b (Some (Loaded (PDict [("1", PInt 5)]))) "t0").2
    = Raise (TypeError "indices must be integers or object is not subscriptable")
  ∧ (let r := ClaudeBridge.load_sessions b
                (Some (Loaded (PDict [("1", good); ("2", PDict [])]))) "t0" in
     r.2 = Ret ()
     ∧ ClaudeBridge.sessions r.1.1 !! 1
       = Some (ClaudeSession.mk (PInt 1) (PStr "s1") (PInt 0) (PStr "t0") (PStr "t0"))
     ∧ r.1.2 = [EvLogWarning "Failed to load sessions from sessions.json: 'chat_id'"]).
Proof. vm_compute. repeat split; reflexivity. Qed.

(** An absent file and a file that is not JSON are tolerated. *)
Lemma load_sessions_tolerates_missing_or_undecodable (b : ClaudeBridge.t) (now : string) :
  ClaudeBridge.load_sessions b None now = (b, [], Ret ())
  ∧ ∀ m, ∃ evs, ClaudeBridge.load_sessions b (Some (LoadsError m)) now = (b, evs, Ret ()).
Proof.
  unfold ClaudeBridge.load_sessions.
  destruct (ClaudeBridge.sessions_file b); split; eauto.
Qed.

(** ** Debounce manager: reachable states *)

Section DebounceInvariant.
Import DebounceManager Debounce.

Lemma wf_init (t0 : Z) : wf (init t0).
Proof.
  split; simpl.
  - intros k p H. by rewrite lookup_empty in H.
  - intros p [o H]. by rewrite lookup_empty in H.
  - intros tid [st H]. by rewrite lookup_empty in H.
  - intros tid st k H. by rewrite lookup_empty in H.
  - intros k p o tid st k' H. by rewrite lookup_empty in H.
Qed.

Lemma wf_tick (s : t) (dt : N) : wf s → wf (tick s dt).
Proof. intros [H1 H2 H3 H4 H5]. split; simpl; done. Qed.

(** Two entries never share an object. *)
Lemma wf_pending_inj (s : t) (k1 k2 : key) (p : nat) :
  wf s → _pending s !! k1 = Some p → _pending s !! k2 = Some p → k1 = k2.
Proof.
  intros Hwf H1 H2.
  destruct (wf_pending s Hwf k1 p H1) as (o1 & ? & Ho1 & <- & _).
  destruct (wf_pending s Hwf k2 p H2) as (o2 & ? & Ho2 & <- & _).
  congruence.
Qed.

(** What [cancel_task] leaves of the task table. *)
Lemma cancel_task_lookup (tasks : gmap nat task_state) (task : option nat) (tid : nat) :
  (cancel_task tasks task).1 !! tid
  = if bool_decide (task = Some tid) && negb (done tasks tid)
    then Some CancelRequested else tasks !! tid.
Proof.
  unfold cancel_task. destruct task as [tid' |].
  - case_bool_decide as Heq.
    + injection Heq as ->. destruct (done tasks tid); simpl; [done |].
      by rewrite lookup_insert_eq.
    + assert (tid' ≠ tid) by congruence.
      destruct (done tasks tid'); simpl; [done | by rewrite lookup_insert_ne].
  - by case_bool_decide.
Qed.

Lemma done_live (tasks : gmap nat task_state) (tid : nat) (st : task_state) (k : key) :
  tasks !! tid = Some st → task_key st = Some k → done tasks tid = false.
Proof. intros H Hk. unfold done. rewrite H. by destruct st. Qed.

End DebounceInvariant.

Section DebounceSchedule.
Import DebounceManager Debounce.

Lemma wf_schedule (s : t) (c : Z) (tr : TriggerConfig.t) (m : string)
    (cap : option string) (mid : option Z) :
  wf s → wf (schedule s c tr m cap mid).2.
Proof.
  intros Hwf. unfold schedule. set (k0 := _key c tr).
  destruct (_pending s !! k0) as [p0 |] eqn:Hk0.
  - destruct (heap s !! p0) as [o0 |] eqn:Hp0; [| done].
    destruct (wf_pending s Hwf k0 p0 Hk0) as (o0' & tid0 & Ho0 & Hkey0 & Htask0 & Hlt0).
    assert (o0' = o0) as -> by congruence.
    split; simpl.
    + intros k p Hk. destruct (decide (p = p0)) as [-> | Hne].
      * rewrite lookup_insert_eq. eexists _, _. split; [done |].
        split; [| split; [done | lia]].
        rewrite (wf_pending_inj s k k0 p0 Hwf Hk Hk0). exact Hkey0.
      * rewrite lookup_insert_ne by done.
        destruct (wf_pending s Hwf k p Hk) as (o & tid & ? & ? & ? & ?).
        exists o, tid. repeat split; try done. lia.
    + intros p [o Hp]. destruct (decide (p = p0)) as [-> | Hne].
      * apply (wf_heap s Hwf). eauto.
      * rewrite lookup_insert_ne in Hp by done. apply (wf_heap s Hwf). eauto.
    + intros tid [st Hst]. destruct (decide (tid = next_task s)) as [-> | Hne]; [lia |].
      rewrite lookup_insert_ne in Hst by done. rewrite cancel_task_lookup in Hst.
      destruct (bool_decide (DebouncedMessage.task o0 = Some tid)
                && negb (done (tasks s) tid)) eqn:Hb.
      * apply andb_true_iff in Hb as [Hb _]. apply bool_decide_eq_true in Hb.
        assert (tid = tid0) by congruence. lia.
      * pose proof (wf_tasks s Hwf tid (ex_intro _ st Hst)). lia.
    + intros tid st k Hst Hk.
      destruct (decide (tid = next_task s)) as [-> | Hne].
      * rewrite lookup_insert_eq in Hst. injection Hst as <-. simpl in Hk.
        injection Hk as <-. eexists p0, _. rewrite lookup_insert_eq. done.
      * rewrite lookup_insert_ne in Hst by done. rewrite cancel_task_lookup in Hst.
        destruct (bool_decide (DebouncedMessage.task o0 = Some tid)
                  && negb (done (tasks s) tid)) eqn:Hb.
        -- injection Hst as <-. discriminate Hk.
        -- destruct (wf_live s Hwf tid st k Hst Hk) as (p & o & Hp & Ho & Ht & Hst').
           assert (p ≠ p0).
           { intros ->. assert (o = o0) by congruence. subst o.
             rewrite bool_decide_eq_true_2 in Hb by done.
             rewrite (done_live _ _ _ _ Hst Hk) in Hb. discriminate. }
           exists p, o. rewrite lookup_insert_ne by done. done.
    + intros k p o tid st k' Hk Ho Ht Hst Hk'.
      destruct (decide (p = p0)) as [-> | Hne].
      * rewrite lookup_insert_eq in Ho. injection Ho as <-. simpl in Ht.
        injection Ht as <-. rewrite lookup_insert_eq in Hst. injection Hst as <-.
        simpl in Hk'. injection Hk' as <-.
        symmetry. exact (wf_pending_inj s k k0 p0 Hwf Hk Hk0).
      * rewrite lookup_insert_ne in Ho by done.
        destruct (wf_pending s Hwf k p Hk) as (o' & tid' & Ho' & _ & Ht' & Hlt').
        assert (o' = o) as -> by congruence. assert (tid' = tid) as -> by congruence.
        rewrite lookup_insert_ne in Hst by lia. rewrite cancel_task_lookup in Hst.
        destruct (bool_decide (DebouncedMessage.task o0 = Some tid)
                  && negb (done (tasks s) tid)).
        -- injection Hst as <-. discriminate Hk'.
        -- exact (wf_owner s Hwf k p o tid st k' Hk Ho Ht Hst Hk').
  - split; simpl.
    + intros k p Hk. destruct (decide (k = k0)) as [-> | Hne].
      * rewrite lookup_insert_eq in Hk. injection Hk as <-. rewrite lookup_insert_eq.
        eexists _, _. repeat split. simpl. lia.
      * rewrite lookup_insert_ne in Hk by done.
        destruct (wf_pending s Hwf k p Hk) as (o & tid & Ho & ? & ? & ?).
        pose proof (wf_heap s Hwf p (ex_intro _ o Ho)).
        rewrite lookup_insert_ne by lia. exists o, tid. repeat split; try done. lia.
    + intros p [o Hp]. destruct (decide (p = next_loc s)) as [-> | Hne]; [lia |].
      rewrite lookup_insert_ne in Hp by done.
      pose proof (wf_heap s Hwf p (ex_intro _ o Hp)). lia.
    + intros tid [st Hst]. destruct (decide (tid = next_task s)) as [-> | Hne]; [lia |].
      rewrite lookup_insert_ne in Hst by done.
      pose proof (wf_tasks s Hwf tid (ex_intro _ st Hst)). lia.
    + intros tid st k Hst Hk.
      destruct (decide (tid = next_task s)) as [-> | Hne].
      * rewrite lookup_insert_eq in Hst. injection Hst as <-. simpl in Hk.
        injection Hk as <-. eexists (next_loc s), _. rewrite !lookup_insert_eq. done.
      * rewrite lookup_insert_ne in Hst by done.
        destruct (wf_live s Hwf tid st k Hst Hk) as (p & o & Hp & Ho & Ht & Hst').
        assert (k0 ≠ k) by congruence.
        pose proof (wf_heap s Hwf p (ex_intro _ o Ho)).
        exists p, o. rewrite !lookup_insert_ne by (done || lia). done.
    + intros k p o tid st k' Hk Ho Ht Hst Hk'.
      destruct (decide (k = k0)) as [-> | Hne].
      * rewrite lookup_insert_eq in Hk. injection Hk as <-.
        rewrite lookup_insert_eq in Ho. injection Ho as <-. simpl in Ht.
        injection Ht as <-. rewrite lookup_insert_eq in Hst. injection Hst as <-.
        simpl in Hk'. by injection Hk' as <-.
      * rewrite lookup_insert_ne in Hk by done.
        destruct (wf_pending s Hwf k p Hk) as (o' & tid' & Ho' & _ & Ht' & Hlt').
        pose proof (wf_heap s Hwf p (ex_intro _ o' Ho')).
        rewrite lookup_insert_ne in Ho by lia.
        assert (o' = o) as -> by congruence. assert (tid' = tid) as -> by congruence.
        rewrite lookup_insert_ne in Hst by lia.
        exact (wf_owner s Hwf k p o tid st k' Hk Ho Ht Hst Hk').
Qed.

End DebounceSchedule.

Section DebounceRun.
Import DebounceManager Debounce.

Lemma wf_set_finished (s : t) (tid : nat) :
  wf s → is_Some (tasks s !! tid) → wf (set_task s tid Finished).
Proof.
  intros Hwf Htid. split; simpl.
  - exact (wf_pending s Hwf).
  - exact (wf_heap s Hwf).
  - intros tid' [st Hst]. destruct (decide (tid' = tid)) as [-> | Hne].
    + by apply (wf_tasks s Hwf).
    + rewrite lookup_insert_ne in Hst by done. apply (wf_tasks s Hwf). eauto.
  - intros tid' st k Hst Hk. destruct (decide (tid' = tid)) as [-> | Hne].
    + rewrite lookup_insert_eq in Hst. injection Hst as <-. discriminate Hk.
    + rewrite lookup_insert_ne in Hst by done. exact (wf_live s Hwf tid' st k Hst Hk).
  - intros k p o tid' st k' Hk Ho Ht Hst Hk'. destruct (decide (tid' = tid)) as [-> | Hne].
    + rewrite lookup_insert_eq in Hst. injection Hst as <-. discriminate Hk'.
    + rewrite lookup_insert_ne in Hst by done.
      exact (wf_owner s Hwf k p o tid' st k' Hk Ho Ht Hst Hk').
Qed.

Lemma wf_set_sleeping (s : t) (tid : nat) (st : task_state) (k : key) (p : nat)
    (o : DebouncedMessage.t) (w : Z) :
  wf s → tasks s !! tid = Some st → task_key st = Some k →
  _pending s !! k = Some p → heap s !! p = Some o →
  w = DebouncedMessage.last_update o
      + TriggerConfig.debounce_seconds (DebouncedMessage.trigger o) →
  wf (set_task s tid
        (Sleeping k p (TriggerConfig.debounce_seconds (DebouncedMessage.trigger o)) w)).
Proof.
  intros Hwf Hst Hk Hp Ho Hw.
  destruct (wf_live s Hwf tid st k Hst Hk) as (p' & o' & Hp' & Ho' & Ht' & _).
  assert (p' = p) as -> by congruence. assert (o' = o) as -> by congruence.
  split; simpl.
  - exact (wf_pending s Hwf).
  - exact (wf_heap s Hwf).
  - intros tid' [st' Hst']. destruct (decide (tid' = tid)) as [-> | Hne].
    + apply (wf_tasks s Hwf). eauto.
    + rewrite lookup_insert_ne in Hst' by done. apply (wf_tasks s Hwf). eauto.
  - intros tid' st' k' Hst' Hk'. destruct (decide (tid' = tid)) as [-> | Hne].
    + rewrite lookup_insert_eq in Hst'. injection Hst' as <-. simpl in Hk'.
      injection Hk' as <-. exists p, o. done.
    + rewrite lookup_insert_ne in Hst' by done.
      exact (wf_live s Hwf tid' st' k' Hst' Hk').
  - intros k1 p1 o1 tid' st' k' Hk1 Ho1 Ht1 Hst' Hk'.
    destruct (decide (tid' = tid)) as [-> | Hne].
    + rewrite lookup_insert_eq in Hst'. injection Hst' as <-. simpl in Hk'.
      injection Hk' as <-. exact (wf_owner s Hwf k1 p1 o1 tid st k Hk1 Ho1 Ht1 Hst Hk).
    + rewrite lookup_insert_ne in Hst' by done.
      exact (wf_owner s Hwf k1 p1 o1 tid' st' k' Hk1 Ho1 Ht1 Hst' Hk').
Qed.

Lemma wf_fire (s : t) (tid : nat) (st : task_state) (k : key) (p : nat) :
  wf s → tasks s !! tid = Some st → task_key st = Some k →
  _pending s !! k = Some p → wf (fire s tid k p).
Proof.
  intros Hwf Hst Hk Hp. unfold fire. rewrite Hp.
  destruct (heap s !! p) as [o |] eqn:Ho; [| apply wf_set_finished; eauto].
  destruct (wf_live s Hwf tid st k Hst Hk) as (p' & o' & Hp' & Ho' & Ht' & _).
  assert (p' = p) as -> by congruence. assert (o' = o) as -> by congruence.
  split; simpl.
  - intros k1 p1 Hk1. apply lookup_delete_Some in Hk1 as [_ Hk1].
    exact (wf_pending s Hwf k1 p1 Hk1).
  - exact (wf_heap s Hwf).
  - intros tid' [st' Hst']. destruct (decide (tid' = tid)) as [-> | Hne].
    + apply (wf_tasks s Hwf). eauto.
    + rewrite lookup_insert_ne in Hst' by done. apply (wf_tasks s Hwf). eauto.
  - intros tid' st' k' Hst' Hk'. destruct (decide (tid' = tid)) as [-> | Hne].
    + rewrite lookup_insert_eq in Hst'. injection Hst' as <-. discriminate Hk'.
    + rewrite lookup_insert_ne in Hst' by done.
      destruct (wf_live s Hwf tid' st' k' Hst' Hk') as (p1 & o1 & Hp1 & Ho1 & Ht1 & Hs1).
      assert (k' ≠ k).
      { intros ->. assert (p1 = p) as -> by congruence.
        assert (o1 = o) as -> by congruence. congruence. }
      exists p1, o1. rewrite lookup_delete_ne by done. done.
  - intros k1 p1 o1 tid' st' k' Hk1 Ho1 Ht1 Hst' Hk'.
    apply lookup_delete_Some in Hk1 as [_ Hk1].
    destruct (decide (tid' = tid)) as [-> | Hne].
    + rewrite lookup_insert_eq in Hst'. injection Hst' as <-. discriminate Hk'.
    + rewrite lookup_insert_ne in Hst' by done.
      exact (wf_owner s Hwf k1 p1 o1 tid' st' k' Hk1 Ho1 Ht1 Hst' Hk').
Qed.

Lemma wf_wait_loop (s : t) (tid : nat) (st : task_state) (k : key) (p : nat)
    (o : DebouncedMessage.t) :
  wf s → tasks s !! tid = Some st → task_key st = Some k →
  _pending s !! k = Some p → heap s !! p = Some o →
  wf (wait_loop s tid k p
        (TriggerConfig.debounce_seconds (DebouncedMessage.trigger o))).
Proof.
  intros Hwf Hst Hk Hp Ho. unfold wait_loop. rewrite Ho.
  destruct (_ <=? 0).
  - by apply (wf_fire s tid st k p).
  - apply (wf_set_sleeping s tid st k p o); try done. lia.
Qed.

Lemma wf_run_task (s : t) (tid : nat) : wf s → wf (run_task s tid).
Proof.
  intros Hwf. unfold run_task.
  destruct (tasks s !! tid) as [st |] eqn:Hst; [| done].
  destruct st as [k | k p d w | |]; try done.
  - destruct (_pending s !! k) as [p |] eqn:Hp; [| apply wf_set_finished; eauto].
    destruct (heap s !! p) as [o |] eqn:Ho; [| apply wf_set_finished; eauto].
    by apply (wf_wait_loop s tid (Created k) k p o).
  - destruct (now s <? w); [done |].
    destruct (wf_live s Hwf tid _ k Hst eq_refl) as (p' & o & Hp & Ho & _ & <- & -> & _).
    by eapply (wf_wait_loop s tid _ k p o).
  - apply wf_set_finished; eauto.
Qed.

Lemma wf_step (s : t) (l : label) : wf s → wf (step s l).
Proof.
  destruct l; simpl; auto using wf_tick, wf_run_task, wf_schedule.
Qed.

Lemma wf_exec (s : t) (ls : list label) : wf s → wf (exec s ls).
Proof.
  revert s. induction ls as [| l ls IH]; intros s Hwf; [done |].
  simpl. apply IH. by apply wf_step.
Qed.

End DebounceRun.

(** ** Debounce manager: what a step leaves alone *)

Section DebounceFrame.
Import DebounceManager Debounce.

Lemma fired_for_snoc (k : key) (l : list DebouncedMessage.t) (o : DebouncedMessage.t) :
  filter (λ o, key_of o = k) (l ++ [o])
  = filter (λ o, key_of o = k) l ++ (if decide (key_of o = k) then [o] else []).
Proof.
  rewrite filter_app, filter_cons, filter_nil. by destruct (decide (key_of o = k)).
Qed.

(** Resuming a task that does not work for [k] leaves [k] alone. *)
Lemma run_task_frame (s : t) (k : key) (tid' : nat) :
  wf s →
  (∀ st, tasks s !! tid' = Some st → task_key st ≠ Some k) →
  let s' := run_task s tid' in
  _pending s' !! k = _pending s !! k
  ∧ heap s' = heap s
  ∧ (∀ tid, tid ≠ tid' → tasks s' !! tid = tasks s !! tid)
  ∧ fired_for k s' = fired_for k s
  ∧ now s' = now s.
Proof.
  intros Hwf Hother. simpl. unfold run_task.
  destruct (tasks s !! tid') as [st |] eqn:Hst; [| done].
  assert (Hset : ∀ st',
             let s' := set_task s tid' st' in
             _pending s' !! k = _pending s !! k ∧ heap s' = heap s
             ∧ (∀ tid, tid ≠ tid' → tasks s' !! tid = tasks s !! tid)
             ∧ fired_for k s' = fired_for k s ∧ now s' = now s).
  { intros st'. simpl. repeat split. intros tid Hne. by rewrite lookup_insert_ne. }
  assert (Hloop : ∀ k' p' d o',
             task_key st = Some k' → _pending s !! k' = Some p' → heap s !! p' = Some o' →
             let s' := wait_loop s tid' k' p' d in
             _pending s' !! k = _pending s !! k ∧ heap s' = heap s
             ∧ (∀ tid, tid ≠ tid' → tasks s' !! tid = tasks s !! tid)
             ∧ fired_for k s' = fired_for k s ∧ now s' = now s).
  { intros k' p' d o' Hk' Hp' Ho'. simpl. unfold wait_loop. rewrite Ho'.
    destruct (_ <=? 0); [| apply Hset].
    unfold fire. rewrite Hp', Ho'. simpl.
    assert (k' ≠ k) by (intros ->; by apply (Hother st)).
    destruct (wf_pending s Hwf k' p' Hp') as (o1 & ? & Ho1 & Hkey & _).
    assert (o1 = o') as -> by congruence.
    repeat split.
    - by rewrite lookup_delete_ne.
    - intros tid Hne. by rewrite lookup_insert_ne.
    - unfold fired_for. simpl. rewrite fired_for_snoc.
      rewrite decide_False by congruence. by rewrite app_nil_r. }
  destruct st as [k' | k' p' d w | |]; try done.
  - destruct (_pending s !! k') as [p' |] eqn:Hp'; [| apply Hset].
    destruct (heap s !! p') as [o' |] eqn:Ho'; [| apply Hset].
    by apply (Hloop k' p' _ o').
  - destruct (now s <? w); [done |].
    destruct (wf_live s Hwf tid' _ k' Hst eq_refl) as (p1 & o' & Hp' & Ho' & _ & <- & _).
    by apply (Hloop k' p' d o').
Qed.

(** A [schedule] call for another key leaves [k] alone. *)
Lemma schedule_frame (s : t) (k : key) (c : Z) (tr : TriggerConfig.t) (m : string)
    (cap : option string) (mid : option Z) :
  wf s → _key c tr ≠ k →
  let s' := (schedule s c tr m cap mid).2 in
  _pending s' !! k = _pending s !! k
  ∧ (∀ p, _pending s !! k = Some p → heap s' !! p = heap s !! p)
  ∧ (∀ p o tid st, _pending s !! k = Some p → heap s !! p = Some o →
       DebouncedMessage.task o = Some tid → tasks s !! tid = Some st →
       task_key st = Some k → tasks s' !! tid = Some st)
  ∧ fired s' = fired s
  ∧ now s' = now s.
Proof.
  intros Hwf Hne. simpl. unfold schedule. set (k0 := _key c tr) in *.
  destruct (_pending s !! k0) as [p0 |] eqn:Hk0.
  - destruct (heap s !! p0) as [o0 |] eqn:Hp0; [| simpl; repeat split; done].
    simpl. repeat split.
    + intros p Hp. rewrite lookup_insert_ne; [done |].
      intros ->. apply Hne. exact (wf_pending_inj s k0 k p Hwf Hk0 Hp).
    + intros p o tid st Hp Ho Ht Hst Hk.
      pose proof (wf_tasks s Hwf tid (ex_intro _ st Hst)).
      rewrite lookup_insert_ne by lia. rewrite cancel_task_lookup.
      case_bool_decide as Heq; simpl; [| done].
      exfalso. apply Hne. symmetry.
      exact (wf_owner s Hwf k0 p0 o0 tid st k Hk0 Hp0 Heq Hst Hk).
  - simpl. repeat split.
    + by rewrite lookup_insert_ne.
    + intros p Hp. destruct (wf_pending s Hwf k p Hp) as (o & ? & Ho & _).
      pose proof (wf_heap s Hwf p (ex_intro _ o Ho)).
      rewrite lookup_insert_ne; [done | lia].
    + intros p o tid st Hp Ho Ht Hst Hk.
      pose proof (wf_tasks s Hwf tid (ex_intro _ st Hst)).
      rewrite lookup_insert_ne; [done | lia].
Qed.

(** While key [k] has no entry, steps that do not schedule for [k] leave
    it without one and call the callback for it no further. *)
Lemma step_idle (s : t) (k : key) (l : label) :
  wf s → _pending s !! k = None → quiet k l →
  _pending (step s l) !! k = None ∧ fired_for k (step s l) = fired_for k s.
Proof.
  intros Hwf Hk Hq. destruct l as [dt | tid | c tr m cap mid]; simpl.
  - done.
  - destruct (run_task_frame s k tid Hwf) as (Hp & _ & _ & Hf & _).
    + intros st Hst Hkey.
      destruct (wf_live s Hwf tid st k Hst Hkey) as (p & ? & Hp & _). congruence.
    + by rewrite Hp, Hf.
  - destruct (schedule_frame s k c tr m cap mid Hwf Hq) as (Hp & _ & _ & Hf & _).
    unfold fired_for. by rewrite Hp, Hf.
Qed.

Lemma exec_idle (s : t) (k : key) (ls : list label) :
  wf s → _pending s !! k = None → Forall (quiet k) ls →
  _pending (exec s ls) !! k = None ∧ fired_for k (exec s ls) = fired_for k s.
Proof.
  revert s. induction ls as [| l ls IH]; intros s Hwf Hk Hq; [done |].
  apply Forall_cons in Hq as [Hl Hls]. simpl.
  destruct (step_idle s k l Hwf Hk Hl) as [Hk' Hf'].
  destruct (IH (step s l) (wf_step s l Hwf) Hk' Hls) as [Hk'' Hf''].
  split; [done | congruence].
Qed.

End DebounceFrame.

(** ** Debounce manager: one burst *)

Section DebounceBurst.
Import DebounceManager Debounce.

Lemma now_run_task (s : t) (tid : nat) : now (run_task s tid) = now s.
Proof.
  unfold run_task, wait_loop, fire, set_task.
  repeat (match goal with
          | |- context [match ?x with _ => _ end] => destruct x
          end; simpl; try done).
Qed.

Lemma now_schedule (s : t) (c : Z) (tr : TriggerConfig.t) (m : string)
    (cap : option string) (mid : option Z) :
  now (schedule s c tr m cap mid).2 = now s.
Proof.
  unfold schedule.
  repeat (match goal with
          | |- context [match ?x with _ => _ end] => destruct x
          end; simpl; try done).
Qed.

Lemma now_exec (s : t) (ls : list label) : now (exec s ls) = now s + ticks ls.
Proof.
  revert s. induction ls as [| l ls IH]; intros s; simpl; [lia |].
  unfold exec in IH. rewrite IH.
  destruct l; simpl; rewrite ?now_run_task, ?now_schedule; lia.
Qed.

Lemma waiting_key (s : t) (k : key) (o : DebouncedMessage.t) (tid : nat) :
  wf s → waiting s k o tid → key_of o = k.
Proof.
  intros Hwf (p & st & Hp & Ho & _).
  destruct (wf_pending s Hwf k p Hp) as (o' & ? & Ho' & Hkey & _). congruence.
Qed.

(** The timer task of an entry is resumed: it fires when the window is
    over and goes (back) to sleep otherwise. *)
Lemma run_own (s : t) (k : key) (o : DebouncedMessage.t) (tid : nat) :
  wf s → waiting s k o tid →
  let deadline := DebouncedMessage.last_update o
                  + TriggerConfig.debounce_seconds (DebouncedMessage.trigger o) in
  let s' := run_task s tid in
  (deadline ≤ now s ∧ _pending s' !! k = None ∧ fired_for k s' = fired_for k s ++ [o])
  ∨ (now s < deadline ∧ waiting s' k o tid ∧ fired_for k s' = fired_for k s).
Proof.
  intros Hwf Hw. pose proof (waiting_key s k o tid Hwf Hw) as Hkey.
  destruct Hw as (p & st & Hp & Ho & Ht & Hst & Hk). simpl.
  assert (Hloop :
    let s' := wait_loop s tid k p
                (TriggerConfig.debounce_seconds (DebouncedMessage.trigger o)) in
    (DebouncedMessage.last_update o
     + TriggerConfig.debounce_seconds (DebouncedMessage.trigger o) ≤ now s
     ∧ _pending s' !! k = None ∧ fired_for k s' = fired_for k s ++ [o])
    ∨ (now s < DebouncedMessage.last_update o
               + TriggerConfig.debounce_seconds (DebouncedMessage.trigger o)
       ∧ waiting s' k o tid ∧ fired_for k s' = fired_for k s)).
  { simpl. unfold wait_loop. rewrite Ho.
    destruct (_ <=? 0) eqn:Hrem.
    - left. apply Z.leb_le in Hrem. split; [lia |].
      unfold fire. rewrite Hp, Ho. simpl. split; [apply lookup_delete_eq |].
      unfold fired_for. simpl. rewrite fired_for_snoc. by rewrite decide_True.
    - right. apply Z.leb_gt in Hrem. split; [lia |]. split; [| done].
      exists p, (Sleeping k p
                   (TriggerConfig.debounce_seconds (DebouncedMessage.trigger o))
                   (now s + (TriggerConfig.debounce_seconds (DebouncedMessage.trigger o)
                             - (now s - DebouncedMessage.last_update o)))).
      simpl. rewrite lookup_insert_eq. done. }
  unfold run_task. rewrite Hst.
  destruct st as [k' | k' p' d w | |]; try discriminate Hk;
    simpl in Hk; injection Hk as ->.
  - rewrite Hp, Ho. exact Hloop.
  - destruct (wf_live s Hwf tid _ k Hst eq_refl) as (p1 & o1 & Hp1 & Ho1 & _ & -> & -> & ->).
    assert (p1 = p) as -> by congruence. assert (o1 = o) as -> by congruence.
    destruct (now s <? _) eqn:Hnow; [| exact Hloop].
    apply Z.ltb_lt in Hnow. right. split; [lia |]. split; [| done].
    exists p, (Sleeping k p
                 (TriggerConfig.debounce_seconds (DebouncedMessage.trigger o))
                 (DebouncedMessage.last_update o
                  + TriggerConfig.debounce_seconds (DebouncedMessage.trigger o))).
    done.
Qed.

(** One step that is not a [schedule] call for [k], while [k] waits. *)
Lemma step_waiting (s : t) (k : key) (o : DebouncedMessage.t) (tid : nat) (l : label) :
  wf s → waiting s k o tid → quiet k l →
  let deadline := DebouncedMessage.last_update o
                  + TriggerConfig.debounce_seconds (DebouncedMessage.trigger o) in
  (waiting (step s l) k o tid ∧ fired_for k (step s l) = fired_for k s)
  ∨ (deadline ≤ now s ∧ _pending (step s l) !! k = None
     ∧ fired_for k (step s l) = fired_for k s ++ [o]).
Proof.
  intros Hwf Hw Hq. simpl.
  destruct l as [dt | tid' | c tr m cap mid]; simpl.
  - left. done.
  - destruct (decide (tid' = tid)) as [-> | Hne].
    + destruct (run_own s k o tid Hwf Hw) as [(? & ? & ?) | (? & ? & ?)]; auto.
    + left. destruct Hw as (p & st & Hp & Ho & Ht & Hst & Hk).
      destruct (run_task_frame s k tid' Hwf) as (Hp' & Hh' & Ht' & Hf' & _).
      { intros st' Hst' Hk'.
        destruct (wf_live s Hwf tid' st' k Hst' Hk') as (p1 & o1 & Hp1 & Ho1 & Ht1 & _).
        assert (p1 = p) by congruence. subst p1. congruence. }
      split; [| done]. exists p, st.
      rewrite Hp', Hh', (Ht' tid) by done. done.
  - left. destruct Hw as (p & st & Hp & Ho & Ht & Hst & Hk).
    destruct (schedule_frame s k c tr m cap mid Hwf Hq) as (Hp' & Hh' & Ht' & Hf' & _).
    split; [| unfold fired_for; by rewrite Hf'].
    exists p, st. rewrite Hp', (Hh' p Hp), (Ht' p o tid st Hp Ho Ht Hst Hk). done.
Qed.

Lemma exec_waiting (s : t) (k : key) (o : DebouncedMessage.t) (tid : nat)
    (ls : list label) :
  wf s → waiting s k o tid → Forall (quiet k) ls →
  let deadline := DebouncedMessage.last_update o
                  + TriggerConfig.debounce_seconds (DebouncedMessage.trigger o) in
  (waiting (exec s ls) k o tid ∧ fired_for k (exec s ls) = fired_for k s)
  ∨ (deadline ≤ now (exec s ls) ∧ _pending (exec s ls) !! k = None
     ∧ fired_for k (exec s ls) = fired_for k s ++ [o]).
Proof.
  simpl. revert s. induction ls as [| l ls IH]; intros s Hwf Hw Hq; [by left |].
  apply Forall_cons in Hq as [Hl Hls]. simpl.
  pose proof (wf_step s l Hwf) as Hwf'.
  destruct (step_waiting s k o tid l Hwf Hw Hl) as [[Hw' Hf'] | (Hd & Hp' & Hf')].
  - destruct (IH (step s l) Hwf' Hw' Hls) as [[? ?] | (? & ? & ?)].
    + left. split; [done | congruence].
    + right. split; [done |]. split; [done | congruence].
  - right. destruct (exec_idle (step s l) k ls Hwf' Hp' Hls) as [Hp'' Hf''].
    fold (exec (step s l) ls). rewrite now_exec.
    assert (0 ≤ ticks ls).
    { clear. induction ls as [| [] ls IH]; simpl; lia. }
    assert (now s ≤ now (step s l)).
    { destruct l; simpl; rewrite ?now_run_task, ?now_schedule; lia. }
    split; [lia |]. split; [done | congruence].
Qed.

(** Before the window is over the entry cannot have fired. *)
Lemma exec_waiting_early (s : t) (k : key) (o : DebouncedMessage.t) (tid : nat)
    (ls : list label) :
  wf s → waiting s k o tid → Forall (quiet k) ls →
  now s + ticks ls < DebouncedMessage.last_update o
                     + TriggerConfig.debounce_seconds (DebouncedMessage.trigger o) →
  waiting (exec s ls) k o tid ∧ fired_for k (exec s ls) = fired_for k s.
Proof.
  intros Hwf Hw Hq Hearly.
  destruct (exec_waiting s k o tid ls Hwf Hw Hq) as [? | (Hd & _)]; [done |].
  rewrite now_exec in Hd. lia.
Qed.

End DebounceBurst.

Section DebounceCoalescing.
Import DebounceManager Debounce.

(** The first message of a burst. *)
Lemma schedule_new (s : t) (c : Z) (tr : TriggerConfig.t) (m : message) :
  wf s → _pending s !! _key c tr = None →
  let o := DebouncedMessage.mk c tr (text m) (captured m) (mid m) (now s)
             (Some (next_task s)) in
  let s' := (schedule s c tr (text m) (captured m) (mid m)).2 in
  (schedule s c tr (text m) (captured m) (mid m)).1 = true
  ∧ waiting s' (_key c tr) o (next_task s)
  ∧ fired s' = fired s
  ∧ _pending s' = <[_key c tr := next_loc s]> (_pending s)
  ∧ next_loc s' = S (next_loc s).
Proof.
  intros Hwf Hk. simpl. unfold schedule. rewrite Hk. simpl.
  repeat split.
  exists (next_loc s), (Created (_key c tr)). simpl. rewrite !lookup_insert_eq. done.
Qed.

(** A further message of a burst. *)
Lemma schedule_again (s : t) (c : Z) (tr : TriggerConfig.t) (m : message)
    (o : DebouncedMessage.t) (tid : nat) :
  wf s → waiting s (_key c tr) o tid →
  let o' := DebouncedMessage.mk (DebouncedMessage.chat_id o) (DebouncedMessage.trigger o)
              (text m) (captured m) (mid m) (now s) (Some (next_task s)) in
  let s' := (schedule s c tr (text m) (captured m) (mid m)).2 in
  (schedule s c tr (text m) (captured m) (mid m)).1 = false
  ∧ waiting s' (_key c tr) o' (next_task s)
  ∧ fired s' = fired s
  ∧ _pending s' = _pending s.
Proof.
  intros Hwf (p & st & Hp & Ho & Ht & Hst & Hk). simpl.
  unfold schedule. rewrite Hp, Ho. simpl. repeat split.
  exists p, (Created (_key c tr)). simpl. rewrite !lookup_insert_eq. done.
Qed.

Lemma waiting_coalesced (s : t) (k : key) (o : DebouncedMessage.t) (tid : nat) :
  wf s → waiting s k o tid →
  coalesced k (DebouncedMessage.chat_id o) (DebouncedMessage.trigger o) (content o)
    (fired_for k s) s.
Proof.
  intros Hwf Hw. unfold coalesced.
  pose proof Hw as (p & st & Hp & Ho & Ht & _). rewrite Hp.
  exists o, tid. repeat split; try done.
  - destruct (run_own s k o tid Hwf Hw) as [(_ & ? & _) | (? & _)]; [done | lia].
  - destruct (run_own s k o tid Hwf Hw) as [(_ & _ & ?) | (? & _)]; [done | lia].
Qed.

(** After its last message a burst is coalesced, whatever else happens. *)
Lemma waiting_exec_coalesced (s : t) (k : key) (o : DebouncedMessage.t) (tid : nat)
    (ls : list label) :
  wf s → waiting s k o tid → Forall (quiet k) ls →
  coalesced k (DebouncedMessage.chat_id o) (DebouncedMessage.trigger o) (content o)
    (fired_for k s) (exec s ls).
Proof.
  intros Hwf Hw Hq.
  destruct (exec_waiting s k o tid ls Hwf Hw Hq) as [[Hw' Hf'] | (_ & Hp' & Hf')].
  - rewrite <- Hf'. apply (waiting_coalesced _ _ _ tid); [by apply wf_exec | done].
  - unfold coalesced. rewrite Hp'. by exists o.
Qed.

(** The messages of a burst after the first. *)
Lemma burst_tail (c : Z) (tr : TriggerConfig.t) (ms : list (message * list label))
    (m_last : message) (after : list label) (s : t) (o : DebouncedMessage.t)
    (tid : nat) :
  wf s → waiting s (_key c tr) o tid →
  DebouncedMessage.chat_id o = c → DebouncedMessage.trigger o = tr →
  Forall (λ me, Forall (quiet (_key c tr)) me.2
                ∧ ticks me.2 < TriggerConfig.debounce_seconds tr) ms →
  Forall (quiet (_key c tr)) after →
  let r := run_burst s c tr (ms ++ [(m_last, after)]) in
  r.2 = replicate (S (length ms)) false
  ∧ wf r.1
  ∧ coalesced (_key c tr) c tr m_last (fired_for (_key c tr) s) r.1.
Proof.
  simpl. revert s o tid.
  induction ms as [| [m env] ms IH]; intros s o tid Hwf Hw Hc Htr Hms Hafter.
  - simpl.
    destruct (schedule_again s c tr m_last o tid Hwf Hw) as (Hr & Hw' & Hf' & _).
    pose proof (wf_schedule s c tr (text m_last) (captured m_last) (mid m_last) Hwf) as Hwf'.
    destruct (schedule s c tr (text m_last) (captured m_last) (mid m_last))
      as [r s1] eqn:Hs. simpl in *. subst r.
    split; [done |]. split; [by apply wf_exec |].
    pose proof (waiting_exec_coalesced s1 _ _ _ after Hwf' Hw' Hafter) as Hco.
    simpl in Hco. rewrite Hc, Htr in Hco. destruct m_last.
    unfold fired_for in *. by rewrite Hf' in Hco.
  - apply Forall_cons in Hms as [[Hq Hearly] Hms]. simpl in Hq, Hearly.
    destruct (schedule_again s c tr m o tid Hwf Hw) as (Hr & Hw' & Hf' & _).
    pose proof (wf_schedule s c tr (text m) (captured m) (mid m) Hwf) as Hwf'.
    pose proof (now_schedule s c tr (text m) (captured m) (mid m)) as Hnow.
    simpl. destruct (schedule s c tr (text m) (captured m) (mid m)) as [r s1] eqn:Hs.
    simpl in *. subst r.
    destruct (exec_waiting_early s1 _ _ _ env Hwf' Hw' Hq) as [Hw2 Hf2].
    { simpl. rewrite Htr. lia. }
    specialize (IH (exec s1 env) _ _ (wf_exec s1 env Hwf') Hw2 Hc Htr Hms Hafter).
    destruct (run_burst (exec s1 env) c tr (ms ++ [(m_last, after)])) as [s2 rs].
    simpl in *. destruct IH as (-> & Hwf2 & Hco). split; [done |]. split; [done |].
    unfold fired_for in *. by rewrite Hf2, Hf' in Hco.
Qed.

(** A whole burst, from a state in which the key has no entry. *)
Lemma burst_coalesces (c : Z) (tr : TriggerConfig.t) (ms : list (message * list label))
    (m_last : message) (after : list label) (s : t) :
  wf s → _pending s !! _key c tr = None →
  Forall (λ me, Forall (quiet (_key c tr)) me.2
                ∧ ticks me.2 < TriggerConfig.debounce_seconds tr) ms →
  Forall (quiet (_key c tr)) after →
  let r := run_burst s c tr (ms ++ [(m_last, after)]) in
  r.2 = true :: replicate (length ms) false
  ∧ wf r.1
  ∧ coalesced (_key c tr) c tr m_last (fired_for (_key c tr) s) r.1.
Proof.
  simpl. intros Hwf Hk Hms Hafter. destruct ms as [| [m env] ms].
  - simpl.
    destruct (schedule_new s c tr m_last Hwf Hk) as (Hr & Hw' & Hf' & _).
    pose proof (wf_schedule s c tr (text m_last) (captured m_last) (mid m_last) Hwf) as Hwf'.
    destruct (schedule s c tr (text m_last) (captured m_last) (mid m_last))
      as [r s1] eqn:Hs. simpl in *. subst r.
    split; [done |]. split; [by apply wf_exec |].
    pose proof (waiting_exec_coalesced s1 _ _ _ after Hwf' Hw' Hafter) as Hco.
    simpl in Hco. destruct m_last. unfold fired_for in *. by rewrite Hf' in Hco.
  - apply Forall_cons in Hms as [[Hq Hearly] Hms]. simpl in Hq, Hearly.
    destruct (schedule_new s c tr m Hwf Hk) as (Hr & Hw' & Hf' & _).
    pose proof (wf_schedule s c tr (text m) (captured m) (mid m) Hwf) as Hwf'.
    pose proof (now_schedule s c tr (text m) (captured m) (mid m)) as Hnow.
    simpl. destruct (schedule s c tr (text m) (captured m) (mid m)) as [r s1] eqn:Hs.
    simpl in *. subst r.
    destruct (exec_waiting_early s1 _ _ _ env Hwf' Hw' Hq) as [Hw2 Hf2].
    { simpl. lia. }
    pose proof (burst_tail c tr ms m_last after (exec s1 env) _ _
                  (wf_exec s1 env Hwf') Hw2 eq_refl eq_refl Hms Hafter) as Htail.
    destruct (run_burst (exec s1 env) c tr (ms ++ [(m_last, after)])) as [s2 rs].
    simpl in *. destruct Htail as (-> & Hwf2 & Hco). split; [done |]. split; [done |].
    unfold fired_for in *. by rewrite Hf2, Hf' in Hco.
Qed.

End DebounceCoalescing.

Section DebounceClaims.
Import DebounceManager Debounce.

(** C3. In any state the manager can reach, take a key without an entry
    and a burst of N >= 1 [schedule] calls for its (chat, rule), each made
    before the window opened by the previous one is over: the first call
    returns [True] and the others [False]; whatever else happens
    afterwards, the callback is called for the key at most once more, with
    the content of the last message, and it is called as soon as the
    entry's task is resumed with the window over. Once it has been called,
    a further burst for the same key starts afresh and leads to a second
    call, with the last content of that burst. *)
Theorem debounce_burst_fires_once_with_last (t0 : Z) (history : list label)
    (c : Z) (tr : TriggerConfig.t)
    (first : list (message * list label)) (m1 : message) (after1 : list label)
    (second : list (message * list label)) (m2 : message) (after2 : list label) :
  let s := exec (init t0) history in
  let k := _key c tr in
  let early := λ me : message * list label,
    Forall (quiet k) me.2 ∧ ticks me.2 < TriggerConfig.debounce_seconds tr in
  _pending s !! k = None →
  Forall early first → Forall (quiet k) after1 →
  Forall early second → Forall (quiet k) after2 →
  let r1 := run_burst s c tr (first ++ [(m1, after1)]) in
  r1.2 = true :: replicate (length first) false
  ∧ coalesced k c tr m1 (fired_for k s) r1.1
  ∧ (_pending r1.1 !! k = None →
     let r2 := run_burst r1.1 c tr (second ++ [(m2, after2)]) in
     r2.2 = true :: replicate (length second) false
     ∧ ∃ o1, fired_for k r1.1 = fired_for k s ++ [o1] ∧ content o1 = m1
             ∧ coalesced k c tr m2 (fired_for k s ++ [o1]) r2.1).
Proof.
  intros s k early Hk Hfirst Hafter1 Hsecond Hafter2 r1.
  pose proof (wf_exec (init t0) history (wf_init t0)) as Hwf. fold s in Hwf.
  destruct (burst_coalesces c tr first m1 after1 s Hwf Hk Hfirst Hafter1)
    as (Hr1 & Hwf1 & Hco1).
  fold r1 in Hr1, Hwf1, Hco1. fold k in Hco1.
  split; [done |]. split; [done |].
  intros Hgone r2.
  destruct (burst_coalesces c tr second m2 after2 r1.1 Hwf1 Hgone Hsecond Hafter2)
    as (Hr2 & _ & Hco2).
  fold r2 in Hr2, Hco2. fold k in Hco2.
  split; [done |].
  unfold coalesced in Hco1. rewrite Hgone in Hco1.
  destruct Hco1 as (o1 & Hf1 & Hc1 & _).
  exists o1. split; [done |]. split; [done |]. by rewrite <- Hf1.
Qed.

(** The scenario of the specification: "/ask a", "/ask ab" two seconds
    later, "/ask abc" one second later, rule with a window of five
    seconds. *)
Lemma debounce_burst_fires_once_with_last_witness :
  let tr := TriggerConfig.mk "@alice" "^/ask (.+)$" "claude" "inline" None 5 None in
  let k := _key 7 tr in
  let first := [(mkMessage "/ask a" (Some "a") (Some 1), [Run 0%nat; Tick 2]);
                (mkMessage "/ask ab" (Some "ab") (Some 2), [Run 1%nat; Tick 1])] in
  let m1 := mkMessage "/ask abc" (Some "abc") (Some 3) in
  let after1 := [Run 2%nat; Tick 5; Run 2%nat] in
  let m2 := mkMessage "/ask again" (Some "again") (Some 4) in
  let after2 := [Tick 9; Run 3%nat] in
  let r1 := run_burst (init 0) 7 tr (first ++ [(m1, after1)]) in
  r1.2 = [true; false; false]
  ∧ coalesced k 7 tr m1 [] r1.1
  ∧ (_pending r1.1 !! k = None →
     let r2 := run_burst r1.1 7 tr ([] ++ [(m2, after2)]) in
     r2.2 = [true]
     ∧ ∃ o1, fired_for k r1.1 = [] ++ [o1] ∧ content o1 = m1
             ∧ coalesced k 7 tr m2 ([] ++ [o1]) r2.1).
Proof.
  intros tr k first m1 after1 m2 after2.
  apply (debounce_burst_fires_once_with_last 0 [] 7 tr first m1 after1 [] m2 after2).
  - reflexivity.
  - repeat constructor; simpl; lia.
  - repeat constructor.
  - constructor.
  - repeat constructor.
Defined.

(** In that scenario the callback is called once, with "abc". *)
Example debounce_scenario_fires_abc :
  let tr := TriggerConfig.mk "@alice" "^/ask (.+)$" "claude" "inline" None 5 None in
  fired (exec (init 0)
           [Schedule 7 tr "/ask a" (Some "a") (Some 1); Run 0%nat; Tick 2;
            Schedule 7 tr "/ask ab" (Some "ab") (Some 2); Run 1%nat; Tick 1;
            Schedule 7 tr "/ask abc" (Some "abc") (Some 3); Run 2%nat;
            Tick 4; Run 2%nat; Run 0%nat; Run 1%nat; Tick 1; Run 2%nat; Tick 9; Run 2%nat])
  = [DebouncedMessage.mk 7 tr "/ask abc" (Some "abc") (Some 3) 3 (Some 2%nat)].
Proof. vm_compute. reflexivity. Qed.

End DebounceClaims.

Section DebounceKeys.
Import DebounceManager Debounce.

Lemma timer_only_quiet (k : key) (ls : list label) :
  Forall timer_only ls → Forall (quiet k) ls.
Proof. intros H. eapply Forall_impl; [exact H |]. by intros []. Qed.

(** C10. [_key] is documented to give a unique key per chat and trigger
    but takes the rule's pattern only: two different rules that share a
    pattern get one key, against the specification, so that in one chat
    the second call continues the burst of the first, there is a single
    entry, and the message sent for the second rule is answered with the
    action of the first. *)
Lemma debounce_rules_sharing_a_pattern_collide :
  let t1 := TriggerConfig.mk "*" "^/ask" "claude" "inline" None 5 None in
  let t2 := TriggerConfig.mk "*" "^/ask" "reply" "new" (Some "ok") 5 None in
  let r1 := schedule (init 0) 7 t1 "/ask a" None (Some 1) in
  let r2 := schedule r1.2 7 t2 "/ask b" None (Some 2) in
  t1 ≠ t2
  ∧ _key 7 t1 = _key 7 t2
  ∧ r1.1 = true ∧ r2.1 = false
  ∧ map_to_list (_pending r2.2) = [((7, "^/ask"), 0%nat)]
  ∧ fired (exec r2.2 [Tick 5; Run 0%nat; Run 1%nat])
    = [DebouncedMessage.mk 7 t1 "/ask b" None (Some 2) 0 (Some 1%nat)].
Proof.
  vm_compute. repeat split; try reflexivity. discriminate.
Qed.

End DebounceKeys.

(** ** Runner: shutdown *)

Section Shutdown.
Import DebounceManager Debounce.

Lemma cancel_task_halted (tasks : gmap nat task_state) (task : option nat) (tid : nat) :
  halted tasks tid ∨ task = Some tid → halted (cancel_task tasks task).1 tid.
Proof.
  unfold halted. rewrite cancel_task_lookup. intros [H | ->].
  - destruct (_ && _); auto.
  - rewrite bool_decide_eq_true_2 by done. simpl. unfold done.
    destruct (tasks !! tid) as [[] |]; simpl; auto.
Qed.

Lemma cancel_values_halted (h : gmap nat DebouncedMessage.t) (values : list nat)
    (tasks : gmap nat task_state) (tid : nat) :
  halted tasks tid
  ∨ (∃ p o, p ∈ values ∧ h !! p = Some o ∧ DebouncedMessage.task o = Some tid) →
  halted (cancel_values h values tasks).1 tid.
Proof.
  revert tasks. induction values as [| p values IH]; intros tasks Hcase.
  - destruct Hcase as [H | (p & o & Hp & _)]; [done | by apply elem_of_nil in Hp].
  - simpl. destruct (h !! p) as [pending |] eqn:Hp.
    + destruct (cancel_task tasks (DebouncedMessage.task pending)) as [tasks1 called] eqn:Hc.
      specialize (IH tasks1).
      destruct (cancel_values h values tasks1) as [tasks2 cancelled]. simpl in *.
      apply IH. clear IH.
      pose proof (cancel_task_halted tasks (DebouncedMessage.task pending) tid) as Hh.
      rewrite Hc in Hh. simpl in Hh.
      destruct Hcase as [H | (p' & o & Hin & Ho & Ht)]; [auto |].
      apply elem_of_cons in Hin as [-> | Hin].
      * left. apply Hh. right. congruence.
      * right. eauto.
    + apply IH. destruct Hcase as [H | (p' & o & Hin & Ho & Ht)]; [auto |].
      apply elem_of_cons in Hin as [-> | Hin]; [congruence | right; eauto].
Qed.

(** [cancel_all] empties the map and asks every pending timer to stop. *)
Lemma cancel_all_spec (s : t) :
  let s' := (cancel_all s).1.2 in
  _pending s' = ∅ ∧ fired s' = fired s
  ∧ ∀ k p o tid, _pending s !! k = Some p → heap s !! p = Some o →
                 DebouncedMessage.task o = Some tid → halted (tasks s') tid.
Proof.
  unfold cancel_all.
  pose proof (cancel_values_halted (heap s) (snd <$> map_to_list (_pending s)) (tasks s))
    as Hh.
  destruct (cancel_values (heap s) (snd <$> map_to_list (_pending s)) (tasks s))
    as [tasks1 cancelled]. simpl in *.
  split; [done |]. split; [done |].
  intros k p o tid Hk Ho Ht. apply Hh. right. exists p, o. split; [| done].
  apply list_elem_of_fmap. exists (k, p). split; [done |].
  by apply elem_of_map_to_list.
Qed.

(** With an empty map no task reaches the callback. *)
Lemma no_fire_when_empty (s : t) (ls : list label) :
  _pending s = ∅ → Forall timer_only ls →
  fired (exec s ls) = fired s ∧ _pending (exec s ls) = ∅.
Proof.
  revert s. induction ls as [| l ls IH]; intros s Hempty Hls; [done |].
  apply Forall_cons in Hls as [Hl Hls]. simpl.
  assert (Hstep : fired (step s l) = fired s ∧ _pending (step s l) = ∅).
  { destruct l as [dt | tid |]; [done | | done]. simpl.
    unfold run_task, wait_loop, fire. rewrite Hempty.
    repeat (match goal with
            | |- context [match ?x with _ => _ end] => destruct x eqn:?
            end; simpl; try done);
      rewrite lookup_empty in *; discriminate. }
  destruct Hstep as [Hf Hp]. destruct (IH (step s l) Hp Hls) as [Hf' Hp'].
  split; [congruence | done].
Qed.

(** C9, as the code has it. [stop] asks every pending debounce timer to
    stop, then closes the connection, then writes the session table; once
    it has run, no debounce callback is called any more. When the write
    fails, the first two steps have been done all the same and [stop] lets
    the [OSError] through. *)
Theorem stop_cancels_disconnects_then_saves (d : Daemon.t) (b : ClaudeBridge.t)
    (path : string) (disk : write_outcome) (ls : list label) :
  Daemon._client d = true →
  Daemon._bridge d = Some b →
  ClaudeBridge.sessions_file b = Some path →
  Forall timer_only ls →
  let r := (Daemon.stop d disk).1 in
  match disk with
  | Written =>
      (Daemon.stop d disk).2 = Ret ()
      ∧ ∃ tids, r.2 = (EvCancelTask <$> tids)
                      ++ [EvDisconnect; EvWriteSessions path (ClaudeBridge.sessions b)]
  | WriteFailed msg =>
      (Daemon.stop d disk).2 = Raise (OSError msg)
      ∧ ∃ tids, r.2 = (EvCancelTask <$> tids) ++ [EvDisconnect]
  end
  ∧ Daemon._running r.1 = false
  ∧ _pending (Daemon._debounce r.1) = ∅
  ∧ (∀ k p o tid,
       _pending (Daemon._debounce d) !! k = Some p →
       heap (Daemon._debounce d) !! p = Some o →
       DebouncedMessage.task o = Some tid →
       halted (tasks (Daemon._debounce r.1)) tid)
  ∧ fired (exec (Daemon._debounce r.1) ls) = fired (Daemon._debounce d).
Proof.
  intros Hc Hb Hfile Hls. simpl. unfold Daemon.stop.
  destruct (cancel_all_spec (Daemon._debounce d)) as (Hempty & Hfired & Hhalt).
  destruct (cancel_all (Daemon._debounce d)) as [[n s'] tids]. simpl in *.
  rewrite Hc, Hb. unfold ClaudeBridge.save_sessions. rewrite Hfile.
  assert (Hquiet : fired (exec s' ls) = fired (Daemon._debounce d)).
  { destruct (no_fire_when_empty s' ls Hempty Hls) as [Hf _]. congruence. }
  destruct disk as [| msg]; simpl.
  - split; [split; [done | exists tids; by rewrite <- app_assoc] |]. done.
  - split; [split; [done | by exists tids] |]. done.
Qed.

Lemma stop_cancels_disconnects_then_saves_witness :
  let tr := TriggerConfig.mk "*" "^/ask (.+)$" "claude" "inline" None 5 None in
  let b := ClaudeBridge.init (ClaudeConfig.mk [] 10 300) (Some "sessions.json") 1 10 in
  let d := Daemon.mk true true (Some b)
             (schedule (init 0) 7 tr "/ask a" (Some "a") (Some 1)).2 in
  let ls := [Tick 5; Run 0%nat] in
  let r := (Daemon.stop d Written).1 in
  ((Daemon.stop d Written).2 = Ret ()
   ∧ ∃ tids, r.2 = (EvCancelTask <$> tids)
                   ++ [EvDisconnect; EvWriteSessions "sessions.json" ∅])
  ∧ Daemon._running r.1 = false
  ∧ _pending (Daemon._debounce r.1) = ∅
  ∧ (∀ k p o tid,
       _pending (Daemon._debounce d) !! k = Some p →
       heap (Daemon._debounce d) !! p = Some o →
       DebouncedMessage.task o = Some tid →
       halted (tasks (Daemon._debounce r.1)) tid)
  ∧ fired (exec (Daemon._debounce r.1) ls) = fired (Daemon._debounce d).
Proof.
  intros tr b d ls.
  apply (stop_cancels_disconnects_then_saves d b "sessions.json" Written ls).
  - reflexivity.
  - reflexivity.
  - reflexivity.
  - repeat constructor.
Defined.

(** C9 as the spec states it fails: the connection is closed before the
    session table is written, not after. *)
Lemma stop_disconnects_before_saving :
  let tr := TriggerConfig.mk "*" "^/ask (.+)$" "claude" "inline" None 5 None in
  let b := ClaudeBridge.init (ClaudeConfig.mk [] 10 300) (Some "sessions.json") 1 10 in
  let d := Daemon.mk true true (Some b)
             (schedule (init 0) 7 tr "/ask a" (Some "a") (Some 1)).2 in
  (Daemon.stop d Written).1.2
  = [EvCancelTask 0; EvDisconnect; EvWriteSessions "sessions.json" ∅].
Proof. vm_compute. reflexivity. Qed.

End Shutdown.

(** * Further properties *)

(** ** Event router *)

Lemma lower_char_idem (c : ascii) :
  PyStr.lower_char (PyStr.lower_char c) = PyStr.lower_char c.
Proof. by destruct c as [[] [] [] [] [] [] [] []]. Qed.

Lemma lower_upper_char (c : ascii) :
  PyStr.lower_char (PyStr.upper_char c) = PyStr.lower_char c.
Proof. by destruct c as [[] [] [] [] [] [] [] []]. Qed.

Lemma lower_idem (s : string) : PyStr.lower (PyStr.lower s) = PyStr.lower s.
Proof.
  induction s as [| c s IH]; [done |].
  unfold PyStr.lower in *. simpl. by rewrite lower_char_idem, IH.
Qed.

Lemma lower_upper (s : string) : PyStr.lower (PyStr.upper s) = PyStr.lower s.
Proof.
  induction s as [| c s IH]; [done |].
  unfold PyStr.lower, PyStr.upper in *. simpl. by rewrite lower_upper_char, IH.
Qed.

Section RouterMore.
Variable re_match : string → string → option ReMatch.

(** X1. Routing does not depend on the case of the chat name: two names
    that agree once lowered are routed alike, so a name, its upper-case
    and its lower-case form all reach the same rule. *)
Theorem match_ignores_chat_name_case (triggers : list TriggerConfig.t)
    (name1 name2 message_text : string) :
  PyStr.lower name1 = PyStr.lower name2 →
  EventRouter.match_ re_match triggers name1 message_text
  = EventRouter.match_ re_match triggers name2 message_text.
Proof.
  intros Hcase. induction triggers as [| t ts IH]; [done |].
  simpl. unfold TriggerConfig.matches_chat. by rewrite Hcase, IH.
Qed.

Lemma match_append (ts1 ts2 : list TriggerConfig.t) (chat_name message_text : string) :
  EventRouter.match_ re_match (ts1 ++ ts2) chat_name message_text
  = match EventRouter.match_ re_match ts1 chat_name message_text with
    | Some r => Some r
    | None => EventRouter.match_ re_match ts2 chat_name message_text
    end.
Proof.
  induction ts1 as [| t ts IH]; [done |].
  simpl. destruct (negb (TriggerConfig.matches_chat t chat_name)); [done |].
  by destruct (TriggerConfig.match_message re_match t message_text).
Qed.

(** X2. Routing over two rule lists put end to end is routing over the
    first and, only when it has no rule for the event, over the second:
    rules added at the end never take an event from an earlier rule. *)
Theorem match_app (ts1 ts2 : list TriggerConfig.t) (chat_name message_text : string) :
  EventRouter.match_ re_match (ts1 ++ ts2) chat_name message_text
  = match EventRouter.match_ re_match ts1 chat_name message_text with
    | Some r => Some r
    | None => EventRouter.match_ re_match ts2 chat_name message_text
    end.
Proof. apply match_append. Qed.

End RouterMore.

Lemma match_ignores_chat_name_case_witness :
  let literal := λ p text : string,
    if String.prefix p text then Some (mkReMatch p []) else None in
  let triggers := [TriggerConfig.mk "Test Group" "@Bot" "claude" "new" None 0 None] in
  EventRouter.match_ literal triggers "TEST GROUP" "@Bot hi"
  = EventRouter.match_ literal triggers "test group" "@Bot hi".
Proof.
  intros literal triggers.
  apply (match_ignores_chat_name_case literal triggers "TEST GROUP" "test group").
  reflexivity.
Defined.

(** ** Action dispatch and reply *)

(** X3. The dispatcher calls the bridge for the "claude" action only, and
    then with the captured text when there is a non-empty one and the whole
    message otherwise, the chat id and the rule's system prompt: for any
    other action the result is the same whatever the bridge would answer,
    and for "claude" it depends on the bridge's answer to that one call. *)
Theorem handle_calls_bridge_only_for_claude (send1 send2 : MessageHandler.bridge_send)
    (trigger : TriggerConfig.t) (chat_id : Z) (message_text : string)
    (captured_text : option string) (message_id : option Z) :
  let prompt := if PyStr.opt_truthy captured_text
                then default EmptyString captured_text else message_text in
  (TriggerConfig.action trigger ≠ "claude"
   ∨ send1 prompt chat_id (TriggerConfig.system_prompt trigger)
     = send2 prompt chat_id (TriggerConfig.system_prompt trigger)) →
  MessageHandler.handle send1 trigger chat_id message_text captured_text message_id
  = MessageHandler.handle send2 trigger chat_id message_text captured_text message_id.
Proof.
  intros prompt Hcase. unfold MessageHandler.handle.
  destruct (String.eqb_spec (TriggerConfig.action trigger) "ignore"); [done |].
  destruct (String.eqb_spec (TriggerConfig.action trigger) "reply"); [done |].
  destruct (String.eqb_spec (TriggerConfig.action trigger) "claude") as [Hc |]; [| done].
  destruct Hcase as [Hne | Heq]; [done |].
  assert (Hp : match captured_text with
               | Some c => if PyStr.truthy c then c else message_text
               | None => message_text
               end = prompt).
  { unfold prompt. destruct captured_text as [c |]; simpl; [| done].
    by destruct (PyStr.truthy c). }
  rewrite Hp. by rewrite Heq.
Qed.

Lemma handle_calls_bridge_only_for_claude_witness :
  let tr := TriggerConfig.mk "*" "^/ping$" "reply" "inline" (Some "pong") 0 None in
  let ok := λ (_ : string) (_ : Z) (_ : option string),
    ClaudeResponse.mk (PStr "hi") (PStr "s1") true PNone None in
  let ko := λ (_ : string) (_ : Z) (_ : option string),
    ClaudeResponse.failure (PStr "Timeout after 300s") None in
  MessageHandler.handle ok tr 7 "/ping" None (Some 3)
  = MessageHandler.handle ko tr 7 "/ping" None (Some 3).
Proof.
  intros tr ok ko.
  apply (handle_calls_bridge_only_for_claude ok ko tr 7 "/ping" None (Some 3)).
  left. discriminate.
Defined.

Lemma send_response_shape (d : Daemon.t) (chat_id : Z) (result : ActionResult.t) :
  match Daemon.send_response d chat_id result with
  | Ret evs =>
      evs = [] ∨ ∃ text reply_to, evs = [EvSendMessage chat_id (PStr text) reply_to]
  | Raise _ => True
  end.
Proof.
  unfold Daemon.send_response.
  destruct (ActionResult.should_reply _ && Py.truthy _); [| by left].
  destruct (ActionResult.response _) as [| | | | text | |]; try done.
  destruct (Daemon.is_skip text); [by left |].
  destruct (Daemon._client d); [| done]. right. eauto.
Qed.

(** X4. Whatever the rule and the bridge's answer, one action sends at
    most one chat message, and only to the chat the message came from. It
    sends none for the "ignore" action, for an action it does not know, and
    for a "claude" action whose bridge call failed. *)
Theorem execute_action_sends_at_most_one (d : Daemon.t) (send : MessageHandler.bridge_send)
    (trigger : TriggerConfig.t) (chat_id : Z) (message_text : string)
    (captured_text : option string) (message_id : option Z) :
  let prompt := if PyStr.opt_truthy captured_text
                then default EmptyString captured_text else message_text in
  let action := TriggerConfig.action trigger in
  let run := Daemon._execute_action d send trigger chat_id message_text
               captured_text message_id in
  match run with
  | Ret evs =>
      evs = [] ∨ ∃ text reply_to, evs = [EvSendMessage chat_id (PStr text) reply_to]
  | Raise _ => True
  end
  ∧ (action = "ignore"
     ∨ (action ≠ "reply" ∧ action ≠ "claude")
     ∨ (action = "claude"
        ∧ ClaudeResponse.success
            (send prompt chat_id (TriggerConfig.system_prompt trigger)) = false) →
     run = Ret []).
Proof.
  intros prompt action run. split.
  - unfold run, Daemon._execute_action. apply send_response_shape.
  - unfold run, action, Daemon._execute_action, MessageHandler.handle.
    assert (Hp : match captured_text with
                 | Some c => if PyStr.truthy c then c else message_text
                 | None => message_text
                 end = prompt).
    { unfold prompt. destruct captured_text as [c |]; simpl; [| done].
      by destruct (PyStr.truthy c). }
    rewrite Hp.
    destruct (String.eqb_spec (TriggerConfig.action trigger) "ignore") as [Hi | Hi].
    { intros _. reflexivity. }
    destruct (String.eqb_spec (TriggerConfig.action trigger) "reply") as [Hr | Hr].
    { intros [? | [[? _] | [Hc _]]]; try done. rewrite Hr in Hc. discriminate. }
    destruct (String.eqb_spec (TriggerConfig.action trigger) "claude") as [Hc | Hc].
    { intros [? | [[_ ?] | [_ Hfail]]]; try done. by rewrite Hfail. }
    intros _. reflexivity.
Qed.

Lemma execute_action_sends_at_most_one_witness :
  let d := Daemon.mk true true None (DebounceManager.init 0) in
  let tr := TriggerConfig.mk "*" "^/ask (.+)$" "claude" "inline" None 0 None in
  let ko := λ (_ : string) (_ : Z) (_ : option string),
    ClaudeResponse.failure (PStr "Timeout after 300s") None in
  Daemon._execute_action d ko tr 7 "/ask a" (Some "a") (Some 3) = Ret [].
Proof.
  intros d tr ko.
  apply (proj2 (execute_action_sends_at_most_one d ko tr 7 "/ask a" (Some "a") (Some 3))).
  right. right. split; reflexivity.
Defined.

Section RunnerEvents.
Variable re_match : string → string → option ReMatch.

(** X5. Handling one incoming event sends at most one chat message, to
    the chat of the event; it sends nothing when no rule matches, and
    nothing yet when the matching rule has a debounce window: the message
    is then handed to [schedule] under the event's chat id with the
    message's id. Without a window the debounce manager is left alone.
    The client attribute and the running flag are never assigned. *)
Theorem handle_message_sends_at_most_one (d : Daemon.t) (triggers : list TriggerConfig.t)
    (send : MessageHandler.bridge_send) (ev : Daemon.NewMessage) :
  let r := Daemon._handle_message re_match d triggers send ev in
  let routed := EventRouter.match_ re_match triggers (Daemon.event_chat_name ev)
                  (Daemon.event_text ev) in
  (r.2 = [] ∨ ∃ text reply_to,
      r.2 = [EvSendMessage (Daemon.event_chat_id ev) (PStr text) reply_to])
  ∧ Daemon._client r.1 = Daemon._client d
  ∧ Daemon._running r.1 = Daemon._running d
  ∧ match routed with
    | None => r = (d, [])
    | Some m =>
        if 0 <? TriggerConfig.debounce_seconds (rm_trigger m) then
          r.2 = []
          ∧ Daemon._debounce r.1
            = (DebounceManager.schedule (Daemon._debounce d) (Daemon.event_chat_id ev)
                 (rm_trigger m) (Daemon.event_text ev) (rm_captured_text m)
                 (Some (Daemon.message_ident ev))).2
        else Daemon._debounce r.1 = Daemon._debounce d
    end.
Proof.
  intros r routed. unfold r, Daemon._handle_message. fold routed.
  destruct routed as [m |]; [| simpl; auto].
  destruct (0 <? TriggerConfig.debounce_seconds (rm_trigger m)); [simpl; auto 10 |].
  unfold Daemon._execute_action.
  pose proof (send_response_shape d (Daemon.event_chat_id ev)
                (MessageHandler.handle send (rm_trigger m) (Daemon.event_chat_id ev)
                   (Daemon.event_text ev) (rm_captured_text m)
                   (Some (Daemon.message_ident ev)))) as Hone.
  destruct (Daemon.send_response d (Daemon.event_chat_id ev) _) as [evs | e];
    simpl; auto 10.
Qed.

(** X6. A "reply" rule without a debounce window that is the first to
    accept an event makes the daemon send its reply text, once, to the
    chat of the event: as a reply to the message when the rule's mode is
    "inline", as a new message otherwise. *)
Theorem handle_message_fixed_reply (d : Daemon.t) (before after : list TriggerConfig.t)
    (t : TriggerConfig.t) (send : MessageHandler.bridge_send) (ev : Daemon.NewMessage)
    (reply : string) :
  Daemon._client d = true →
  (∀ t', t' ∈ before →
     ¬ EventRouter.accepts re_match t' (Daemon.event_chat_name ev) (Daemon.event_text ev)) →
  EventRouter.accepts re_match t (Daemon.event_chat_name ev) (Daemon.event_text ev) →
  TriggerConfig.action t = "reply" →
  TriggerConfig.debounce_seconds t ≤ 0 →
  TriggerConfig.reply_text t = Some reply →
  reply ≠ EmptyString →
  Daemon.is_skip reply = false →
  Daemon._handle_message re_match d (before ++ t :: after) send ev
  = (d, [EvSendMessage (Daemon.event_chat_id ev) (PStr reply)
           (if String.eqb (TriggerConfig.reply_mode t) "inline"
            then Some (Daemon.message_ident ev) else None)]).
Proof.
  intros Hc Hbefore [Hchat [m Hm]] Haction Hdeb Hreply Hne Hskip.
  unfold Daemon._handle_message.
  assert (Hroute : EventRouter.match_ re_match (before ++ t :: after)
                     (Daemon.event_chat_name ev) (Daemon.event_text ev)
                   = Some (mkRouteMatch t (EventRouter.captured m) m)).
  { rewrite match_append.
    assert (Hnone : EventRouter.match_ re_match before (Daemon.event_chat_name ev)
                      (Daemon.event_text ev) = None).
    { clear -Hbefore. induction before as [| t' ts IH]; [done |].
      rewrite match_skip; [apply IH | apply Hbefore; by left].
      intros t'' Ht''. apply Hbefore. by right. }
    apply matches_chat_spec in Hchat.
    rewrite Hnone. simpl. unfold TriggerConfig.match_message. by rewrite Hchat, Hm. }
  rewrite Hroute. simpl.
  assert (Hd : (0 <? TriggerConfig.debounce_seconds t) = false) by (apply Z.ltb_ge; lia).
  rewrite Hd. unfold Daemon._execute_action, MessageHandler.handle.
  rewrite Haction. simpl. unfold Daemon.send_response. simpl.
  rewrite Hreply. simpl. rewrite Hskip, Hc.
  unfold MessageHandler.reply_target. by destruct reply.
Qed.

End RunnerEvents.

Lemma handle_message_fixed_reply_witness :
  let literal := λ p text : string,
    if String.eqb p text then Some (mkReMatch p []) else None in
  let d := Daemon.mk true true None (DebounceManager.init 0) in
  let t := TriggerConfig.mk "*" "/ping" "reply" "inline" (Some "pong") 0 None in
  let ev := Daemon.mkNewMessage None (Some "alice") 42 42 (Some "/ping") 3 in
  Daemon._handle_message literal d ([] ++ t :: []) (λ _ _ _, ClaudeBridge.queue_full) ev
  = (d, [EvSendMessage 42 (PStr "pong") (Some 3)]).
Proof.
  intros literal d t ev.
  apply (handle_message_fixed_reply literal d [] [] t _ ev "pong").
  - reflexivity.
  - intros t' Ht'. by apply elem_of_nil in Ht'.
  - split; [by left | by eexists].
  - reflexivity.
  - simpl. lia.
  - reflexivity.
  - discriminate.
  - reflexivity.
Defined.

(** ** Sessions: encoding and decoding *)

Lemma digit_pretty_N_char (n : N) :
  (n < 10)%N → PyInt.digit (pretty_N_char n) = Some (Z.of_N n).
Proof.
  intros Hn.
  assert (n = 0 ∨ n = 1 ∨ n = 2 ∨ n = 3 ∨ n = 4 ∨ n = 5 ∨ n = 6 ∨ n = 7 ∨ n = 8
          ∨ n = 9)%N as Hcases by lia.
  repeat (destruct Hcases as [-> | Hcases]; [reflexivity |]). by subst.
Qed.

Lemma is_space_pretty_N_char (n : N) : PyStr.is_space (pretty_N_char n) = false.
Proof. unfold pretty_N_char. by repeat case_match. Qed.

(** Reading back the digits that [pretty] writes in front of [s]. *)
Lemma digits_pretty_N_go (x : N) (s : string) (prev : bool) :
  (0 < x)%N →
  PyInt.digits 0 prev (pretty_N_go x s) = PyInt.digits (Z.of_N x) true s.
Proof.
  revert s prev. induction (N.lt_wf_0 x) as [x _ IH]; intros s prev Hx.
  rewrite pretty_N_go_step by done.
  assert (Hd : PyInt.digit (pretty_N_char (x `mod` 10)) = Some (Z.of_N (x `mod` 10))).
  { apply digit_pretty_N_char. by apply N.mod_lt. }
  assert (Hx10 : Z.of_N x = Z.of_N (x `div` 10) * 10 + Z.of_N (x `mod` 10)).
  { rewrite (N.div_mod x 10) at 1 by done. lia. }
  destruct (decide (x `div` 10 = 0)%N) as [H0 | Hpos].
  - rewrite H0, pretty_N_go_0. simpl. rewrite Hd. f_equal. rewrite Hx10, H0. lia.
  - rewrite IH; [| by apply N.div_lt | by apply N.neq_0_lt_0].
    simpl. rewrite Hd. by rewrite Hx10.
Qed.

Lemma pretty_N_go_head (x : N) (s : string) :
  (0 < x)%N →
  ∃ n r, (n < 10)%N ∧ pretty_N_go x s = String (pretty_N_char n) r.
Proof.
  revert s. induction (N.lt_wf_0 x) as [x _ IH]; intros s Hx.
  rewrite pretty_N_go_step by done.
  destruct (decide (x `div` 10 = 0)%N) as [H0 | Hpos].
  - rewrite H0, pretty_N_go_0. exists (x `mod` 10)%N, s. split; [| done].
    by apply N.mod_lt.
  - apply IH; [by apply N.div_lt | by apply N.neq_0_lt_0].
Qed.

Lemma pretty_N_go_no_space (x : N) (s : string) :
  Forall (λ c, PyStr.is_space c = false) (String.list_ascii_of_string s) →
  Forall (λ c, PyStr.is_space c = false) (String.list_ascii_of_string (pretty_N_go x s)).
Proof.
  revert s. induction (N.lt_wf_0 x) as [x _ IH]; intros s Hs.
  destruct (decide (0 < x)%N) as [Hx | Hx].
  - rewrite pretty_N_go_step by done. apply IH; [by apply N.div_lt |].
    simpl. constructor; [apply is_space_pretty_N_char | done].
  - assert (x = 0%N) as -> by lia. by rewrite pretty_N_go_0.
Qed.

Lemma strip_no_space (s : string) :
  Forall (λ c, PyStr.is_space c = false) (String.list_ascii_of_string s) →
  PyStr.strip s = s.
Proof.
  intros Hs. unfold PyStr.strip.
  assert (Hl : PyStr.lstrip s = s).
  { destruct s as [| c s]; [done |]. simpl in *. apply Forall_cons in Hs as [Hc _].
    by rewrite Hc. }
  rewrite Hl. induction s as [| c s IH]; [done |].
  simpl in *. apply Forall_cons in Hs as [Hc Hs]. rewrite IH.
  - destruct s; [by rewrite Hc | done].
  - done.
  - destruct s as [| c' s]; [done |]. simpl in *.
    apply Forall_cons in Hs as [Hc' _]. by rewrite Hc'.
Qed.

(** [int(str(n))] is [n]. *)
Lemma int_of_str_pretty (n : Z) : PyInt.of_str (pretty n) = Ret n.
Proof.
  unfold PyInt.of_str. destruct n as [| p | p].
  - reflexivity.
  - assert (Hp : pretty (Z.pos p) = pretty_N_go (N.pos p) EmptyString) by done.
    rewrite Hp. rewrite strip_no_space by (apply pretty_N_go_no_space; constructor).
    destruct (pretty_N_go_head (N.pos p) EmptyString) as (d & r & Hd & Hhead); [lia |].
    pose proof (digits_pretty_N_go (N.pos p) EmptyString false) as Hdig.
    rewrite Hhead in *.
    assert (Hbody : match String (pretty_N_char d) r with
                    | String "+" r' => PyInt.digits 0 false r'
                    | String "-" r' => Z.opp <$> PyInt.digits 0 false r'
                    | _ => PyInt.digits 0 false (String (pretty_N_char d) r)
                    end = PyInt.digits 0 false (String (pretty_N_char d) r)).
    { unfold pretty_N_char. by repeat case_match. }
    rewrite Hbody, Hdig by lia. reflexivity.
  - assert (Hp : pretty (Z.neg p) = String "-" (pretty_N_go (N.pos p) EmptyString)) by done.
    rewrite Hp. rewrite strip_no_space.
    + rewrite digits_pretty_N_go by lia. reflexivity.
    + simpl. constructor; [done |]. apply pretty_N_go_no_space. constructor.
Qed.

(** X7. A session written by [to_dict] is read back unchanged by
    [from_dict], whatever the time of reading. *)
Theorem session_dict_round_trip (s : ClaudeSession.t) (now : string) :
  ClaudeSession.from_dict (ClaudeSession.to_dict s) now = Ret s.
Proof. by destruct s. Qed.

Lemma load_items_saved (l : list (Z * ClaudeSession.t)) (now : string)
    (table : gmap Z ClaudeSession.t) :
  ClaudeBridge.load_items
    ((λ e : Z * ClaudeSession.t, (pretty e.1, ClaudeSession.to_dict e.2)) <$> l) now table
  = (foldl (λ t e, <[e.1 := e.2]> t) table l, Ret ()).
Proof.
  revert table. induction l as [| [k [c sid n created used]] l IH]; intros table; [done |].
  simpl. rewrite int_of_str_pretty. apply IH.
Qed.

Lemma foldl_insert_lookup (l : list (Z * ClaudeSession.t))
    (table : gmap Z ClaudeSession.t) (k : Z) :
  NoDup l.*1 →
  foldl (λ t e, <[e.1 := e.2]> t) table l !! k
  = (list_to_map l ∪ table : gmap Z ClaudeSession.t) !! k.
Proof.
  revert table. induction l as [| [k0 s0] l IH]; intros table Hnd.
  - simpl. by rewrite (left_id_L ∅ (∪)).
  - rewrite fmap_cons in Hnd. apply NoDup_cons in Hnd as [Hk0 Hnd]. simpl in Hk0.
    cbn [foldl list_to_map]. rewrite IH by done. simpl.
    rewrite !lookup_union. destruct (decide (k = k0)) as [-> | Hne].
    + rewrite !lookup_insert_eq.
      assert (Hn : (list_to_map l : gmap Z ClaudeSession.t) !! k0 = None)
        by (by apply not_elem_of_list_to_map_1).
      rewrite Hn. by destruct (table !! k0).
    + by rewrite !lookup_insert_ne.
Qed.

(** X8. What [save_sessions] writes, [load_sessions] reads back: loading
    the saved table into a bridge with a sessions file raises nothing,
    logs nothing, and gives every saved chat its saved session, keeping
    the bridge's own sessions for the other chats. A fresh bridge ends up
    with exactly the saved table. *)
Theorem sessions_save_load_round_trip (saved b : ClaudeBridge.t) (path now : string) :
  ClaudeBridge.sessions_file b = Some path →
  ClaudeBridge.load_sessions b (Some (Loaded (ClaudeBridge.save_data saved))) now
  = (ClaudeBridge.set_sessions b (ClaudeBridge.sessions saved ∪ ClaudeBridge.sessions b),
     [], Ret ()).
Proof.
  intros Hfile. unfold ClaudeBridge.load_sessions, ClaudeBridge.save_data.
  rewrite Hfile, load_items_saved. repeat f_equal.
  apply map_eq. intros k.
  rewrite foldl_insert_lookup by apply NoDup_fst_map_to_list.
  by rewrite list_to_map_to_list.
Qed.

Lemma sessions_save_load_round_trip_witness :
  let s7 := ClaudeSession.mk (PInt 7) (PStr "s1") (PInt 3) (PStr "t0") (PStr "t2") in
  let cfg := ClaudeConfig.mk [] 10 300 in
  let saved := ClaudeBridge.set_sessions
                 (ClaudeBridge.init cfg (Some "sessions.json") 1 10) {[ 7 := s7 ]} in
  let fresh := ClaudeBridge.init cfg (Some "sessions.json") 1 10 in
  ClaudeBridge.load_sessions fresh (Some (Loaded (ClaudeBridge.save_data saved))) "t3"
  = (ClaudeBridge.set_sessions fresh
       (ClaudeBridge.sessions saved ∪ ClaudeBridge.sessions fresh), [], Ret ()).
Proof.
  intros s7 cfg saved fresh.
  apply (sessions_save_load_round_trip saved fresh "sessions.json" "t3").
  reflexivity.
Defined.

(** ** Bridge: sessions and outcomes *)

(** X9. After [clear_session] the next command for that chat carries no
    resume flag, with or without a system prompt, while the commands for
    every other chat are what they were. *)
Theorem clear_session_forgets_one_chat (b : ClaudeBridge.t) (chat_id other : Z)
    (prompt : string) (system_prompt : option string) :
  other ≠ chat_id →
  ClaudeBridge._execute_cmd (ClaudeBridge.clear_session b chat_id) prompt chat_id
    system_prompt
  = [PStr "claude"; PStr "-p"; PStr prompt; PStr "--output-format"; PStr "json"]
    ++ (match system_prompt with
        | Some sp => if PyStr.truthy sp then [PStr "--system-prompt"; PStr sp] else []
        | None => []
        end)
    ++ (PStr <$> ClaudeConfig.build_cli_args (ClaudeBridge.config b))
  ∧ ClaudeBridge._execute_cmd (ClaudeBridge.clear_session b chat_id) prompt other
      system_prompt
    = ClaudeBridge._execute_cmd b prompt other system_prompt.
Proof.
  intros Hne. unfold ClaudeBridge._execute_cmd, ClaudeBridge.clear_session. simpl.
  rewrite lookup_delete_eq. by rewrite lookup_delete_ne.
Qed.

Lemma clear_session_forgets_one_chat_witness :
  let s7 := ClaudeSession.mk (PInt 7) (PStr "s1") (PInt 3) (PStr "t0") (PStr "t2") in
  let s8 := ClaudeSession.mk (PInt 8) (PStr "s2") (PInt 0) (PStr "t1") (PStr "t1") in
  let b := ClaudeBridge.set_sessions
             (ClaudeBridge.init (ClaudeConfig.mk [] 10 300) None 1 10)
             (<[ 7 := s7 ]> {[ 8 := s8 ]}) in
  ClaudeBridge._execute_cmd (ClaudeBridge.clear_session b 7) "hi" 7 None
  = [PStr "claude"; PStr "-p"; PStr "hi"; PStr "--output-format"; PStr "json"]
    ++ [] ++ (PStr <$> ClaudeConfig.build_cli_args (ClaudeBridge.config b))
  ∧ ClaudeBridge._execute_cmd (ClaudeBridge.clear_session b 7) "hi" 8 None
    = ClaudeBridge._execute_cmd b "hi" 8 None.
Proof.
  intros s7 s8 b.
  apply (clear_session_forgets_one_chat b 7 8 "hi" None). discriminate.
Defined.

(** X10. [_execute] reports success only for a subprocess that exited
    with code 0 and whose output [parse] marked successful, and then
    returns that parsed response; it kills the subprocess exactly when it
    timed out; and it never changes the admission counter or the permits. *)
Theorem execute_success_is_parsed_success (b : ClaudeBridge.t) (prompt : string)
    (chat_id : Z) (system_prompt : option string) (outcome : proc_outcome)
    (disk : write_outcome) (now later : string) :
  let r := ClaudeBridge._execute b prompt chat_id system_prompt outcome disk now later in
  (ClaudeResponse.success r.1.2 = true →
   ∃ stdout stdout_json stderr,
     outcome = Exited 0 stdout stdout_json stderr
     ∧ ClaudeResponse.parse stdout stdout_json = Ret r.1.2)
  ∧ (EvKill ∈ r.2 ↔ outcome = TimedOut)
  ∧ ClaudeBridge._queue_size r.1.1 = ClaudeBridge._queue_size b
  ∧ ClaudeBridge._semaphore r.1.1 = ClaudeBridge._semaphore b.
Proof.
  simpl. unfold ClaudeBridge._execute.
  pose proof (execute_finish_counters b chat_id outcome disk now later) as (Hq & Hs & _).
  destruct (ClaudeBridge._execute_finish b chat_id outcome disk now later) as [[b' r] evs] eqn:Hfin.
  simpl in *. split; [| split; [| done]].
  - intros Hok. unfold ClaudeBridge._execute_finish in Hfin.
    destruct outcome as [e | | rc out loaded err].
    + destruct e; injection Hfin as <- <- <-; discriminate Hok.
    + injection Hfin as <- <- <-. discriminate Hok.
    + destruct (rc =? 0) eqn:Hrc; simpl in Hfin;
        [| injection Hfin as <- <- <-; discriminate Hok].
      apply Z.eqb_eq in Hrc as ->.
      destruct (ClaudeResponse.parse out loaded) as [resp | e] eqn:Hparse;
        [| injection Hfin as <- <- <-; discriminate Hok].
      exists out, loaded, err. split; [done |]. f_equal.
      destruct (ClaudeResponse.success resp && Py.truthy (ClaudeResponse.session_id resp));
        [| by injection Hfin as <- <- <-].
      destruct (ClaudeBridge.sessions b !! chat_id) as [s |].
      * destruct (ClaudeSession.increment _ now);
          [| injection Hfin as <- <- <-; discriminate Hok].
        by apply save_then_return_inv in Hfin as (_ & _ & ->).
      * by apply save_then_return_inv in Hfin as (_ & _ & ->).
  - rewrite elem_of_cons. split.
    + intros [? | Hin]; [done |]. unfold ClaudeBridge._execute_finish in Hfin.
      destruct outcome as [e | | rc out loaded err]; [| done |].
      * destruct e; injection Hfin as <- <- <-; by apply elem_of_nil in Hin.
      * destruct (negb (rc =? 0));
          [injection Hfin as <- <- <-; by apply elem_of_nil in Hin |].
        destruct (ClaudeResponse.parse out loaded) as [resp | e];
          [| injection Hfin as <- <- <-; by apply elem_of_nil in Hin].
        destruct (ClaudeResponse.success resp && Py.truthy (ClaudeResponse.session_id resp));
          [| injection Hfin as <- <- <-; by apply elem_of_nil in Hin].
        destruct (ClaudeBridge.sessions b !! chat_id) as [s |].
        -- destruct (ClaudeSession.increment _ now);
             [| injection Hfin as <- <- <-; by apply elem_of_nil in Hin].
           by apply save_then_return_inv in Hfin as (_ & Hno & _).
        -- by apply save_then_return_inv in Hfin as (_ & Hno & _).
    + intros ->. injection Hfin as <- <- <-. right. by left.
Qed.

Lemma execute_success_is_parsed_success_witness :
  let b := ClaudeBridge.init (ClaudeConfig.mk [] 10 300) None 1 10 in
  let json := Loaded (PDict [("result", PStr "hi")]) in
  ∃ stdout stdout_json stderr,
    Exited 0 "{...}" json EmptyString = Exited 0 stdout stdout_json stderr
    ∧ ClaudeResponse.parse stdout stdout_json
      = Ret (ClaudeBridge._execute b "hello" 7 None
               (Exited 0 "{...}" json EmptyString) Written "t0" "t1").1.2.
Proof.
  intros b json.
  apply (proj1 (execute_success_is_parsed_success b "hello" 7 None
                  (Exited 0 "{...}" json EmptyString) Written "t0" "t1")).
  reflexivity.
Defined.

(** ** Response display *)

Lemma substring_length (n : nat) (s : string) :
  String.length (String.substring 0 n s) = Nat.min n (String.length s).
Proof.
  revert n. induction s as [| c s IH]; intros [| n]; simpl; try done.
  by rewrite IH.
Qed.

Lemma string_app_length (s1 s2 : string) :
  String.length (s1 +:+ s2) = (String.length s1 + String.length s2)%nat.
Proof. induction s1 as [| c s1 IH]; simpl; [done | by rewrite IH]. Qed.

Lemma substring_full (n : nat) (s : string) :
  (String.length s ≤ n)%nat → String.substring 0 n s = s.
Proof.
  revert n. induction s as [| c s IH]; intros [| n] Hn; simpl in *; try done; try lia.
  rewrite IH; [done | lia].
Qed.

(** X11. For a text result and a limit that is not negative, [truncated]
    returns a text of at most the limit plus three characters: the result
    itself when it fits, and otherwise its first [max_length] characters
    followed by "...". Without a result it returns the empty text. *)
Theorem truncated_is_bounded (r : ClaudeResponse.t) (text : string) (max_length : Z) :
  ClaudeResponse.result r = PStr text →
  0 ≤ max_length →
  ∃ out,
    ClaudeResponse.truncated r max_length = Ret (PStr out)
    ∧ Z.of_nat (String.length out) ≤ max_length + 3
    ∧ (Z.of_nat (String.length text) ≤ max_length → out = text)
    ∧ (max_length < Z.of_nat (String.length text) →
       out = String.substring 0 (Z.to_nat max_length) text +:+ "..."
       ∧ Z.of_nat (String.length out) = max_length + 3).
Proof.
  intros Hr Hmax. unfold ClaudeResponse.truncated. rewrite Hr.
  destruct text as [| c text].
  { exists EmptyString. simpl. repeat split; try lia; done. }
  cbn [Py.truthy PyStr.truthy negb].
  destruct (Z.of_nat (String.length (String c text)) <=? max_length) eqn:Hfit.
  - apply Z.leb_le in Hfit. exists (String c text). repeat split; try lia; done.
  - apply Z.leb_gt in Hfit. eexists. split; [reflexivity |].
    unfold ClaudeResponse.slice_to.
    assert (H0 : (0 <=? max_length) = true) by (apply Z.leb_le; lia). rewrite H0.
    assert (Hlen : Z.of_nat (String.length
                     (String.substring 0 (Z.to_nat max_length) (String c text) +:+ "..."))
                   = max_length + 3).
    { rewrite string_app_length, substring_length. simpl String.length at 2. lia. }
    repeat split; try lia; done.
Qed.

Lemma truncated_is_bounded_witness :
  ∃ out,
    ClaudeResponse.truncated
      (ClaudeResponse.mk (PStr "hello world") PNone true PNone None) 5
    = Ret (PStr out)
    ∧ Z.of_nat (String.length out) ≤ 5 + 3
    ∧ (Z.of_nat (String.length "hello world") ≤ 5 → out = "hello world")
    ∧ (5 < Z.of_nat (String.length "hello world") →
       out = String.substring 0 (Z.to_nat 5) "hello world" +:+ "..."
       ∧ Z.of_nat (String.length out) = 5 + 3).
Proof.
  apply (truncated_is_bounded
           (ClaudeResponse.mk (PStr "hello world") PNone true PNone None)
           "hello world" 5).
  - reflexivity.
  - lia.
Defined.

(** ** Core configuration *)

(** X12. The text form of a [Config] never shows the API hash: two
    configurations that differ only in a (non-empty) hash print alike. *)
Theorem config_str_hides_api_hash (c : Config.t) (hash1 hash2 : string) :
  hash1 ≠ EmptyString → hash2 ≠ EmptyString →
  Config.__str__ (Config.mk (Config.api_id c) (Some hash1) (Config.phone c)
                    (Config.allowed_send_groups c) (Config.config_dir c))
  = Config.__str__ (Config.mk (Config.api_id c) (Some hash2) (Config.phone c)
                      (Config.allowed_send_groups c) (Config.config_dir c)).
Proof.
  intros H1 H2. unfold Config.__str__. simpl.
  destruct hash1; [done |]. destruct hash2; [done |]. reflexivity.
Qed.

Lemma config_str_hides_api_hash_witness :
  let c := Config.mk (Some 12345) None (Some "+100") [] "/cfg" in
  Config.__str__ (Config.mk (Config.api_id c) (Some "0123abcd") (Config.phone c)
                    (Config.allowed_send_groups c) (Config.config_dir c))
  = Config.__str__ (Config.mk (Config.api_id c) (Some "ffff9999") (Config.phone c)
                      (Config.allowed_send_groups c) (Config.config_dir c)).
Proof.
  intros c. apply (config_str_hides_api_hash c "0123abcd" "ffff9999"); discriminate.
Defined.

(** ** Bridge: bounds under concurrent callers *)

Lemma count_snoc (f : ClaudeBridge.call → bool) (cs : list ClaudeBridge.call)
    (c : ClaudeBridge.call) :
  Z.of_nat (length (filter (λ c, f c = true) (cs ++ [c])))
  = Z.of_nat (length (filter (λ c, f c = true) cs)) + Z.b2z (f c).
Proof.
  rewrite filter_app, length_app, filter_cons, filter_nil.
  destruct (f c); case_decide; simpl; try congruence; lia.
Qed.

Lemma count_insert (f : ClaudeBridge.call → bool) (cs : list ClaudeBridge.call)
    (i : nat) (c c' : ClaudeBridge.call) :
  cs !! i = Some c →
  Z.of_nat (length (filter (λ c, f c = true) (<[i := c']> cs)))
  = Z.of_nat (length (filter (λ c, f c = true) cs)) - Z.b2z (f c) + Z.b2z (f c').
Proof.
  revert i. induction cs as [| x cs IH]; intros i Hi; [done |].
  destruct i as [| i]; simpl in *.
  - injection Hi as ->. rewrite !filter_cons.
    destruct (f c) eqn:Hc, (f c') eqn:Hc';
      repeat case_decide; simpl; try congruence; lia.
  - rewrite !filter_cons. specialize (IH i Hi).
    case_decide; simpl in *; lia.
Qed.

(** X13. Under any interleaving of [send] calls on a bridge built with
    [max_concurrent >= 0], the permits left are [max_concurrent] minus the
    number of running subprocesses: never more than [max_concurrent]
    subprocesses run at once, and a permit is held by a running subprocess
    only. *)
Theorem running_bounded_by_max_concurrent (cfg : ClaudeConfig.t) (file : option string)
    (max_concurrent max_queue_size : Z) (acts : list BridgeLoop.action) :
  0 ≤ max_concurrent →
  let s := BridgeLoop.run
             (BridgeLoop.start (ClaudeBridge.init cfg file max_concurrent max_queue_size))
             acts in
  ClaudeBridge._semaphore (BridgeLoop.bridge s) = max_concurrent - BridgeLoop.running s
  ∧ 0 ≤ BridgeLoop.running s ≤ max_concurrent.
Proof.
  intros Hmc s.
  cut (ClaudeBridge._semaphore (BridgeLoop.bridge s) = max_concurrent - BridgeLoop.running s
       ∧ 0 ≤ ClaudeBridge._semaphore (BridgeLoop.bridge s)).
  { intros [Heq Hpos]. split; [done |]. unfold BridgeLoop.running in *. lia. }
  unfold s. clear s. induction acts as [| a acts IH] using rev_ind.
  - simpl. unfold BridgeLoop.running. simpl. lia.
  - unfold BridgeLoop.run in *. rewrite foldl_app. simpl.
    set (s := foldl BridgeLoop.step _ acts) in *.
    destruct IH as [IHs IHp]. unfold BridgeLoop.running in *.
    destruct a as [prompt chat_id sp | i | i outcome disk now later]; simpl.
    + unfold ClaudeBridge.send_enter.
      destruct (_ >=? _); simpl.
      * rewrite count_snoc. simpl. lia.
      * destruct (0 <? ClaudeBridge._semaphore (BridgeLoop.bridge s)) eqn:Hsem; simpl;
          rewrite count_snoc; simpl; [apply Z.ltb_lt in Hsem |]; lia.
    + destruct (BridgeLoop.calls s !! i) as [c |] eqn:Hc; [| done].
      destruct c as [prompt chat_id sp | prompt chat_id sp | r]; simpl.
      * destruct (0 <? ClaudeBridge._semaphore (BridgeLoop.bridge s)) eqn:Hsem; simpl;
          rewrite (count_insert _ _ _ _ _ Hc); simpl; [apply Z.ltb_lt in Hsem |]; lia.
      * rewrite (count_insert _ _ _ _ _ Hc); simpl; lia.
      * rewrite (count_insert _ _ _ _ _ Hc); simpl; lia.
    + destruct (BridgeLoop.calls s !! i) as [c |] eqn:Hc; [| done].
      destruct c as [prompt chat_id sp | prompt chat_id sp | r]; simpl.
      * rewrite (count_insert _ _ _ _ _ Hc); simpl; lia.
      * pose proof (execute_finish_counters (BridgeLoop.bridge s) chat_id outcome disk now later)
          as (_ & Hsem & _).
        destruct (ClaudeBridge._execute_finish (BridgeLoop.bridge s) chat_id outcome disk now later)
          as [[b' r] evs]. simpl in *.
        rewrite (count_insert _ _ _ _ _ Hc); simpl. lia.
      * rewrite (count_insert _ _ _ _ _ Hc); simpl; lia.
Qed.

Lemma running_bounded_by_max_concurrent_witness :
  let s := BridgeLoop.run
             (BridgeLoop.start (ClaudeBridge.init (ClaudeConfig.mk [] 10 300) None 1 10))
             [BridgeLoop.Enter "a" 1 None; BridgeLoop.Enter "b" 2 None;
              BridgeLoop.Resume 1%nat] in
  ClaudeBridge._semaphore (BridgeLoop.bridge s) = 1 - BridgeLoop.running s
  ∧ 0 ≤ BridgeLoop.running s ≤ 1.
Proof.
  apply (running_bounded_by_max_concurrent (ClaudeConfig.mk [] 10 300) None 1 10
           [BridgeLoop.Enter "a" 1 None; BridgeLoop.Enter "b" 2 None;
            BridgeLoop.Resume 1%nat]).
  lia.
Defined.

(** X14. Under any interleaving of [send] calls on a bridge built with
    [max_queue_size >= 0], the calls admitted and not yet returned never
    outnumber [max_queue_size]. *)
Theorem admitted_bounded_by_max_queue_size (cfg : ClaudeConfig.t) (file : option string)
    (max_concurrent max_queue_size : Z) (acts : list BridgeLoop.action) :
  0 ≤ max_queue_size →
  let s := BridgeLoop.run
             (BridgeLoop.start (ClaudeBridge.init cfg file max_concurrent max_queue_size))
             acts in
  0 ≤ BridgeLoop.admitted s ≤ max_queue_size.
Proof.
  intros Hmq s. split; [unfold BridgeLoop.admitted; lia |].
  unfold s. clear s. induction acts as [| a acts IH] using rev_ind.
  - unfold BridgeLoop.admitted. simpl. lia.
  - pose proof (queue_size_counts_admitted
                  (ClaudeBridge.init cfg file max_concurrent max_queue_size) acts eq_refl)
      as [Hq Hm].
    unfold BridgeLoop.run in *. rewrite foldl_app. simpl.
    set (s := foldl BridgeLoop.step _ acts) in *. simpl in Hm.
    unfold BridgeLoop.admitted in *.
    destruct a as [prompt chat_id sp | i | i outcome disk now later]; simpl.
    + unfold ClaudeBridge.send_enter.
      destruct (_ >=? _) eqn:Hfull; simpl.
      * rewrite count_snoc. simpl. lia.
      * rewrite Z.geb_leb in Hfull. apply Z.leb_gt in Hfull.
        destruct (0 <? ClaudeBridge._semaphore (BridgeLoop.bridge s)); simpl;
          rewrite count_snoc; simpl; lia.
    + destruct (BridgeLoop.calls s !! i) as [c |] eqn:Hc; [| done].
      destruct c as [prompt chat_id sp | prompt chat_id sp | r]; simpl.
      * destruct (0 <? ClaudeBridge._semaphore (BridgeLoop.bridge s)); simpl;
          rewrite (count_insert _ _ _ _ _ Hc); simpl; lia.
      * rewrite (count_insert _ _ _ _ _ Hc); simpl; lia.
      * rewrite (count_insert _ _ _ _ _ Hc); simpl; lia.
    + destruct (BridgeLoop.calls s !! i) as [c |] eqn:Hc; [| done].
      destruct c as [prompt chat_id sp | prompt chat_id sp | r]; simpl.
      * rewrite (count_insert _ _ _ _ _ Hc); simpl; lia.
      * destruct (ClaudeBridge._execute_finish (BridgeLoop.bridge s) chat_id outcome disk now later)
          as [[b' r] evs]. simpl in *.
        rewrite (count_insert _ _ _ _ _ Hc); simpl. lia.
      * rewrite (count_insert _ _ _ _ _ Hc); simpl; lia.
Qed.

Lemma admitted_bounded_by_max_queue_size_witness :
  let s := BridgeLoop.run
             (BridgeLoop.start (ClaudeBridge.init (ClaudeConfig.mk [] 10 300) None 1 2))
             [BridgeLoop.Enter "a" 1 None; BridgeLoop.Enter "b" 2 None;
              BridgeLoop.Enter "c" 3 None] in
  0 ≤ BridgeLoop.admitted s ≤ 2.
Proof.
  apply (admitted_bounded_by_max_queue_size (ClaudeConfig.mk [] 10 300) None 1 2
           [BridgeLoop.Enter "a" 1 None; BridgeLoop.Enter "b" 2 None;
            BridgeLoop.Enter "c" 3 None]).
  lia.
Defined.

(** ** Debounce manager: timing and counting *)

Section DebounceMore.
Import DebounceManager Debounce.

Lemma fired_schedule (s : t) (c : Z) (tr : TriggerConfig.t) (m : string)
    (cap : option string) (mid : option Z) :
  fired (schedule s c tr m cap mid).2 = fired s.
Proof.
  unfold schedule.
  repeat (match goal with
          | |- context [match ?x with _ => _ end] => destruct x
          end; simpl; try done).
Qed.

Lemma step_fires_when_due (s : t) (l : label) :
  wf s →
  fired (step s l) = fired s
  ∨ ∃ tid o,
      l = Run tid
      ∧ fired (step s l) = fired s ++ [o]
      ∧ DebouncedMessage.last_update o
        + TriggerConfig.debounce_seconds (DebouncedMessage.trigger o) ≤ now s
      ∧ is_Some (_pending s !! key_of o)
      ∧ _pending (step s l) !! key_of o = None.
Proof.
  intros Hwf. destruct l as [dt | tid | c tr m cap mid]; simpl.
  - by left.
  - assert (Hloop : ∀ k p o,
              _pending s !! k = Some p → heap s !! p = Some o →
              let s' := wait_loop s tid k p
                          (TriggerConfig.debounce_seconds (DebouncedMessage.trigger o)) in
              fired s' = fired s
              ∨ ∃ tid' o',
                  Run tid = Run tid' ∧ fired s' = fired s ++ [o']
                  ∧ DebouncedMessage.last_update o'
                    + TriggerConfig.debounce_seconds (DebouncedMessage.trigger o') ≤ now s
                  ∧ is_Some (_pending s !! key_of o')
                  ∧ _pending s' !! key_of o' = None).
    { intros k p o Hp Ho. simpl. unfold wait_loop. rewrite Ho.
      destruct (_ <=? 0) eqn:Hrem; [| by left].
      apply Z.leb_le in Hrem. right. exists tid, o.
      destruct (wf_pending s Hwf k p Hp) as (o' & ? & Ho' & Hkey & _).
      assert (o' = o) as -> by congruence.
      unfold fire. rewrite Hp, Ho. simpl. rewrite Hkey, Hp.
      repeat split; [lia | by eexists | apply lookup_delete_eq]. }
    unfold run_task. destruct (tasks s !! tid) as [st |] eqn:Hst; [| by left].
    destruct st as [k | k p d w | |]; try by left.
    + destruct (_pending s !! k) as [p |] eqn:Hp; [| by left].
      destruct (heap s !! p) as [o |] eqn:Ho; [| by left].
      by apply (Hloop k p o).
    + destruct (now s <? w); [by left |].
      destruct (wf_live s Hwf tid _ k Hst eq_refl) as (p' & o & Hp & Ho & _ & <- & -> & _).
      by apply (Hloop k p o).
  - left. apply fired_schedule.
Qed.

(** X15. In any state the manager can reach, a step calls the callback at
    most once, and only by resuming a task: the object it passes has then
    waited its whole window since its last update, and its entry leaves
    the map in the same step. *)
Theorem debounce_never_fires_early (t0 : Z) (history : list label) (l : label) :
  let s := exec (init t0) history in
  fired (step s l) = fired s
  ∨ ∃ tid o,
      l = Run tid
      ∧ fired (step s l) = fired s ++ [o]
      ∧ DebouncedMessage.last_update o
        + TriggerConfig.debounce_seconds (DebouncedMessage.trigger o) ≤ now s
      ∧ is_Some (_pending s !! key_of o)
      ∧ _pending (step s l) !! key_of o = None.
Proof. intros s. apply step_fires_when_due, wf_exec, wf_init. Qed.

Lemma step_counts (s : t) (l : label) :
  (length (fired (step s l)) + size (_pending (step s l))
   = length (fired s) + size (_pending s) + new_bursts s [l])%nat.
Proof.
  destruct l as [dt | tid | c tr m cap mid]; simpl.
  - lia.
  - assert (Hset : ∀ st, (length (fired (set_task s tid st))
                          + size (_pending (set_task s tid st))
                          = length (fired s) + size (_pending s) + (0 + 0))%nat)
      by (intros; simpl; lia).
    assert (Hloop : ∀ k p d,
              (length (fired (wait_loop s tid k p d)) + size (_pending (wait_loop s tid k p d))
               = length (fired s) + size (_pending s) + (0 + 0))%nat).
    { intros k p d. unfold wait_loop.
      destruct (heap s !! p) as [o |] eqn:Ho; [| apply Hset].
      destruct (_ <=? 0); [| apply Hset].
      unfold fire. rewrite Ho.
      destruct (_pending s !! k) as [p' |] eqn:Hp; [| apply Hset].
      simpl. rewrite length_app. simpl.
      pose proof (map_size_delete_Some k (_pending s) (ex_intro _ p' Hp)).
      pose proof (map_size_ne_0_lookup_2 (_pending s) k (ex_intro _ p' Hp)). lia. }
    unfold run_task. destruct (tasks s !! tid) as [st |]; [| lia].
    destruct st as [k | k p d w | |]; try apply Hset; try lia.
    + destruct (_pending s !! k) as [p |]; [| apply Hset].
      destruct (heap s !! p) as [o |]; [apply Hloop | apply Hset].
    + destruct (now s <? w); [lia | apply Hloop].
  - unfold schedule.
    destruct (_pending s !! _key c tr) as [p |] eqn:Hp.
    + destruct (heap s !! p); simpl; lia.
    + simpl. rewrite map_size_insert_None by done. lia.
Qed.

(** X16. Every burst is pending or has fired, never both and never
    twice: after any steps, the callback invocations and the pending
    entries together have grown by the number of [schedule] calls that
    returned [True]. From a fresh manager the callback has therefore been
    called at most once per burst. *)
Theorem debounce_fires_once_per_burst (s : t) (ls : list label) :
  (length (fired (exec s ls)) + size (_pending (exec s ls))
   = length (fired s) + size (_pending s) + new_bursts s ls)%nat.
Proof.
  revert s. induction ls as [| l ls IH]; intros s; [simpl; lia |].
  simpl. fold (exec (step s l) ls). rewrite IH.
  pose proof (step_counts s l) as Hstep. simpl in Hstep. lia.
Qed.

End DebounceMore.

(** ** Debounce manager: cancelling *)

Section DebounceCancel.
Import DebounceManager Debounce.

Lemma wf_cancel (s : t) (c : Z) (tr : TriggerConfig.t) : wf s → wf (cancel s c tr).2.
Proof.
  intros Hwf. unfold cancel. set (k := _key c tr).
  destruct (_pending s !! k) as [p |] eqn:Hp; [| done].
  destruct (wf_pending s Hwf k p Hp) as (o & tid & Ho & Hkey & Ht & Hlt).
  rewrite Ho. simpl. split; simpl.
  - intros k1 p1 Hk1. apply lookup_delete_Some in Hk1 as [_ Hk1].
    exact (wf_pending s Hwf k1 p1 Hk1).
  - exact (wf_heap s Hwf).
  - intros tid' [st Hst]. rewrite cancel_task_lookup in Hst.
    destruct (bool_decide _ && _) eqn:Hb.
    + apply andb_true_iff in Hb as [Hb _]. apply bool_decide_eq_true in Hb.
      assert (tid' = tid) by congruence. lia.
    + apply (wf_tasks s Hwf). eauto.
  - intros tid' st k' Hst Hk'. rewrite cancel_task_lookup in Hst.
    destruct (bool_decide _ && _) eqn:Hb.
    + injection Hst as <-. discriminate Hk'.
    + destruct (wf_live s Hwf tid' st k' Hst Hk') as (p1 & o1 & Hp1 & Ho1 & Ht1 & Hs1).
      assert (k' ≠ k).
      { intros ->. assert (p1 = p) as -> by congruence.
        assert (o1 = o) as -> by congruence.
        rewrite bool_decide_eq_true_2 in Hb by done.
        rewrite (done_live _ _ _ _ Hst Hk') in Hb. discriminate. }
      exists p1, o1. rewrite lookup_delete_ne by done. done.
  - intros k1 p1 o1 tid' st k' Hk1 Ho1 Ht1 Hst Hk'.
    apply lookup_delete_Some in Hk1 as [_ Hk1]. rewrite cancel_task_lookup in Hst.
    destruct (bool_decide _ && _).
    + injection Hst as <-. discriminate Hk'.
    + exact (wf_owner s Hwf k1 p1 o1 tid' st k' Hk1 Ho1 Ht1 Hst Hk').
Qed.

(** X17. In any state the manager can reach, [cancel] returns whether the
    key had an entry and removes it; from then on, as long as nothing is
    scheduled for the key, its callback is not called, however late the
    cancelling came; a second [cancel] returns [False] and changes
    nothing. *)
Theorem cancel_prevents_callback (t0 : Z) (history : list label) (c : Z)
    (tr : TriggerConfig.t) (ls : list label) :
  let s := exec (init t0) history in
  let k := _key c tr in
  let r := cancel s c tr in
  Forall (quiet k) ls →
  r.1 = bool_decide (is_Some (_pending s !! k))
  ∧ _pending r.2 !! k = None
  ∧ fired r.2 = fired s
  ∧ _pending (exec r.2 ls) !! k = None
  ∧ fired_for k (exec r.2 ls) = fired_for k s
  ∧ cancel r.2 c tr = (false, r.2).
Proof.
  intros s k r Hquiet.
  pose proof (wf_exec (init t0) history (wf_init t0)) as Hwf. fold s in Hwf.
  pose proof (wf_cancel s c tr Hwf) as Hwf'. fold r in Hwf'.
  assert (Hr : r.1 = bool_decide (is_Some (_pending s !! k))
               ∧ _pending r.2 !! k = None ∧ fired r.2 = fired s).
  { unfold r, cancel. fold k. destruct (_pending s !! k) as [p |] eqn:Hp; simpl.
    - by rewrite lookup_delete_eq.
    - by rewrite Hp. }
  destruct Hr as (Hr1 & Hr2 & Hr3).
  destruct (exec_idle r.2 k ls Hwf' Hr2 Hquiet) as [Hp Hf].
  repeat split; try done.
  - rewrite Hf. unfold fired_for. by rewrite Hr3.
  - unfold cancel at 1. fold k. by rewrite Hr2.
Qed.

Lemma cancel_prevents_callback_witness :
  let tr := TriggerConfig.mk "*" "^/ask (.+)$" "claude" "inline" None 5 None in
  let history := [Schedule 7 tr "/ask a" (Some "a") (Some 1); Run 0%nat; Tick 9] in
  let s := exec (init 0) history in
  let k := _key 7 tr in
  let r := cancel s 7 tr in
  let ls := [Run 0%nat; Tick 1; Run 0%nat] in
  r.1 = bool_decide (is_Some (_pending s !! k))
  ∧ _pending r.2 !! k = None
  ∧ fired r.2 = fired s
  ∧ _pending (exec r.2 ls) !! k = None
  ∧ fired_for k (exec r.2 ls) = fired_for k s
  ∧ cancel r.2 7 tr = (false, r.2).
Proof.
  intros tr history s k r ls.
  apply (cancel_prevents_callback 0 history 7 tr ls).
  repeat constructor.
Defined.

(** In that run the entry was due when it was cancelled, and the callback
    is never called. *)
Example cancel_of_a_due_entry :
  let tr := TriggerConfig.mk "*" "^/ask (.+)$" "claude" "inline" None 5 None in
  let s := exec (init 0) [Schedule 7 tr "/ask a" (Some "a") (Some 1); Run 0%nat; Tick 9] in
  (cancel s 7 tr).1 = true
  ∧ fired (exec (cancel s 7 tr).2 [Run 0%nat; Tick 1; Run 0%nat]) = []
  ∧ fired (exec s [Run 0%nat])
    = [DebouncedMessage.mk 7 tr "/ask a" (Some "a") (Some 1) 0 (Some 0%nat)].
Proof. vm_compute. repeat split; reflexivity. Qed.

(** Every entry of a reachable state has a timer that has not fired. *)
Lemma step_entries_wait (s : t) (l : label) :
  wf s →
  (∀ k p, _pending s !! k = Some p → ∃ o tid, waiting s k o tid) →
  ∀ k p, _pending (step s l) !! k = Some p → ∃ o tid, waiting (step s l) k o tid.
Proof.
  intros Hwf Hall k p Hp.
  assert (Hquiet : quiet k l → ∃ o tid, waiting (step s l) k o tid).
  { intros Hq. destruct (_pending s !! k) as [p0 |] eqn:Hp0.
    - destruct (Hall k p0 Hp0) as (o & tid & Hw).
      destruct (step_waiting s k o tid l Hwf Hw Hq) as [[Hw' _] | (_ & Hgone & _)];
        [eauto | congruence].
    - destruct (step_idle s k l Hwf Hp0 Hq) as [Hgone _]. congruence. }
  destruct l as [dt | tid | c tr m cap mid]; try (by apply Hquiet).
  destruct (decide (_key c tr = k)) as [<- | Hne]; [| by apply Hquiet].
  simpl. destruct (_pending s !! _key c tr) as [p0 |] eqn:Hp0.
  - destruct (Hall _ p0 Hp0) as (o & tid & Hw).
    destruct (schedule_again s c tr (mkMessage m cap mid) o tid Hwf Hw) as (_ & Hw' & _).
    eauto.
  - destruct (schedule_new s c tr (mkMessage m cap mid) Hwf Hp0) as (_ & Hw' & _).
    eauto.
Qed.

Lemma exec_entries_wait (t0 : Z) (history : list label) (k : key) (p : nat) :
  _pending (exec (init t0) history) !! k = Some p →
  ∃ o tid, waiting (exec (init t0) history) k o tid.
Proof.
  revert k p. induction history as [| l ls IH] using rev_ind; intros k p Hp.
  - simpl in Hp. by rewrite lookup_empty in Hp.
  - unfold exec in *. rewrite foldl_app in *. simpl in *.
    eapply step_entries_wait; [apply (wf_exec _ ls (wf_init t0)) | exact IH | exact Hp].
Qed.

(** X18. In any state the manager can reach, every pending entry holds
    the latest message of its burst's object together with a timer that
    has not fired, and resuming that timer once the window is over removes
    the entry and calls the callback with the object: no entry is left
    without a timer. *)
Theorem pending_entries_have_live_timers (t0 : Z) (history : list label)
    (k : key) (p : nat) :
  let s := exec (init t0) history in
  _pending s !! k = Some p →
  ∃ o tid st,
    heap s !! p = Some o ∧ key_of o = k
    ∧ DebouncedMessage.task o = Some tid
    ∧ tasks s !! tid = Some st ∧ task_key st = Some k
    ∧ (DebouncedMessage.last_update o
       + TriggerConfig.debounce_seconds (DebouncedMessage.trigger o) ≤ now s →
       _pending (run_task s tid) !! k = None
       ∧ fired_for k (run_task s tid) = fired_for k s ++ [o]).
Proof.
  intros s Hp.
  pose proof (wf_exec (init t0) history (wf_init t0)) as Hwf. fold s in Hwf.
  destruct (exec_entries_wait t0 history k p Hp) as (o & tid & Hw). fold s in Hw.
  pose proof (waiting_key s k o tid Hwf Hw) as Hkey.
  pose proof Hw as (p' & st & Hp' & Ho & Ht & Hst & Hk).
  assert (p' = p) as -> by congruence.
  exists o, tid, st. repeat split; try done.
  - destruct (run_own s k o tid Hwf Hw) as [(_ & ? & _) | (? & _)]; [done | lia].
  - destruct (run_own s k o tid Hwf Hw) as [(_ & _ & ?) | (? & _)]; [done | lia].
Qed.

Lemma pending_entries_have_live_timers_witness :
  let tr := TriggerConfig.mk "*" "^/ask (.+)$" "claude" "inline" None 5 None in
  let s := exec (init 0) [Schedule 7 tr "/ask a" (Some "a") (Some 1); Run 0%nat; Tick 9] in
  ∃ o tid st,
    heap s !! 0%nat = Some o ∧ key_of o = _key 7 tr
    ∧ DebouncedMessage.task o = Some tid
    ∧ tasks s !! tid = Some st ∧ task_key st = Some (_key 7 tr)
    ∧ (DebouncedMessage.last_update o
       + TriggerConfig.debounce_seconds (DebouncedMessage.trigger o) ≤ now s →
       _pending (run_task s tid) !! _key 7 tr = None
       ∧ fired_for (_key 7 tr) (run_task s tid) = fired_for (_key 7 tr) s ++ [o]).
Proof.
  intros tr.
  apply (pending_entries_have_live_timers 0
           [Schedule 7 tr "/ask a" (Some "a") (Some 1); Run 0%nat; Tick 9]
           (_key 7 tr) 0%nat).
  reflexivity.
Defined.

Lemma done_cancel_task (tasks : gmap nat task_state) (task : option nat) (tid : nat) :
  done (cancel_task tasks task).1 tid = done tasks tid.
Proof.
  unfold done at 1. rewrite cancel_task_lookup.
  destruct (bool_decide _ && negb (done tasks tid)) eqn:Hb; [| done].
  apply andb_true_iff in Hb as [_ Hb]. by destruct (done tasks tid).
Qed.

Lemma cancel_values_count (h : gmap nat DebouncedMessage.t) (values : list nat)
    (tasks : gmap nat task_state) :
  (∀ p, p ∈ values →
     ∃ o tid, h !! p = Some o ∧ DebouncedMessage.task o = Some tid
              ∧ done tasks tid = false) →
  length (cancel_values h values tasks).2 = length values.
Proof.
  revert tasks. induction values as [| p values IH]; intros tasks Hall; [done |].
  destruct (Hall p) as (o & tid & Ho & Ht & Hd); [by left |].
  simpl. rewrite Ho, Ht.
  assert (Hc : cancel_task tasks (Some tid) = (<[tid := CancelRequested]> tasks, true)).
  { unfold cancel_task. by rewrite Hd. }
  rewrite Hc.
  specialize (IH (<[tid := CancelRequested]> tasks)).
  destruct (cancel_values h values (<[tid := CancelRequested]> tasks)) as [tasks2 cancelled].
  simpl in *. f_equal. apply IH.
  intros p' Hp'. destruct (Hall p') as (o' & tid' & Ho' & Ht' & Hd'); [by right |].
  exists o', tid'. repeat split; try done.
  pose proof (done_cancel_task tasks (Some tid) tid') as Hdone.
  unfold cancel_task in Hdone. rewrite Hd in Hdone. simpl in Hdone. congruence.
Qed.

(** X19. In any state the manager can reach, [cancel_all] cancels one
    timer per pending entry: the count it returns is the number of
    entries, and the map is empty afterwards. *)
Theorem cancel_all_counts_entries (t0 : Z) (history : list label) :
  let s := exec (init t0) history in
  (cancel_all s).1.1 = Z.of_nat (size (_pending s))
  ∧ length (cancel_all s).2 = size (_pending s)
  ∧ _pending (cancel_all s).1.2 = ∅.
Proof.
  intros s.
  pose proof (wf_exec (init t0) history (wf_init t0)) as Hwf. fold s in Hwf.
  assert (Hlen : length (cancel_values (heap s) (snd <$> map_to_list (_pending s))
                           (tasks s)).2
                 = size (_pending s)).
  { rewrite cancel_values_count; [by rewrite length_fmap, length_map_to_list |].
    intros p Hp. apply list_elem_of_fmap in Hp as ([k p'] & -> & Hkp).
    apply elem_of_map_to_list in Hkp. simpl.
    destruct (exec_entries_wait t0 history k p' Hkp) as (o & tid & Hw).
    destruct Hw as (p1 & st & Hp1 & Ho & Ht & Hst & Hk).
    assert (p1 = p') as -> by (unfold s in Hkp; congruence).
    exists o, tid. repeat split; try done. by apply (done_live _ _ st k). }
  unfold cancel_all.
  destruct (cancel_values (heap s) (snd <$> map_to_list (_pending s)) (tasks s))
    as [tasks1 cancelled]. simpl in *. by rewrite Hlen.
Qed.

End DebounceCancel.

(** ** Debounce: one entry per chat and pattern *)

Section DebounceEntries.
Import DebounceManager Debounce.

(** X21. In any state the manager can reach, the pending map has one entry
    per chat and pattern: for two (chat, rule) pairs that differ in the
    chat or in the rule's pattern and have no entry yet, scheduling a
    message for each gives two separate entries, each of which fires with
    its own chat, rule and message; a further call for the first chat and
    a rule with the first pattern returns [False], adds no entry and
    replaces the content of the existing one. *)
Theorem debounce_one_entry_per_chat_and_pattern (t0 : Z) (history : list label)
    (c1 c2 : Z) (t1 t2 t1' : TriggerConfig.t) (m1 m2 m3 : message) (ls : list label) :
  let s := exec (init t0) history in
  c1 ≠ c2 ∨ TriggerConfig.pattern t1 ≠ TriggerConfig.pattern t2 →
  TriggerConfig.pattern t1' = TriggerConfig.pattern t1 →
  _pending s !! _key c1 t1 = None → _pending s !! _key c2 t2 = None →
  Forall timer_only ls →
  let r1 := schedule s c1 t1 (text m1) (captured m1) (mid m1) in
  let r2 := schedule r1.2 c2 t2 (text m2) (captured m2) (mid m2) in
  let r3 := schedule r2.2 c1 t1' (text m3) (captured m3) (mid m3) in
  r1.1 = true ∧ r2.1 = true
  ∧ _key c1 t1 ≠ _key c2 t2
  ∧ _pending r2.2
    = <[_key c2 t2 := S (next_loc s)]> (<[_key c1 t1 := next_loc s]> (_pending s))
  ∧ coalesced (_key c1 t1) c1 t1 m1 (fired_for (_key c1 t1) s) (exec r2.2 ls)
  ∧ coalesced (_key c2 t2) c2 t2 m2 (fired_for (_key c2 t2) s) (exec r2.2 ls)
  ∧ r3.1 = false
  ∧ _pending r3.2 = _pending r2.2
  ∧ ∃ o, heap r3.2 !! next_loc s = Some o ∧ content o = m3.
Proof.
  intros s Hpat Hpat' Hk1 Hk2 Hls r1 r2 r3.
  pose proof (wf_exec (init t0) history (wf_init t0)) as Hwf. fold s in Hwf.
  assert (Hne : _key c1 t1 ≠ _key c2 t2).
  { unfold _key. intros [= Hc Hp]. by destruct Hpat. }
  assert (Hk' : _key c1 t1' = _key c1 t1) by (unfold _key; congruence).
  destruct (schedule_new s c1 t1 m1 Hwf Hk1) as (Hr1 & Hw1 & Hf1 & Hp1 & Hn1).
  pose proof (wf_schedule s c1 t1 (text m1) (captured m1) (mid m1) Hwf) as Hwf1.
  fold r1 in Hr1, Hw1, Hf1, Hp1, Hn1, Hwf1.
  assert (Hk2' : _pending r1.2 !! _key c2 t2 = None).
  { rewrite Hp1. by rewrite lookup_insert_ne. }
  destruct (schedule_new r1.2 c2 t2 m2 Hwf1 Hk2') as (Hr2 & Hw2 & Hf2 & Hp2 & Hn2).
  pose proof (wf_schedule r1.2 c2 t2 (text m2) (captured m2) (mid m2) Hwf1) as Hwf2.
  fold r2 in Hr2, Hw2, Hf2, Hp2, Hn2, Hwf2.
  assert (Hw1' : waiting r2.2 (_key c1 t1)
                   (DebouncedMessage.mk c1 t1 (text m1) (captured m1) (mid m1) (now s)
                      (Some (next_task s))) (next_task s)).
  { destruct (step_waiting r1.2 (_key c1 t1) _ _
                (Schedule c2 t2 (text m2) (captured m2) (mid m2)) Hwf1 Hw1)
      as [[Hw _] | (_ & Hgone & _)].
    - simpl. congruence.
    - exact Hw.
    - simpl in Hgone. fold r2 in Hgone. rewrite Hp2, Hp1 in Hgone.
      rewrite lookup_insert_ne, lookup_insert_eq in Hgone by congruence. discriminate. }
  split; [done |]. split; [done |]. split; [done |].
  split; [by rewrite Hp2, Hp1, Hn1 |].
  split; [| split].
  - pose proof (waiting_exec_coalesced r2.2 _ _ _ ls Hwf2 Hw1'
                  (timer_only_quiet _ ls Hls)) as Hco.
    simpl in Hco. destruct m1. unfold fired_for in *. by rewrite Hf2, Hf1 in Hco.
  - pose proof (waiting_exec_coalesced r2.2 _ _ _ ls Hwf2 Hw2
                  (timer_only_quiet _ ls Hls)) as Hco.
    simpl in Hco. destruct m2. unfold fired_for in *. by rewrite Hf2, Hf1 in Hco.
  - rewrite <- Hk' in Hw1'.
    destruct (schedule_again r2.2 c1 t1' m3 _ _ Hwf2 Hw1') as (Hr3 & Hw3 & _ & Hp3).
    fold r3 in Hr3, Hw3, Hp3.
    split; [done |]. split; [done |].
    destruct Hw3 as (p & st & Hp & Ho & _).
    rewrite Hp3, Hp2, Hp1, Hk' in Hp.
    rewrite lookup_insert_ne, lookup_insert_eq in Hp by congruence.
    injection Hp as <-. eexists. split; [exact Ho |]. by destruct m3.
Qed.

(** A question in one chat and the same rule in another chat, then a
    second question in the first chat. *)
Lemma debounce_one_entry_per_chat_and_pattern_witness :
  let t1 := TriggerConfig.mk "*" "^/ask (.+)$" "claude" "inline" None 5 None in
  let m1 := mkMessage "/ask a" (Some "a") (Some 1) in
  let m2 := mkMessage "/ask x" (Some "x") (Some 2) in
  let m3 := mkMessage "/ask b" (Some "b") (Some 3) in
  let r1 := schedule (init 0) 7 t1 (text m1) (captured m1) (mid m1) in
  let r2 := schedule r1.2 8 t1 (text m2) (captured m2) (mid m2) in
  let r3 := schedule r2.2 7 t1 (text m3) (captured m3) (mid m3) in
  r1.1 = true ∧ r2.1 = true
  ∧ _key 7 t1 ≠ _key 8 t1
  ∧ _pending r2.2 = <[_key 8 t1 := 1%nat]> (<[_key 7 t1 := 0%nat]> ∅)
  ∧ coalesced (_key 7 t1) 7 t1 m1 [] (exec r2.2 [Tick 5; Run 0%nat; Run 1%nat])
  ∧ coalesced (_key 8 t1) 8 t1 m2 [] (exec r2.2 [Tick 5; Run 0%nat; Run 1%nat])
  ∧ r3.1 = false
  ∧ _pending r3.2 = _pending r2.2
  ∧ ∃ o, heap r3.2 !! 0%nat = Some o ∧ content o = m3.
Proof.
  intros t1 m1 m2 m3.
  apply (debounce_one_entry_per_chat_and_pattern 0 [] 7 8 t1 t1 t1 m1 m2 m3
           [Tick 5; Run 0%nat; Run 1%nat]).
  - left. discriminate.
  - reflexivity.
  - reflexivity.
  - reflexivity.
  - repeat constructor.
Defined.

End DebounceEntries.

(** ** Runner: the debounced path *)

Section RunnerDebounce.
Import DebounceManager Debounce.
Variable re_match : string → string → option ReMatch.

(** X20. An event routed to a rule with a debounce window, for a key that
    has no entry yet, is answered later exactly as it would have been at
    once: while nothing else is scheduled for the key, either its entry is
    still waiting and nothing was called, or the callback was called once,
    and [_execute_debounced] then runs the action with the rule, the chat
    id, the text, the captured text and the message id of that event. *)
Theorem debounced_event_is_answered_like_immediate (t0 : Z) (history : list label)
    (d : Daemon.t) (triggers : list TriggerConfig.t) (send : MessageHandler.bridge_send)
    (ev : Daemon.NewMessage) (m : RouteMatch) (ls : list label) :
  let k := _key (Daemon.event_chat_id ev) (rm_trigger m) in
  Daemon._debounce d = exec (init t0) history →
  EventRouter.match_ re_match triggers (Daemon.event_chat_name ev) (Daemon.event_text ev)
  = Some m →
  0 < TriggerConfig.debounce_seconds (rm_trigger m) →
  _pending (Daemon._debounce d) !! k = None →
  Forall (quiet k) ls →
  let d' := (Daemon._handle_message re_match d triggers send ev).1 in
  let s' := exec (Daemon._debounce d') ls in
  match _pending s' !! k with
  | Some _ => fired_for k s' = fired_for k (Daemon._debounce d)
  | None =>
      ∃ o, fired_for k s' = fired_for k (Daemon._debounce d) ++ [o]
           ∧ Daemon._execute_debounced d' send o
             = Daemon._execute_action d' send (rm_trigger m) (Daemon.event_chat_id ev)
                 (Daemon.event_text ev) (rm_captured_text m)
                 (Some (Daemon.message_ident ev))
  end.
Proof.
  intros k Hreach Hroute Hdeb Hidle Hquiet d' s'.
  assert (Hwf : wf (Daemon._debounce d)).
  { rewrite Hreach. apply wf_exec, wf_init. }
  set (msg := mkMessage (Daemon.event_text ev) (rm_captured_text m)
                (Some (Daemon.message_ident ev))).
  destruct (schedule_new (Daemon._debounce d) (Daemon.event_chat_id ev) (rm_trigger m)
              msg Hwf Hidle) as (_ & Hw & Hf & _).
  pose proof (wf_schedule (Daemon._debounce d) (Daemon.event_chat_id ev) (rm_trigger m)
                (text msg) (captured msg) (mid msg) Hwf) as Hwf'.
  assert (Hd' : Daemon._debounce d'
                = (schedule (Daemon._debounce d) (Daemon.event_chat_id ev) (rm_trigger m)
                     (text msg) (captured msg) (mid msg)).2).
  { unfold d', Daemon._handle_message. rewrite Hroute.
    assert (Hlt : (0 <? TriggerConfig.debounce_seconds (rm_trigger m)) = true)
      by (by apply Z.ltb_lt).
    by rewrite Hlt. }
  pose proof (waiting_exec_coalesced _ k _ _ ls Hwf' Hw Hquiet) as Hco.
  rewrite <- Hd' in Hco. fold s' in Hco. unfold coalesced in Hco. simpl in Hco.
  assert (Hbase : fired_for k (Daemon._debounce d') = fired_for k (Daemon._debounce d)).
  { unfold fired_for. by rewrite Hd', Hf. }
  rewrite Hbase in Hco.
  destruct (_pending s' !! k) as [p |].
  - by destruct Hco as (o & tid & _ & _ & _ & _ & _ & Hfired & _).
  - destruct Hco as (o & Hfired & Hcontent & Htr & Hchat).
    exists o. split; [done |].
    unfold Daemon._execute_debounced. unfold content in Hcontent.
    injection Hcontent as -> -> ->. by rewrite Htr, Hchat.
Qed.

End RunnerDebounce.

Lemma debounced_event_is_answered_like_immediate_witness :
  let literal := λ p text : string,
    if String.prefix p text then Some (mkReMatch p [Some "a"]) else None in
  let tr := TriggerConfig.mk "*" "/ask " "claude" "inline" None 5 None in
  let d := Daemon.mk true true None (DebounceManager.init 0) in
  let send := λ (_ : string) (_ : Z) (_ : option string),
    ClaudeResponse.mk (PStr "hi") (PStr "s1") true PNone None in
  let ev := Daemon.mkNewMessage None (Some "alice") 42 42 (Some "/ask a") 3 in
  let k := DebounceManager._key 42 tr in
  let ls := [DebounceManager.Run 0%nat; DebounceManager.Tick 5; DebounceManager.Run 0%nat] in
  let d' := (Daemon._handle_message literal d [tr] send ev).1 in
  let s' := DebounceManager.exec (Daemon._debounce d') ls in
  match DebounceManager._pending s' !! k with
  | Some _ => Debounce.fired_for k s' = Debounce.fired_for k (Daemon._debounce d)
  | None =>
      ∃ o, Debounce.fired_for k s' = Debounce.fired_for k (Daemon._debounce d) ++ [o]
           ∧ Daemon._execute_debounced d' send o
             = Daemon._execute_action d' send tr 42 "/ask a" (Some "a") (Some 3)
  end.
Proof.
  intros literal tr d send ev k ls.
  apply (debounced_event_is_answered_like_immediate literal 0 [] d [tr] send ev
           (mkRouteMatch tr (Some "a") (mkReMatch "/ask " [Some "a"])) ls).
  - reflexivity.
  - reflexivity.
  - simpl. lia.
  - reflexivity.
  - repeat constructor.
Defined.
